(** * Rail Announcements Generator: the vox resolver and the vox engine

    A shallow embedding of [Resolver] (phrase nodes to vox keys) and of
    [VoxEngine] (bounded prefetch, FIFO playback, cancellation), with the
    properties of the design document proved or refuted on the embedding,
    and of the state that the resolver reads: [State], the picks of
    [Database] and [Random] (memoizing getters, random picks, the
    generated default state).

    JavaScript values are modelled as follows: a string is a [string], a
    [string | undefined] value is an [option string], a number that holds a
    count is a [Z] or a [nat], a number that holds a duration in seconds is
    a [Q] written with the decimal literal of the source, an array is a
    [list], and an object that is shared and mutated (a request, an audio
    node) lives in a store and is named by its index. *)

From Stdlib Require Import QArith Qround ZArith Ascii String List Lia.
From stdpp Require Import base option list strings pretty gmap sorting.

Local Open Scope string_scope.
Local Open Scope list_scope.

(** ** JavaScript strings *)

Module JS.

(** [s.startsWith(p)] *)
Definition startsWith (p s : string) : bool := String.prefix p s.

(** [s.endsWith(p)] *)
Definition endsWith (p s : string) : bool :=
  String.prefix (String.rev p) (String.rev s).

Fixpoint trimStart (s : string) : string :=
  match s with
  | String c rest => if Ascii.is_space c then trimStart rest else s
  | EmptyString => EmptyString
  end.

(** [s.trim()], on the white space of the ASCII range: tab, line feed,
    vertical tab, form feed, carriage return and space. *)
Definition trim (s : string) : string :=
  String.rev (trimStart (String.rev (trimStart s))).

(** [s.split(sep)] for a separator of one character: the pieces between
    the occurrences of [sep], so never an empty array. *)
Fixpoint split (sep : ascii) (s : string) : list string :=
  match s with
  | EmptyString => [EmptyString]
  | String c rest =>
      if Ascii.eqb c sep then EmptyString :: split sep rest
      else match split sep rest with
           | piece :: pieces => String c piece :: pieces
           | [] => [String c EmptyString]
           end
  end.

Definition isAlnum (c : ascii) : bool :=
  let n := nat_of_ascii c in
  ((48 <=? n) && (n <=? 57) || (65 <=? n) && (n <=? 90)
   || (97 <=? n) && (n <=? 122))%nat.

(** [s.match(/[a-z0-9]/i)] read as a truth value *)
Fixpoint matchAlnum (s : string) : bool :=
  match s with
  | EmptyString => false
  | String c rest => isAlnum c || matchAlnum rest
  end.

(** A [string | undefined] value inside a template literal. *)
Definition template (v : option string) : string := default "undefined" v.

(** Digits after the decimal point of [r / d], for [0 <= r < d]; stops when
    the expansion ends. *)
Fixpoint fracDigits (fuel : nat) (r d : Z) : string :=
  match fuel with
  | O => EmptyString
  | S fuel' =>
      if (r =? 0)%Z then EmptyString
      else pretty (r * 10 / d)%Z +:+ fracDigits fuel' ((r * 10) mod d)%Z d
  end.

(** [Number.prototype.toString] on the numbers of this program, which are
    short decimal fractions: [0.2] reads "0.2", [14] reads "14". *)
Definition numberToString (q : Q) : string :=
  let n := Qnum q in
  let d := Zpos (Qden q) in
  let a := Z.abs n in
  let whole := pretty (a / d)%Z in
  let frac := fracDigits 17 (a mod d)%Z d in
  (if (n <? 0)%Z then "-" else "")
  +:+ whole +:+ (if String.eqb frac "" then "" else "." +:+ frac).

End JS.

(** ** Vox keys *)

(** [type VoxKey = string | number]: a segment reference or a silence in
    seconds. *)
Inductive VoxKey : Type :=
| Segment (id : string)
| Silence (seconds : Q).

(** [typeof v === 'number'], on the result of reading an array element
    ([None] is [undefined]). *)
Definition isNumber (v : option VoxKey) : bool :=
  match v with
  | Some (Silence _) => true
  | _ => false
  end.

(** Truthiness of an array element: [undefined], the empty string and zero
    are falsy. *)
Definition truthy (v : option VoxKey) : bool :=
  match v with
  | None => false
  | Some (Segment s) => negb (String.eqb s "")
  | Some (Silence q) => negb (Qeq_bool q 0)
  end.

(** A key inside a template literal. *)
Definition keyToString (k : VoxKey) : string :=
  match k with
  | Segment s => s
  | Silence q => JS.numberToString q
  end.

(** ** The resolver *)

Module Resolver.

Inductive NodeType : Type := TEXT_NODE | ELEMENT_NODE.

(** What the resolver reads of a DOM node. [nodeIndex] is
    [DOM.nodeIndexOf(node)], whose source is not part of this
    development's sources. *)
#[warnings="-register-all"]
Inductive Node : Type := mkNode {
  nodeType      : NodeType;
  dataset       : gmap string string;
  textContent   : string;
  innerText     : string;
  parentElement : option Node;
  nodeIndex     : nat
}.

(** [RAG.state], as far as the resolver reads it. *)
Record State : Type := mkState {
  getCoach       : string -> string;
  excuse         : string;
  getInteger     : string -> Z;
  named          : string;
  platform       : string * string;
  getService     : string -> string;
  getStation     : string -> string;
  getStationList : string -> list string;
  getTime        : string -> string
}.

(** The globals the resolver calls and whose source is elsewhere:
    [RAG.state], [RAG.database.getStationVox], [Strings.clean] and
    [Strings.filename]. *)
Record Globals : Type := mkGlobals {
  state         : State;
  getStationVox : string -> string;
  clean         : string -> string;
  filename      : string -> string
}.

(** [element.dataset[k]!]: the assertion is erased at run time; an absent
    attribute reads as [undefined], which as a property name or inside a
    template literal is the string "undefined". *)
Definition data (element : Node) (k : string) : string :=
  JS.template (dataset element !! k).

Section Resolve.
Variable RAG : Globals.
(** [this.flattened] *)
Variable flattened : list Node.

Definition getInflection (idx : nat) : string :=
  match flattened !! (idx + 1) with
  | Some next =>
      if JS.startsWith "." (JS.trim (textContent next)) then "end"
      else "mid"
  | None => "mid"
  end.

(** The parent whose type names a text node: the parent element, or its
    own parent when the parent is a wrapper without a type. [None] is the
    [TypeError] of reading a property of [null]. *)
Definition typedParent (node : Node) : option Node :=
  parent ← parentElement node;
  match dataset parent !! "type" with
  | Some t => if String.eqb t "" then parentElement parent else Some parent
  | None => parentElement parent
  end.

Definition resolveText (node : Node) : option (list VoxKey) :=
  parent0 ← parentElement node;
  let text := clean RAG (textContent node) in
  if String.eqb text "." then Some [Silence 0.65]
  else
    let set := if JS.startsWith "." text then [Silence 0.65] else [] in
    if negb (JS.matchAlnum text) then Some set
    else
      parent ← typedParent node;
      let type := dataset parent !! "type" in
      let ref  := dataset parent !! "ref" in
      let id   := JS.template type +:+ "." +:+ JS.template ref in
      let id   := if decide (type = Some "phraseset")
                  then id +:+ "." +:+ JS.template (dataset parent !! "idx")
                  else id in
      let id   := id +:+ "." +:+ pretty (nodeIndex node) in
      Some (set ++ [Segment id]
                ++ (if JS.endsWith "." text then [Silence 0.65] else [])).

Definition resolveCoach (element : Node) (idx : nat) : list VoxKey :=
  let ctx     := data element "context" in
  let coach   := getCoach (state RAG) ctx in
  let inflect := getInflection idx in
  [Silence 0.2; Segment ("letter." +:+ coach +:+ "." +:+ inflect)]
    ++ (if String.eqb inflect "mid" then [Silence 0.2] else []).

Definition resolveExcuse (idx : nat) : list VoxKey :=
  let key     := filename RAG (excuse (state RAG)) in
  let inflect := getInflection idx in
  [Silence 0.15; Segment ("excuse." +:+ key +:+ "." +:+ inflect)]
    ++ (if String.eqb inflect "mid" then [Silence 0.2] else []).

(** A [string | undefined] value read as a condition. *)
Definition nonEmpty (v : option string) : bool :=
  match v with
  | Some s => negb (String.eqb s "")
  | None => false
  end.

Definition resolveInteger (element : Node) : list VoxKey :=
  let ctx      := data element "context" in
  let singular := dataset element !! "singular" in
  let plural   := dataset element !! "plural" in
  let integer  := getInteger (state RAG) ctx in
  let parts    := [Silence 0.125;
                   Segment ("number." +:+ pretty integer +:+ ".mid")] in
  if nonEmpty singular && (integer =? 1)%Z then
    parts ++ [Silence 0.15;
              Segment ("number.suffix." +:+ JS.template singular +:+ ".end")]
  else if nonEmpty plural && negb (integer =? 1)%Z then
    parts ++ [Silence 0.15;
              Segment ("number.suffix." +:+ JS.template plural +:+ ".end")]
  else parts ++ [Silence 0.15].

Definition resolveNamed : list VoxKey :=
  let named := filename RAG (named (state RAG)) in
  [Silence 0.2; Segment ("named." +:+ named +:+ ".mid"); Silence 0.2].

Definition resolvePlatform (idx : nat) : list VoxKey :=
  let platform := platform (state RAG) in
  let inflect  := getInflection idx in
  let letter   := if String.eqb (snd platform) "??" then "M"
                  else snd platform in
  [Silence 0.15;
   Segment ("number." +:+ fst platform +:+ letter +:+ "." +:+ inflect)]
    ++ (if String.eqb inflect "mid" then [Silence 0.2] else []).

(** [resolved] is [this.resolved] at the time of the call: the keys of
    the nodes resolved so far. *)
Definition resolveService (resolved : list VoxKey) (element : Node)
  : list VoxKey :=
  let ctx     := data element "context" in
  let service := filename RAG (getService (state RAG) ctx) in
  let result  := if negb (isNumber (last resolved)) then [Silence 0.15]
                 else [] in
  result ++ [Segment ("service." +:+ service +:+ ".mid"); Silence 0.15].

Definition resolveStation (element : Node) (idx : nat) : list VoxKey :=
  let ctx     := data element "context" in
  let station := getStation (state RAG) ctx in
  let voxKey  := getStationVox RAG station in
  let inflect := getInflection idx in
  [Silence 0.2; Segment ("station." +:+ voxKey +:+ "." +:+ inflect)]
    ++ (if String.eqb inflect "mid" then [Silence 0.2] else []).

(** One call of the callback of [list.forEach] in [resolveStationList]:
    the keys it pushes onto [parts] for the entry [code] at index [k]. *)
Definition stationListEntry (ctx inflect : string) (len : nat)
    (k : nat) (code : string) : list VoxKey :=
  let voxKey := getStationVox RAG code in
  if negb (k =? len - 1)%nat then
    [Segment ("station." +:+ voxKey +:+ ".mid"); Silence 0.25]
  else
    (if (1 <? len)%nat then [Segment "station.parts.and.mid"; Silence 0.25]
     else [])
    ++ (if (len =? 1)%nat && String.eqb ctx "calling" then
          [Segment ("station." +:+ voxKey +:+ ".mid");
           Silence 0.2; Segment "station.parts.only.end"]
        else [Segment ("station." +:+ voxKey +:+ "." +:+ inflect)]).

(** [list.forEach((code, k) => ...)] from index [k] on, over the rest of
    the list. *)
Fixpoint stationListLoop (ctx inflect : string) (len : nat)
    (k : nat) (rest : list string) (parts : list VoxKey) : list VoxKey :=
  match rest with
  | [] => parts
  | code :: rest' =>
      stationListLoop ctx inflect len (S k) rest'
        (parts ++ stationListEntry ctx inflect len k code)
  end.

Definition resolveStationList (element : Node) (idx : nat)
  : list VoxKey :=
  let ctx     := data element "context" in
  let list    := getStationList (state RAG) ctx in
  let inflect := getInflection idx in
  let parts   := stationListLoop ctx inflect (length list) 0 list
                   [Silence 0.2] in
  parts ++ [Silence 0.2].

Definition resolveTime (element : Node) : list VoxKey :=
  let ctx   := data element "context" in
  let time  := JS.split ":" (getTime (state RAG) ctx) in
  let parts := [Silence 0.2] in
  if decide (time !! 0%nat = Some "00" /\ time !! 1%nat = Some "00") then
    parts ++ [Segment "number.0000.mid"; Silence 0.2]
  else
    let parts :=
      parts ++ [Segment ("number." +:+ JS.template (time !! 0%nat)
                         +:+ ".begin")] in
    let parts :=
      if decide (time !! 1%nat = Some "00") then
        parts ++ [Silence 0.075; Segment "number.hundred.mid"]
      else
        parts ++ [Silence 0.2;
                  Segment ("number." +:+ JS.template (time !! 1%nat)
                           +:+ ".mid")] in
    parts ++ [Silence 0.15].

(** The key is [element.dataset['key']!], pushed as it is. *)
Definition resolveVox (element : Node) : list VoxKey :=
  let text := JS.trim (innerText element) in
  (if JS.startsWith "." text then [Silence 0.65] else [])
    ++ [Segment (data element "key")]
    ++ (if JS.endsWith "." text then [Silence 0.65] else []).

(** [resolve(node, idx)]; [None] is the [TypeError] of a text node
    without a parent element. *)
Definition resolve (resolved : list VoxKey) (node : Node) (idx : nat)
  : option (list VoxKey) :=
  match nodeType node with
  | TEXT_NODE => resolveText node
  | ELEMENT_NODE =>
      let element := node in
      match dataset element !! "type" with
      | Some "coach"       => Some (resolveCoach element idx)
      | Some "excuse"      => Some (resolveExcuse idx)
      | Some "integer"     => Some (resolveInteger element)
      | Some "named"       => Some resolveNamed
      | Some "platform"    => Some (resolvePlatform idx)
      | Some "service"     => Some (resolveService resolved element)
      | Some "station"     => Some (resolveStation element idx)
      | Some "stationlist" => Some (resolveStationList element idx)
      | Some "time"        => Some (resolveTime element)
      | Some "vox"         => Some (resolveVox element)
      | _                  => Some []
      end
  end.

(** [this.flattened.forEach((v, i) => this.resolved.push(...this.resolve(v, i)))]
    from index [i] on: [resolve] runs before its keys are pushed, so it
    sees the keys of the nodes before [v]. *)
Fixpoint resolveFrom (i : nat) (rest : list Node) (resolved : list VoxKey)
  : option (list VoxKey) :=
  match rest with
  | [] => Some resolved
  | v :: rest' =>
      keys ← resolve resolved v i;
      resolveFrom (S i) rest' (resolved ++ keys)
  end.

End Resolve.

(** [toVox()], from the nodes the tree walker yields in document order:
    those whose trimmed text is empty are dropped, the others are
    flattened and resolved in turn. *)
Definition toVox (RAG : Globals) (walk : list Node)
  : option (list VoxKey) :=
  let flattened :=
    filter (fun n => JS.trim (textContent n) <> "") walk in
  resolveFrom RAG flattened 0 flattened [].

End Resolver.

(** ** The vox engine *)

Module VoxEngine.

(** Decoded audio data, as its samples. *)
Definition AudioBuffer : Type := list Z.

(** Modelled from the spec: the class [VoxRequest] (the design document's
    VoxAsset), whose source is not part of this development's sources. It
    is constructed with a path and starts its fetch at once; when the fetch
    and decode settle it sets its completion flag, with a buffer on
    success and none on failure; [cancel()] before completion prevents any
    later delivery, and after completion does nothing. *)
Record VoxRequest : Type := mkRequest {
  path      : string;
  isDone    : bool;
  buffer    : option AudioBuffer;
  cancelled : bool
}.

Definition newRequest (p : string) : VoxRequest :=
  mkRequest p false None false.

Definition cancel (r : VoxRequest) : VoxRequest :=
  if isDone r then r else mkRequest (path r) false None true.

(** The fetch and decode of the request settle, with a buffer or none. *)
Definition settle (result : option AudioBuffer) (r : VoxRequest)
  : VoxRequest :=
  if isDone r || cancelled r then r
  else mkRequest (path r) true result false.

(** The voice, of which the engine reads the base URI only. *)
Record Voice : Type := mkVoice { voiceURI : string }.

(** Modelled from the spec: the playback settings (volume, pitch and rate
    equivalents), which the engine stores and never reads. *)
Record SpeechSettings : Type := mkSettings { volume : Q; pitch : Q; rate : Q }.

(** An [AudioBufferSourceNode] made by [playNext]. [source] is a ghost
    field: the request whose buffer the node plays. [onended] tells whether
    the completion callback of [playNext] is attached, [ended] whether the
    node's ended event has been dispatched. *)
Record BufferNode : Type := mkBufferNode {
  nodeBuffer : AudioBuffer;
  source     : nat;
  connected  : bool;
  started    : bool;
  stopped    : bool;
  onended    : bool;
  ended      : bool
}.

(** The fields of the engine; requests and nodes are named by their index
    in the stores of the world. [speak] declares its ids as [string[]]; the
    annotation is erased at run time and the key sequence of the resolver
    holds numbers too, so the ids are vox keys here. *)
Record Engine : Type := mkEngine {
  isSpeaking      : bool;
  pumpTimer       : nat;
  pendingReqs     : list nat;
  currentIds      : option (list VoxKey);
  currentVoice    : option Voice;
  currentSettings : option SpeechSettings;
  currentBufNode  : option nat
}.

(** The engine and what it shares with the event loop: every request and
    buffer node made so far, in order of creation, and the armed timeouts. *)
Record World : Type := mkWorld {
  engine   : Engine;
  requests : list VoxRequest;
  nodes    : list BufferNode;
  timers   : list nat;
  timerSeq : nat
}.

(** The engine after its constructor. The reverb that the constructor
    loads touches [audioReverb] only, which no method reads. *)
Definition newEngine : Engine := mkEngine false 0 [] None None None None.

Definition init : World := mkWorld newEngine [] [] [] 0.

Definition setEngine (e : Engine) (w : World) : World :=
  mkWorld e (requests w) (nodes w) (timers w) (timerSeq w).

Definition setPendingReqs (q : list nat) (e : Engine) : Engine :=
  mkEngine (isSpeaking e) (pumpTimer e) q (currentIds e) (currentVoice e)
    (currentSettings e) (currentBufNode e).

Definition setCurrentIds (ids : option (list VoxKey)) (e : Engine) : Engine :=
  mkEngine (isSpeaking e) (pumpTimer e) (pendingReqs e) ids (currentVoice e)
    (currentSettings e) (currentBufNode e).

Definition setCurrentBufNode (n : option nat) (e : Engine) : Engine :=
  mkEngine (isSpeaking e) (pumpTimer e) (pendingReqs e) (currentIds e)
    (currentVoice e) (currentSettings e) n.

Definition setPumpTimer (t : nat) (e : Engine) : Engine :=
  mkEngine (isSpeaking e) t (pendingReqs e) (currentIds e) (currentVoice e)
    (currentSettings e) (currentBufNode e).

(** [clearTimeout(t)] *)
Definition clearTimeout (t : nat) (w : World) : World :=
  mkWorld (engine w) (requests w) (nodes w)
    (filter (fun t' => t' <> t) (timers w)) (timerSeq w).

(** [this.pumpTimer = setTimeout(this.pump.bind(this), 1000)]: a timeout
    with a fresh positive id is armed. *)
Definition armPumpTimer (w : World) : World :=
  let t := S (timerSeq w) in
  mkWorld (setPumpTimer t (engine w)) (requests w) (nodes w)
    (t :: timers w) t.

(** [reqs.forEach( r => r.cancel() )] *)
Definition cancelAll (reqs : list nat) (store : list VoxRequest)
  : list VoxRequest :=
  foldl (fun st r => alter cancel r st) store reqs.

(** [node.stop(); node.disconnect(); node.onended = null] *)
Definition killNode (n : BufferNode) : BufferNode :=
  mkBufferNode (nodeBuffer n) (source n) false (started n) true false
    (ended n).

(** [stop()] *)
Definition stop (w : World) : World :=
  let w := clearTimeout (pumpTimer (engine w)) w in
  let e := engine w in
  mkWorld
    (mkEngine false (pumpTimer e) [] None None None None)
    (cancelAll (pendingReqs e) (requests w))
    (match currentBufNode e with
     | Some n => alter killNode n (nodes w)
     | None => nodes w
     end)
    (timers w) (timerSeq w).

(** The tail of [playNext] once a request with a buffer is dequeued: a
    node is created for the buffer, connected to the filter, started, and
    given the completion callback. *)
Definition startNode (r : nat) (b : AudioBuffer) (w : World) : World :=
  mkWorld (setCurrentBufNode (Some (length (nodes w))) (engine w))
    (requests w)
    (nodes w ++ [mkBufferNode b r true true false true false])
    (timers w) (timerSeq w).

(** [playNext()], by recursion on [this.pendingReqs]: [pending] is the
    queue at the time of the call. The guard returns when the queue is
    empty, its head is not complete or a node is playing; otherwise the
    head is shifted off, and skipped by a recursive call when it has no
    buffer. (An index outside the store names no request; no such index is
    ever queued.) *)
Fixpoint playNextFrom (pending : list nat) (w : World) : World :=
  match pending with
  | [] => w
  | r :: rest =>
      match requests w !! r with
      | None => w
      | Some req =>
          if negb (isDone req)
             || bool_decide (is_Some (currentBufNode (engine w)))
          then w
          else
            let w := setEngine (setPendingReqs rest (engine w)) w in
            match buffer req with
            | None => playNextFrom rest w
            | Some b => startNode r b w
            end
      end
  end.

Definition playNext (w : World) : World :=
  playNextFrom (pendingReqs (engine w)) w.

(** The path of the request for a key: [`${voiceURI}/${id}.mp3`] *)
Definition pathOf (voice : Voice) (id : VoxKey) : string :=
  voiceURI voice +:+ "/" +:+ keyToString id +:+ ".mp3".

(** [this.pendingReqs.push( new VoxRequest(path) )] *)
Definition pushRequest (p : string) (w : World) : World :=
  mkWorld
    (setPendingReqs (pendingReqs (engine w) ++ [length (requests w)])
       (engine w))
    (requests w ++ [newRequest p]) (nodes w) (timers w) (timerSeq w).

(** The refill loop of [pump], by recursion on [this.currentIds]: [ids] is
    the array at the time of the test. *)
Fixpoint refill (voice : Voice) (ids : list VoxKey) (w : World) : World :=
  match ids with
  | [] => w
  | id :: rest =>
      if truthy (Some id) && (length (pendingReqs (engine w)) <? 10)%nat
      then
        let w := setEngine (setCurrentIds (Some rest) (engine w)) w in
        refill voice rest (pushRequest (pathOf voice id) w)
      else w
  end.

(** [pump()]: nothing when the engine has stopped; otherwise [playNext],
    the refill loop, and then either [stop], when no id is left and no
    node is playing, or a new timeout. *)
Definition pump (w : World) : World :=
  let e := engine w in
  match currentIds e, currentVoice e with
  | Some _, Some voice =>
      if negb (isSpeaking e) then w
      else
        let w := playNext w in
        let w := refill voice (default [] (currentIds (engine w))) w in
        if (length (default [] (currentIds (engine w))) <=? 0)%nat
           && negb (bool_decide (is_Some (currentBufNode (engine w))))
        then stop w
        else armPumpTimer w
  | _, _ => w
  end.

(** [speak(ids, voice, settings)] *)
Definition speak (ids : list VoxKey) (voice : Voice)
    (settings : SpeechSettings) (w : World) : World :=
  let w := if isSpeaking (engine w) then stop w else w in
  let e := engine w in
  let w := setEngine
             (mkEngine true (pumpTimer e) (pendingReqs e) (Some ids)
                (Some voice) (Some settings) (currentBufNode e)) w in
  pump w.

(** The completion callback that [playNext] attaches to its node. *)
Definition onendedCallback (w : World) : World :=
  if negb (isSpeaking (engine w)) then w
  else playNext (setEngine (setCurrentBufNode None (engine w)) w).

Definition markEnded (n : BufferNode) : BufferNode :=
  mkBufferNode (nodeBuffer n) (source n) (connected n) (started n)
    (stopped n) (onended n) true.

(** What the event loop may run between two calls of the engine: the
    callback of an armed timeout, the settling of a request, with a buffer
    or none, and the ended event of a node. *)
Inductive EnvEvent : Type :=
| TimerFires (t : nat)
| FetchSettles (r : nat) (result : option AudioBuffer)
| NodeEnds (n : nat).

Inductive Event : Type :=
| CallSpeak (ids : list VoxKey) (voice : Voice) (settings : SpeechSettings)
| CallStop
| Env (ev : EnvEvent).

(** One event of the event loop. A timeout fires once, when it is armed;
    a node ends once, after it was started, and runs its callback when one
    is attached. *)
Definition envStep (ev : EnvEvent) (w : World) : World :=
  match ev with
  | TimerFires t =>
      if bool_decide (t ∈ timers w) then pump (clearTimeout t w) else w
  | FetchSettles r result =>
      mkWorld (engine w) (alter (settle result) r (requests w)) (nodes w)
        (timers w) (timerSeq w)
  | NodeEnds n =>
      match nodes w !! n with
      | Some nd =>
          if started nd && negb (ended nd) then
            let w := mkWorld (engine w) (requests w)
                       (alter markEnded n (nodes w)) (timers w)
                       (timerSeq w) in
            if onended nd then onendedCallback w else w
          else w
      | None => w
      end
  end.

Definition step (ev : Event) (w : World) : World :=
  match ev with
  | CallSpeak ids voice settings => speak ids voice settings w
  | CallStop => stop w
  | Env ev => envStep ev w
  end.

(** The world after a sequence of events, the first event first. *)
Definition run (evs : list Event) (w : World) : World :=
  foldl (fun w ev => step ev w) w evs.

Definition runEnv (evs : list EnvEvent) (w : World) : World :=
  foldl (fun w ev => envStep ev w) w evs.

(** The paths of the requests made since the store held [base] requests. *)
Definition fetched (base : nat) (w : World) : list string :=
  path <$> drop base (requests w).

(** The requests played since the store held [base] nodes, in the order in
    which their nodes were started. *)
Definition played (base : nat) (w : World) : list nat :=
  source <$> drop base (nodes w).

End VoxEngine.

(** * Specifications, invariants and sample inputs *)

Module ResolverSpec.
Import Resolver.

(** The station list of the design document, in its words: a lead silence;
    for each member except the last, the station at mid inflection and a
    pause of 0.25s; for the last member, the connector "and" and a pause of
    0.25s before the station at the inflection of the sentence when the
    list has more than one member, the station alone when it has one, and
    for a list of one member in the "calling" context the station at mid
    inflection followed after 0.2s by the segment "only"; a trailing
    silence. *)
Definition stationListSpec (vox : string -> string) (ctx inflect : string)
    (codes : list string) : list VoxKey :=
  [Silence 0.2]
  ++ mjoin ((fun code => [Segment ("station." +:+ vox code +:+ ".mid");
                          Silence 0.25]) <$> removelast codes)
  ++ match last codes with
     | None => []
     | Some code =>
         if (1 <? length codes)%nat then
           [Segment "station.parts.and.mid"; Silence 0.25;
            Segment ("station." +:+ vox code +:+ "." +:+ inflect)]
         else if String.eqb ctx "calling" then
           [Segment ("station." +:+ vox code +:+ ".mid"); Silence 0.2;
            Segment "station.parts.only.end"]
         else [Segment ("station." +:+ vox code +:+ "." +:+ inflect)]
     end
  ++ [Silence 0.2].

(** A concrete state for the examples: the calling list has one station,
    every other list three; it is 14:00 in context "now" and midnight
    elsewhere. *)
Definition sampleState : State :=
  mkState (fun _ => "A") "a signalling fault" (fun _ => 3%Z)
    "The Flying Scotsman" ("4", "") (fun _ => "Thameslink")
    (fun _ => "KGX")
    (fun ctx => if String.eqb ctx "calling" then ["KGX"]
                else ["KGX"; "SVG"; "PBO"])
    (fun ctx => if String.eqb ctx "now" then "14:00" else "00:00").

Definition sampleGlobals : Globals :=
  mkGlobals sampleState (fun code => code) (fun s => s) (fun s => s).

Definition sampleElement (type ctx : string) : Node :=
  mkNode ELEMENT_NODE (<["type" := type]> (<["context" := ctx]> ∅))
    "" "" None 0.

End ResolverSpec.

Module VoxEngineSpec.
Import VoxEngine.

(** The engine at rest: the state [stop] leaves, up to the timer id. *)
Definition idle (t : nat) : Engine := mkEngine false t [] None None None None.

(** Request [r] of the store is complete without a buffer. *)
Definition failed (w : World) (r : nat) : Prop :=
  exists req, requests w !! r = Some req
              /\ isDone req = true /\ buffer req = None.

(** Request [r] of the store is complete with buffer [b]. *)
Definition ready (w : World) (r : nat) (b : AudioBuffer) : Prop :=
  exists req, requests w !! r = Some req
              /\ isDone req = true /\ buffer req = Some b.

Definition hasBuffer (w : World) (r : nat) : bool :=
  match requests w !! r with
  | Some req => bool_decide (is_Some (buffer req))
  | None => false
  end.

(** The world [m] iterations of the refill loop lead to. *)
Definition refilled (voice : Voice) (ids : list VoxKey) (m : nat)
    (w : World) : World :=
  let e := engine w in
  mkWorld
    (mkEngine (isSpeaking e) (pumpTimer e)
       (pendingReqs e ++ seq (length (requests w)) m)
       (match m with O => currentIds e | S _ => Some (drop m ids) end)
       (currentVoice e) (currentSettings e) (currentBufNode e))
    (requests w ++ ((fun id => newRequest (pathOf voice id)) <$> take m ids))
    (nodes w) (timers w) (timerSeq w).

(** The world [pump] tests for its decision to stop or to re-arm: after
    [playNext] and the refill loop. *)
Definition afterRefill (voice : Voice) (w : World) : World :=
  let w := playNext w in
  refill voice (default [] (currentIds (engine w))) w.

(** What holds of every world the engine reaches. *)
Record Inv (w : World) : Prop := mkInv {
  inv_window  : length (pendingReqs (engine w)) <= 10;
  inv_timers  : timers w = [] \/ timers w = [pumpTimer (engine w)];
  inv_idle    : isSpeaking (engine w) = false ->
                engine w = idle (pumpTimer (engine w)) /\ timers w = [];
  inv_reqs    : Forall (fun r => r < length (requests w))
                  (pendingReqs (engine w));
  inv_node    : forall n, currentBufNode (engine w) = Some n ->
                          n < length (nodes w);
  inv_handler : forall n nd, nodes w !! n = Some nd ->
                  onended nd = true -> ended nd = false ->
                  currentBufNode (engine w) = Some n
}.

(** What holds while and after the sequence [ids] is spoken with [voice],
    from a world that held [base] requests and [nbase] nodes: [n] ids have
    been turned into requests, in order; [k] of these requests have left
    the queue, which holds the others in order; what was played was taken
    from those [k], in increasing order, and every node plays the buffer of
    a complete request. *)
Definition Session (base nbase : nat) (ids : list VoxKey) (voice : Voice)
    (w : World) : Prop :=
  exists n k,
    k <= n /\ n <= length ids
    /\ length (requests w) = base + n
    /\ fetched base w = pathOf voice <$> take n ids
    /\ (isSpeaking (engine w) = true ->
        currentIds (engine w) = Some (drop n ids)
        /\ currentVoice (engine w) = Some voice
        /\ pendingReqs (engine w) = seq (base + k) (n - k))
    /\ StronglySorted lt (played nbase w)
    /\ Forall (fun r => base <= r < base + k) (played nbase w)
    /\ Forall (fun nd => ready w (source nd) (nodeBuffer nd))
         (drop nbase (nodes w))
    /\ nbase <= length (nodes w).

(** The requests that are complete stay as they are. *)
Definition keepsDone (store store' : list VoxRequest) : Prop :=
  forall r req, store !! r = Some req -> isDone req = true ->
                store' !! r = Some req.

(** The world in which [speak] starts the pump. *)
Definition speaking (ids : list VoxKey) (voice : Voice)
    (settings : SpeechSettings) (w : World) : World :=
  let w := if isSpeaking (engine w) then stop w else w in
  let e := engine w in
  setEngine
    (mkEngine true (pumpTimer e) (pendingReqs e) (Some ids) (Some voice)
       (Some settings) (currentBufNode e)) w.

Definition isSegment (k : VoxKey) : bool :=
  match k with
  | Segment _ => true
  | Silence _ => false
  end.

Definition sampleVoice : Voice := mkVoice "voices/en-GB".

Definition sampleSettings : SpeechSettings := mkSettings 1 1 1.

(** Twelve ids: two more than the window holds. *)
Definition sampleIds : list VoxKey :=
  Segment <$> ["s01"; "s02"; "s03"; "s04"; "s05"; "s06";
               "s07"; "s08"; "s09"; "s10"; "s11"; "s12"].

Definition sampleBuffer : AudioBuffer := [0; 12; -7]%Z.

(** The engine after [speak] on the twelve ids: ten requests pending, two
    ids left, the pump timer armed. *)
Definition sampleSpeaking : World :=
  speak sampleIds sampleVoice sampleSettings init.

(** The first request has failed and the second is ready, out of order. *)
Definition sampleFailedHead : World :=
  runEnv [FetchSettles 1 (Some sampleBuffer); FetchSettles 0 None]
    sampleSpeaking.

(** The first request is ready and the second has failed; the pump has
    started the first and issued the eleventh request, and the node has
    ended: one id is left, nine requests are pending and nothing is
    playing. *)
Definition sampleDraining : World :=
  runEnv [FetchSettles 0 (Some sampleBuffer); FetchSettles 1 None;
          TimerFires 1; NodeEnds 0]
    sampleSpeaking.

(** The third request settles before the first and the second; then the
    pump ticks and the first two nodes end. *)
Definition sampleOutOfOrder : list EnvEvent :=
  [FetchSettles 2 (Some [3]%Z); FetchSettles 0 (Some [1]%Z);
   FetchSettles 1 (Some [2]%Z); TimerFires 1; NodeEnds 0; NodeEnds 1].

(** The events up to the middle of the playback of the first request. *)
Definition sampleMidPlayback : list Event :=
  [CallSpeak sampleIds sampleVoice sampleSettings;
   Env (FetchSettles 0 (Some sampleBuffer)); Env (TimerFires 1)].

(** A world is the record of its fields, and so is its engine. *)
Ltac world_eta w := destruct w as [[] ? ? ? ?]; simpl in *; subst.

(** The loop that ran no iteration leaves the world as it is. *)
Ltac refilled_none w :=
  unfold refilled; world_eta w; by rewrite !app_nil_r.

End VoxEngineSpec.

(** * Further definitions for the vox engine *)

Module VoxEngineMore.
Import VoxEngine VoxEngineSpec.

(** A node that sounds: started, and neither stopped nor ended. *)
Definition isPlaying (nd : BufferNode) : bool :=
  started nd && negb (stopped nd) && negb (ended nd).

(** Every node was started, and carries its completion callback for as
    long as it is not stopped. *)
Definition nodeOk (nd : BufferNode) : Prop :=
  started nd = true /\ (stopped nd = false -> onended nd = true).

(** The node that [playNext] makes for request [r] and buffer [b]. *)
Definition freshNode (r : nat) (b : AudioBuffer) : BufferNode :=
  mkBufferNode b r true true false true false.

(** A request that will never deliver a buffer it has not yet. *)
Definition settled (req : VoxRequest) : Prop :=
  isDone req = true \/ cancelled req = true.

(** While the engine speaks it holds its ids and its voice, and exactly its
    own pump timeout is armed. *)
Definition Ticking (w : World) : Prop :=
  isSpeaking (engine w) = true ->
  is_Some (currentIds (engine w)) /\ is_Some (currentVoice (engine w))
  /\ timers w = [pumpTimer (engine w)].

(** The engine is stuck on the id [id]: it speaks, and [id] is the head of
    the ids it holds. *)
Definition StuckOn (id : VoxKey) (rest : list VoxKey) (voice : Voice)
    (w : World) : Prop :=
  isSpeaking (engine w) = true
  /\ currentIds (engine w) = Some (id :: rest)
  /\ currentVoice (engine w) = Some voice.

(** The three facts about nodes that hold together in every world the
    engine reaches. *)
Record NodeInv (w : World) : Prop := mkNodeInv {
  ni_inv  : Inv w;
  ni_ok   : Forall nodeOk (nodes w);
  ni_slot : forall n, currentBufNode (engine w) = Some n ->
              exists nd, nodes w !! n = Some nd /\ isPlaying nd = true
}.

(** Three ids, the second of which is the empty string. *)
Definition sampleBlocked : World :=
  speak [Segment "s01"; Segment ""; Segment "s03"] sampleVoice sampleSettings
    init.

(** The events after which the first request of the twelve is playing and
    the second is ready. *)
Definition sampleNextReady : list Event :=
  [CallSpeak sampleIds sampleVoice sampleSettings;
   Env (FetchSettles 0 (Some [1]%Z)); Env (FetchSettles 1 (Some [2]%Z));
   Env (TimerFires 1)].

(** What holds of the whole history of the engine, across [stop] and
    [speak]: the queue holds the requests of the store from some index [a]
    on; what was played lies below [a], in increasing order; every node
    plays the buffer of a complete request. *)
Definition History (w : World) : Prop :=
  exists a,
    a <= length (requests w)
    /\ pendingReqs (engine w) = seq a (length (requests w) - a)
    /\ Forall (fun r => r < a) (played 0 w)
    /\ StronglySorted lt (played 0 w)
    /\ Forall (fun nd => ready w (source nd) (nodeBuffer nd)) (nodes w).

(** Two sequences spoken one after the other, with the first one stopped
    by the second while its first request plays. *)
Definition sampleTwoSessions : list Event :=
  [CallSpeak sampleIds sampleVoice sampleSettings;
   Env (FetchSettles 0 (Some [1]%Z)); Env (FetchSettles 1 (Some [2]%Z));
   Env (TimerFires 1);
   CallSpeak sampleIds sampleVoice sampleSettings;
   Env (FetchSettles 1 (Some [9]%Z));
   Env (FetchSettles 11 (Some [3]%Z)); Env (FetchSettles 12 (Some [4]%Z));
   Env (NodeEnds 0);
   Env (TimerFires 3); Env (NodeEnds 1)].

End VoxEngineMore.

(** * Further definitions for the resolver *)

Module ResolverMore.
Import Resolver ResolverSpec.


Section Filter.
(** [element.hasAttribute(name)]: the attributes other than the data
    attributes are not among the fields of [Node]. *)
Variable hasAttribute : Node -> string -> bool.


End Filter.

(** The keys of an element, by its type: the [switch] of [resolve] as a
    chain of comparisons. *)
Definition resolveElement (RAG : Globals) (flattened : list Node)
    (resolved : list VoxKey) (element : Node) (idx : nat) (type : string)
  : list VoxKey :=
  if String.eqb type "coach" then resolveCoach RAG flattened element idx
  else if String.eqb type "excuse" then resolveExcuse RAG flattened idx
  else if String.eqb type "integer" then resolveInteger RAG element
  else if String.eqb type "named" then resolveNamed RAG
  else if String.eqb type "platform" then resolvePlatform RAG flattened idx
  else if String.eqb type "service" then resolveService RAG resolved element
  else if String.eqb type "station"
  then resolveStation RAG flattened element idx
  else if String.eqb type "stationlist"
  then resolveStationList RAG flattened element idx
  else if String.eqb type "time" then resolveTime RAG element
  else if String.eqb type "vox" then resolveVox element
  else [].

(** The string holds no colon. *)
Fixpoint noColon (s : string) : bool :=
  match s with
  | EmptyString => true
  | String c rest => negb (Ascii.eqb c ":") && noColon rest
  end.

(** A vox element that has its key. *)
Definition keyed (n : Node) : Prop :=
  nodeType n = ELEMENT_NODE -> dataset n !! "type" = Some "vox" ->
  nonEmpty (dataset n !! "key") = true.

(** A phrase of the examples: the phrase element, a text of the phrase, a
    station element of the phrase and a vox element. *)
Definition samplePhrase : Node :=
  mkNode ELEMENT_NODE (<["type" := "phrase"]> (<["ref" := "intro"]> ∅))
    "" "" None 0.

Definition sampleText (text : string) (index : nat) : Node :=
  mkNode TEXT_NODE ∅ text text (Some samplePhrase) index.

Definition sampleChild (type ctx : string) : Node :=
  mkNode ELEMENT_NODE (<["type" := type]> (<["context" := ctx]> ∅))
    "Kings Cross" "Kings Cross" (Some samplePhrase) 0.

Definition sampleVox (key : string) : Node :=
  mkNode ELEMENT_NODE (<["type" := "vox"]> (<["key" := key]> ∅))
    "Mind the gap" "Mind the gap" (Some samplePhrase) 0.

Definition sampleWalk : list Node :=
  [sampleText "The next station is" 0; sampleChild "station" "next";
   sampleText "." 2; sampleVox "phrase.outro.0"].

(** The globals of the examples with the clock at [time] in every
    context. *)
Definition sampleClock (time : string) : Globals :=
  mkGlobals
    (mkState (fun _ => "A") "a signalling fault" (fun _ => 3%Z)
       "The Flying Scotsman" ("4", "") (fun _ => "Thameslink")
       (fun _ => "KGX") (fun _ => ["KGX"]) (fun _ => time))
    (fun code => code) (fun s => s) (fun s => s).

(** A text node of white space only. *)
Definition sampleBlank : Node :=
  mkNode TEXT_NODE ∅ "  " "  " (Some samplePhrase) 1.

(** Every key of a list written out is truthy. *)
Ltac truthy_keys :=
  repeat first [ apply Forall_nil_2
               | apply Forall_cons; split; [reflexivity|]
               | apply Forall_app; split ].

End ResolverMore.

(** * The state of the generator and its random picks *)

Module Rag.

(** [Math.random()]: the numbers it returns, one after the other, and how
    many of them were drawn so far. Products of these numbers with
    integers are taken exactly. *)
Record Rng : Type := mkRng { samples : nat -> Q; drawn : nat }.

Definition Math_random (g : Rng) : Q * Rng :=
  (samples g (drawn g), mkRng (samples g) (S (drawn g))).

(** What a call comes to: it returns, it throws an [Error], or it runs for
    ever. *)
Inductive Outcome (A : Type) : Type :=
| Returns (a : A)
| Throws (message : string)
| Diverges.

Arguments Returns {A} a.
Arguments Throws {A} message.
Arguments Diverges {A}.

(** A station code read from an array: [None] is [undefined]. *)
Definition Code : Type := option string.

(** [Phraser.LETTERS] *)
Definition LETTERS : string := "ABCDEFGHIJKLMNOPQRSTUVWXYZ".

(** The characters of a string, as [str[i]] and [str.split('')] give
    them. *)
Definition chars (s : string) : list string :=
  (fun c => String c "") <$> list_ascii_of_string s.

(** [obj[k] = v] on an object used as a map, as its readers see it: they
    test the entry against [undefined], so an entry set to [undefined]
    reads as no entry. The keys are contexts of the phrase data; the names
    that every object inherits ([plainKey] below) are not among them. *)
Definition assign {A : Type} (k : string) (v : option A)
    (obj : gmap string A) : gmap string A :=
  match v with
  | Some a => <[k := a]> obj
  | None => delete k obj
  end.

(** The call [k] after a call that returned; a call that threw or ran for
    ever ends the caller likewise. *)
Definition andThen {A B : Type} (o : Outcome A) (k : A -> Outcome B)
  : Outcome B :=
  match o with
  | Returns a => k a
  | Throws message => Throws message
  | Diverges => Diverges
  end.

(** [arr[i]]: [undefined] outside the array. *)
Definition at_ {A : Type} (arr : list A) (i : Z) : option A :=
  if (i <? 0)%Z then None else arr !! Z.to_nat i.

(** [arr.slice(0, end)]: a negative [end] counts from the end of the
    array. *)
Definition slice0 {A : Type} (stop : Z) (arr : list A) : list A :=
  let len := Z.of_nat (length arr) in
  take (Z.to_nat (if (stop <? 0)%Z then Z.max (len + stop) 0
                  else Z.min stop len)) arr.

(** [arr.splice(start, 1)]: the element removed, if any, and the array
    that is left; a negative [start] counts from the end of the array. *)
Definition splice1 {A : Type} (start : Z) (arr : list A)
  : option A * list A :=
  let len := Z.of_nat (length arr) in
  let actual := Z.to_nat (if (start <? 0)%Z then Z.max (len + start) 0
                          else Z.min start len) in
  (arr !! actual, delete actual arr).

(** [x | 0] on an integer: the integer of 32 bits with the same low
    bits. *)
Definition toInt32 (x : Z) : Z :=
  ((x + 2 ^ 31) mod 2 ^ 32 - 2 ^ 31)%Z.

Module Random.

(** [Random.int(min, max)] *)
Definition int (min max : Z) (g : Rng) : Z * Rng :=
  let '(r, g) := Math_random g in
  ((Qfloor (r * inject_Z (max - min)) + min)%Z, g).

(** [Random.array(arr)]: [arr[Random.int(0, arr.length)]], which is
    [undefined] outside the array. *)
Definition array {A : Type} (arr : list A) (g : Rng) : option A * Rng :=
  let '(i, g) := int 0 (Z.of_nat (length arr)) g in
  (if (i <? 0)%Z then None else arr !! Z.to_nat i, g).

(** [Random.objectKey(obj)], on [Object.keys(obj)] *)
Definition objectKey (keys : list string) (g : Rng) : Code * Rng :=
  array keys g.

(** [Random.bool(chance)] *)
Definition bool (chance : Z) (g : Rng) : Datatypes.bool * Rng :=
  let '(i, g) := int 0 100 g in ((i <? chance)%Z, g).

End Random.

Module Database.

(** The data of [Database] that the picks read; [stations] is
    [Object.keys(this.stations)]. *)
Record Database : Type := mkDatabase {
  excuses  : list string;
  named    : list string;
  services : list string;
  stations : list string
}.

(** [arr.includes(key)] *)
Definition includes (arr : list Code) (key : Code) : Datatypes.bool :=
  bool_decide (key ∈ arr).

Section Picks.
Variable this : Database.

(** [this.stationsCount] *)
Definition stationsCount : nat := length (stations this).

Definition pickExcuse (g : Rng) : option string * Rng :=
  Random.array (excuses this) g.

Definition pickNamed (g : Rng) : option string * Rng :=
  Random.array (named this) g.

Definition pickService (g : Rng) : option string * Rng :=
  Random.array (services this) g.

(** The [for] loop of [pickStationCode] with [left] rounds to go, and the
    pick after it. *)
Fixpoint pickStationCodeFrom (left : nat) (exclude : list Code) (g : Rng)
  : Code * Rng :=
  match left with
  | O => Random.objectKey (stations this) g
  | S left' =>
      let '(value, g) := Random.objectKey (stations this) g in
      if negb (includes exclude value) then (value, g)
      else pickStationCodeFrom left' exclude g
  end.

(** [pickStationCode(exclude)]; [exclude] is an array or [undefined]. *)
Definition pickStationCode (exclude : option (list Code)) (g : Rng)
  : Code * Rng :=
  match exclude with
  | Some exclude => pickStationCodeFrom stationsCount exclude g
  | None => Random.objectKey (stations this) g
  end.

(** The [while] loop of [pickStationCodes], for at most [fuel] rounds;
    [None] when the rounds are used up. *)
Fixpoint pickLoop (fuel : nat) (length : Z) (exclude : option (list Code))
    (result : list Code) (tries : nat) (g : Rng)
  : option (list Code * Rng) :=
  if (Z.of_nat (List.length result) <? length)%Z then
    match fuel with
    | O => None
    | S fuel' =>
        let '(key, g) := Random.objectKey (stations this) g in
        let result :=
          if (stationsCount <=? tries)%nat then result ++ [key]
          else match exclude with
               | Some exclude =>
                   if negb (includes exclude key)
                      && negb (includes result key)
                   then result ++ [key] else result
               | None =>
                   if negb (includes result key) then result ++ [key]
                   else result
               end in
        pickLoop fuel' length exclude result (S tries) g
    end
  else Some (result, g).

(** [pickStationCodes(min, max, exclude)]. The loop is given as many
    rounds as it can take: see [pickStationCodes_terminates]. *)
Definition pickStationCodes (min max : Z) (exclude : option (list Code))
    (g : Rng) : Outcome (list Code * Rng) :=
  if (Z.of_nat stationsCount <? max - min)%Z
  then Throws "Picking too many stations than there are available"
  else
    let '(length, g) := Random.int min max g in
    match pickLoop (stationsCount + Z.to_nat length) length exclude [] 0 g
    with
    | Some picked => Returns picked
    | None => Diverges
    end.

End Picks.

End Database.

Module State.

(** The fields of [State]. The objects are used as maps from contexts;
    [None] in a field is [undefined]. *)
Record State : Type := mkState {
  _collapsibles : gmap string Datatypes.bool;
  _coaches      : gmap string string;
  _integers     : gmap string Z;
  _phrasesets   : gmap string Z;
  _stations     : gmap string string;
  _stationLists : gmap string (list Code);
  _excuse       : option string;
  _platform     : option (string * Code);
  _named        : option string;
  _service      : option string;
  _time         : option string
}.

(** [new State()] *)
Definition new : State :=
  mkState ∅ ∅ ∅ ∅ ∅ ∅ None None None None None.

Definition setCoach (context : string) (coach : Code) (s : State) : State :=
  mkState (_collapsibles s) (assign context coach (_coaches s))
    (_integers s) (_phrasesets s) (_stations s) (_stationLists s)
    (_excuse s) (_platform s) (_named s) (_service s) (_time s).

Definition setCollapsed (ref : string) (state : Datatypes.bool) (s : State)
  : State :=
  mkState (<[ref := state]> (_collapsibles s)) (_coaches s)
    (_integers s) (_phrasesets s) (_stations s) (_stationLists s)
    (_excuse s) (_platform s) (_named s) (_service s) (_time s).

Definition setInteger (context : string) (value : Z) (s : State) : State :=
  mkState (_collapsibles s) (_coaches s)
    (<[context := value]> (_integers s)) (_phrasesets s) (_stations s)
    (_stationLists s) (_excuse s) (_platform s) (_named s) (_service s)
    (_time s).

Definition setStation (context : string) (code : Code) (s : State) : State :=
  mkState (_collapsibles s) (_coaches s) (_integers s) (_phrasesets s)
    (assign context code (_stations s)) (_stationLists s)
    (_excuse s) (_platform s) (_named s) (_service s) (_time s).

Definition setStationLists (lists : gmap string (list Code)) (s : State)
  : State :=
  mkState (_collapsibles s) (_coaches s) (_integers s) (_phrasesets s)
    (_stations s) lists
    (_excuse s) (_platform s) (_named s) (_service s) (_time s).

(** [setStationList(context, value)] *)
Definition setStationList (context : string) (value : list Code) (s : State)
  : State :=
  let lists := <[context := value]> (_stationLists s) in
  setStationLists
    (if String.eqb context "calling_first"
     then <["calling" := value]> lists else lists) s.

(** [set excuse(value)] *)
Definition set_excuse (value : option string) (s : State) : State :=
  mkState (_collapsibles s) (_coaches s) (_integers s) (_phrasesets s)
    (_stations s) (_stationLists s)
    value (_platform s) (_named s) (_service s) (_time s).

(** [set platform(value)] *)
Definition set_platform (value : option (string * Code)) (s : State)
  : State :=
  mkState (_collapsibles s) (_coaches s) (_integers s) (_phrasesets s)
    (_stations s) (_stationLists s)
    (_excuse s) value (_named s) (_service s) (_time s).

(** [set named(value)] *)
Definition set_named (value : option string) (s : State) : State :=
  mkState (_collapsibles s) (_coaches s) (_integers s) (_phrasesets s)
    (_stations s) (_stationLists s)
    (_excuse s) (_platform s) value (_service s) (_time s).

(** [set service(value)] *)
Definition set_service (value : option string) (s : State) : State :=
  mkState (_collapsibles s) (_coaches s) (_integers s) (_phrasesets s)
    (_stations s) (_stationLists s)
    (_excuse s) (_platform s) (_named s) value (_time s).

(** A string field read as a condition: [undefined] and the empty string
    are falsy. *)
Definition held (v : option string) : option string :=
  match v with
  | Some value => if String.eqb value "" then None else Some value
  | None => None
  end.

(** The bounds of [getInteger] for a context: its [switch]. *)
Definition integerBounds (context : string) : Z * Z :=
  if String.eqb context "coaches" then (1, 10)%Z
  else if String.eqb context "delayed" then (5, 120)%Z
  else if String.eqb context "front_coaches" then (2, 5)%Z
  else if String.eqb context "rear_coaches" then (2, 5)%Z
  else (0, 0)%Z.

(** The bounds of [getStationList] for a context: its [switch]. *)
Definition stationListBounds (context : string) : Z * Z :=
  if String.eqb context "calling_split" then (2, 16)%Z
  else if String.eqb context "changes" then (1, 4)%Z
  else if String.eqb context "not_stopping" then (1, 8)%Z
  else (1, 16)%Z.

(** [randSplice()] of [genDefaultState]:
    [letters.splice(Random.int(0, letters.length), 1)[0]], with the
    letters that are left. *)
Definition randSplice (letters : list string) (g : Rng)
  : Code * list string * Rng :=
  let '(start, g) := Random.int 0 (Z.of_nat (length letters)) g in
  let '(removed, letters) := splice1 start letters in
  (removed, letters, g).

Section Methods.
(** [RAG.database] *)
Variable database : Database.Database.

Definition getCoach (context : string) (s : State) (g : Rng)
  : Code * State * Rng :=
  match _coaches s !! context with
  | Some coach => (Some coach, s, g)
  | None =>
      let '(coach, g) := Random.array (chars LETTERS) g in
      (coach, setCoach context coach s, g)
  end.

Definition getCollapsed (ref : string) (chance : Z) (s : State) (g : Rng)
  : Datatypes.bool * State * Rng :=
  match _collapsibles s !! ref with
  | Some state => (state, s, g)
  | None =>
      let '(b, g) := Random.bool chance g in
      (negb b, setCollapsed ref (negb b) s, g)
  end.

Definition getInteger (context : string) (s : State) (g : Rng)
  : Z * State * Rng :=
  match _integers s !! context with
  | Some value => (value, s, g)
  | None =>
      let '(min, max) := integerBounds context in
      let '(value, g) := Random.int min max g in
      (value, setInteger context value s, g)
  end.

Definition getStation (context : string) (s : State) (g : Rng)
  : Code * State * Rng :=
  match _stations s !! context with
  | Some code => (Some code, s, g)
  | None =>
      let '(code, g) := Database.pickStationCode database None g in
      (code, setStation context code s, g)
  end.

(** [getStationList(context)] past its test for [calling_first]. *)
Definition getOwnStationList (context : string) (s : State) (g : Rng)
  : Outcome (list Code * State * Rng) :=
  match _stationLists s !! context with
  | Some list => Returns (list, s, g)
  | None =>
      let '(min, max) := stationListBounds context in
      match Database.pickStationCodes database min max None g with
      | Returns (list, g) =>
          Returns (list,
                   setStationLists (<[context := list]> (_stationLists s)) s,
                   g)
      | Throws message => Throws message
      | Diverges => Diverges
      end
  end.

(** [getStationList(context)]: the call it makes to itself for
    [calling_first] is the call for [calling]. *)
Definition getStationList (context : string) (s : State) (g : Rng)
  : Outcome (list Code * State * Rng) :=
  match _stationLists s !! context with
  | Some list => Returns (list, s, g)
  | None =>
      if String.eqb context "calling_first"
      then getOwnStationList "calling" s g
      else getOwnStationList context s g
  end.

(** [get excuse()] *)
Definition excuse (s : State) (g : Rng) : option string * State * Rng :=
  match held (_excuse s) with
  | Some value => (Some value, s, g)
  | None =>
      let '(value, g) := Database.pickExcuse database g in
      (value, set_excuse value s, g)
  end.

(** [get platform()]: an array is truthy whatever it holds. *)
Definition platform (s : State) (g : Rng)
  : (string * Code) * State * Rng :=
  match _platform s with
  | Some value => (value, s, g)
  | None =>
      let '(numbered, g) := Random.bool 98 g in
      let '(digits, g) :=
        if numbered
        then let '(n, g) := Random.int 1 26 g in (pretty n, g)
        else ("0", g) in
      let '(lettered, g) := Random.bool 10 g in
      let '(letter, g) :=
        if lettered then Random.array (chars "ABC") g
        else (Some "", g) in
      ((digits, letter), set_platform (Some (digits, letter)) s, g)
  end.

(** [get named()] *)
Definition named (s : State) (g : Rng) : option string * State * Rng :=
  match held (_named s) with
  | Some value => (Some value, s, g)
  | None =>
      let '(value, g) := Database.pickNamed database g in
      (value, set_named value s, g)
  end.

(** [get service()] *)
Definition service (s : State) (g : Rng) : option string * State * Rng :=
  match held (_service s) with
  | Some value => (Some value, s, g)
  | None =>
      let '(value, g) := Database.pickService database g in
      (value, set_service value s, g)
  end.

(** The first part of [genDefaultState()]: the station lists are picked,
    each excluding those before it, and stored. A pick that throws ends
    the call. *)
Definition genStationLists (s : State) (g : Rng)
  : Outcome (list Code * list Code * list Code * list Code * list Code
             * State * Rng) :=
  andThen (Database.pickStationCodes database 1 16 None g)
    (fun '(slCalling, g) =>
  andThen (Database.pickStationCodes database 2 16 (Some slCalling) g)
    (fun '(slCallSplit, g) =>
  let allCalling := slCalling ++ slCallSplit in
  andThen (Database.pickStationCodes database 1 4 (Some allCalling) g)
    (fun '(slChanges, g) =>
  andThen (Database.pickStationCodes database 1 8
             (Some (allCalling ++ slChanges)) g)
    (fun '(slNotStopping, g) =>
  let '(reqCount, g) :=
    Random.int 1 (Z.of_nat (length slCalling) - 1) g in
  let slRequests := slice0 reqCount slCalling in
  let s := setStationList "calling" slCalling s in
  let s := setStationList "calling_split" slCallSplit s in
  let s := setStationList "changes" slChanges s in
  let s := setStationList "not_stopping" slNotStopping s in
  let s := setStationList "request" slRequests s in
  Returns (slCalling, slCallSplit, slChanges, slNotStopping, slRequests,
           s, g))))).

(** The second part of [genDefaultState()]: the stations are picked from
    the lists and stored. *)
Definition genStations
    (slCalling slCallSplit slChanges slNotStopping slRequests : list Code)
    (s : State) (g : Rng) : State * Rng :=
  let allCalling := slCalling ++ slCallSplit in
  let '(stExcuse, g) := Database.pickStationCode database None g in
  let stDest := mjoin (at_ slCalling (Z.of_nat (length slCalling) - 1)) in
  let '(stVia, g) :=
    if (1 <? length slCalling)%nat
    then Random.array (slice0 (-1) slCalling) g
    else Random.array (slice0 (-1) slCallSplit) g in
  let '(stCalling, g) :=
    if (1 <? length slCalling)%nat
    then Random.array (slice0 (-1) slCalling) g
    else Random.array (slice0 (-1) slCallSplit) g in
  let stDestSplit :=
    mjoin (at_ slCallSplit (Z.of_nat (length slCallSplit) - 1)) in
  let '(stViaSplit, g) := Random.array (slice0 (-1) slCallSplit) g in
  let '(stSource, g) :=
    Database.pickStationCode database
      (Some (allCalling ++ slChanges ++ slNotStopping ++ slRequests
             ++ [mjoin stCalling; stDest; mjoin stVia; stDestSplit;
                 mjoin stViaSplit])) g in
  let s := setStation "calling" (mjoin stCalling) s in
  let s := setStation "destination" stDest s in
  let s := setStation "destination_split" stDestSplit s in
  let s := setStation "excuse" stExcuse s in
  let s := setStation "source" stSource s in
  let s := setStation "via" (mjoin stVia) s in
  let s := setStation "via_split" (mjoin stViaSplit) s in
  (s, g).

(** The last part of [genDefaultState()]: the coaches, and with four
    coaches or more their split into front and rear and the letters of
    four of them. *)
Definition genCoaches (s : State) (g : Rng) : State * Rng :=
  let '(intCoaches, s, g) := getInteger "coaches" s g in
  let s :=
    if (4 <=? intCoaches)%Z then
      let intFrontCoaches := toInt32 (intCoaches ÷ 2) in
      let intRearCoaches := (intCoaches - intFrontCoaches)%Z in
      setInteger "rear_coaches" intRearCoaches
        (setInteger "front_coaches" intFrontCoaches s)
    else s in
  if (4 <=? intCoaches)%Z then
    let letters := take (Z.to_nat intCoaches) (chars LETTERS) in
    let '(first, letters, g) := randSplice letters g in
    let s := setCoach "first" first s in
    let '(shop, letters, g) := randSplice letters g in
    let s := setCoach "shop" shop s in
    let '(standard1, letters, g) := randSplice letters g in
    let s := setCoach "standard1" standard1 s in
    let '(standard2, letters, g) := randSplice letters g in
    let s := setCoach "standard2" standard2 s in
    (s, g)
  else (s, g).

(** [genDefaultState()] *)
Definition genDefaultState (s : State) (g : Rng) : Outcome (State * Rng) :=
  andThen (genStationLists s g)
    (fun '(slCalling, slCallSplit, slChanges, slNotStopping, slRequests,
           s, g) =>
       let '(s, g) := genStations slCalling slCallSplit slChanges
                        slNotStopping slRequests s g in
       Returns (genCoaches s g)).

End Methods.

End State.

(** Every number that [Math.random()] returns lies in [0, 1). *)
Definition fair (g : Rng) : Prop :=
  forall i, (0 <= samples g i)%Q /\ (samples g i < 1)%Q.

(** The names that every object inherits from [Object.prototype]. *)
Definition inherited : list string :=
  ["constructor"; "hasOwnProperty"; "isPrototypeOf"; "propertyIsEnumerable";
   "toLocaleString"; "toString"; "valueOf"; "__proto__";
   "__defineGetter__"; "__defineSetter__"; "__lookupGetter__";
   "__lookupSetter__"].

(** A key on which an object used as a map behaves as a map. *)
Definition plainKey (k : string) : Prop := k ∉ inherited.

(** A code is outside the array to exclude, if one is given. *)
Definition outside (exclude : option (list Code)) (c : Code) : Prop :=
  match exclude with
  | Some exclude => c ∉ exclude
  | None => True
  end.

(** A code that is the code of a station of the database. *)
Definition known (db : Database.Database) (c : Code) : Prop :=
  exists code, c = Some code /\ code ∈ Database.stations db.

(** A source of numbers for the examples: 0, 0.1, ..., 0.9 and again. *)
Definition sampleRng : Rng :=
  mkRng (fun i => Qmake (Z.of_nat (i mod 10)) 10) 0.

Definition sampleDatabase : Database.Database :=
  Database.mkDatabase ["a signalling fault"; "leaves on the line"]
    ["The Flying Scotsman"] ["Thameslink"; "Southeastern"]
    ["KGX"; "SVG"; "PBO"; "YRK"; "EDB"].

(** What a call returned, or [d] if it did not return. *)
Definition returned {A : Type} (d : A) (o : Outcome A) : A :=
  match o with
  | Returns a => a
  | _ => d
  end.

(** A database of sixteen stations. *)
Definition sampleNetwork : Database.Database :=
  Database.mkDatabase ["a signalling fault"] ["The Flying Scotsman"]
    ["Thameslink"]
    ["KGX"; "SVG"; "PBO"; "GRA"; "NNG"; "DON"; "YRK"; "DAR"; "NCL";
     "BWK"; "EDB"; "HYM"; "STG"; "PTH"; "ABD"; "INV"].

(** The state that [genDefaultState] generates for a train of eight
    coaches. *)
Definition sampleGenerated : State.State * Rng :=
  returned (State.new, sampleRng)
    (State.genDefaultState sampleNetwork
       (State.setInteger "coaches" 8 State.new) sampleRng).

End Rag.

(** * Properties of the resolver *)

Module ResolverProps.
Import Resolver ResolverSpec.

Section Facts.
Variable RAG : Globals.

Lemma stationListLoop_spec ctx inflect len rest : forall k parts,
  k + length rest = len ->
  stationListLoop RAG ctx inflect len k rest parts
  = parts
    ++ mjoin ((fun code =>
                 [Segment ("station." +:+ getStationVox RAG code +:+ ".mid");
                  Silence 0.25]) <$> removelast rest)
    ++ match last rest with
       | None => []
       | Some code => stationListEntry RAG ctx inflect len (len - 1) code
       end.
Proof.
  induction rest as [|code rest IH]; intros k parts Hlen.
  - simpl. by rewrite app_nil_r.
  - destruct rest as [|code' rest'].
    + simpl in *. replace (len - 1) with k by lia.
      reflexivity.
    + change (stationListLoop RAG ctx inflect len k
                (code :: code' :: rest') parts)
        with (stationListLoop RAG ctx inflect len (S k) (code' :: rest')
                (parts ++ stationListEntry RAG ctx inflect len k code)).
      rewrite IH by (simpl in *; lia).
      assert (Hmid : stationListEntry RAG ctx inflect len k code
              = [Segment ("station." +:+ getStationVox RAG code +:+ ".mid");
                 Silence 0.25]).
      { unfold stationListEntry.
        destruct (Nat.eqb_spec k (len - 1)) as [Heq|Hne]; [|reflexivity].
        simpl in Hlen. lia. }
      rewrite Hmid.
      change (removelast (code :: code' :: rest'))
        with (code :: removelast (code' :: rest')).
      change (last (code :: code' :: rest')) with (last (code' :: rest')).
      rewrite fmap_cons. cbn [mjoin list_join].
      by rewrite <- !app_assoc.
Qed.

Lemma stationListEntry_last ctx inflect len code :
  len <> 0 ->
  stationListEntry RAG ctx inflect len (len - 1) code
  = if (1 <? len)%nat then
      [Segment "station.parts.and.mid"; Silence 0.25;
       Segment ("station." +:+ getStationVox RAG code +:+ "." +:+ inflect)]
    else if String.eqb ctx "calling" then
      [Segment ("station." +:+ getStationVox RAG code +:+ ".mid");
       Silence 0.2; Segment "station.parts.only.end"]
    else [Segment ("station." +:+ getStationVox RAG code +:+ "." +:+ inflect)].
Proof.
  intros Hlen. unfold stationListEntry.
  rewrite Nat.eqb_refl. cbn [negb].
  destruct (Nat.ltb_spec 1 len) as [Hgt|Hle].
  - destruct (Nat.eqb_spec len 1) as [->|_]; [lia|]. reflexivity.
  - assert (len = 1) as -> by lia.
    simpl. by destruct (String.eqb ctx "calling").
Qed.

Lemma getInflection_cases flattened idx :
  getInflection flattened idx = "mid" \/ getInflection flattened idx = "end".
Proof.
  unfold getInflection. destruct (flattened !! (idx + 1)) as [next|]; [|by left].
  destruct (JS.startsWith "." (JS.trim (textContent next))); [by right|by left].
Qed.

Lemma resolveFrom_app flattened rest1 : forall i rest2 resolved,
  resolveFrom RAG flattened i (rest1 ++ rest2) resolved
  = resolveFrom RAG flattened i rest1 resolved
      ≫= resolveFrom RAG flattened (i + length rest1) rest2.
Proof.
  induction rest1 as [|v rest1 IH]; intros i rest2 resolved.
  - simpl. by rewrite Nat.add_0_r.
  - cbn [app resolveFrom length].
    destruct (resolve RAG flattened resolved v i) as [keys|]; [|done].
    cbn [mbind option_bind]. rewrite IH. do 2 f_equal. lia.
Qed.

(** C7. [resolveStationList] returns the station list of the design
    document: a lead silence of 0.2s; each member but the last as
    [station.{voxCode}.mid] and 0.25s; with more than one member the
    connector "and" and 0.25s before the last station at the inflection
    of the sentence; with one member in the "calling" context the
    station followed (after 0.2s) by the segment "only" and no
    connector; a trailing silence of 0.2s. For three members that is two
    mid stations, one connector and one last station. *)
Theorem resolveStationList_shape flattened element idx :
  let ctx     := data element "context" in
  let codes   := getStationList (state RAG) ctx in
  let inflect := getInflection flattened idx in
  let station := fun code i =>
    Segment ("station." +:+ getStationVox RAG code +:+ "." +:+ i) in
  resolveStationList RAG flattened element idx
    = stationListSpec (getStationVox RAG) ctx inflect codes
  /\ (forall a b c, codes = [a; b; c] ->
        resolveStationList RAG flattened element idx
        = [Silence 0.2; station a "mid"; Silence 0.25;
           station b "mid"; Silence 0.25;
           Segment "station.parts.and.mid"; Silence 0.25;
           station c inflect; Silence 0.2])
  /\ (forall a, codes = [a] -> ctx = "calling" ->
        resolveStationList RAG flattened element idx
        = [Silence 0.2; station a "mid"; Silence 0.2;
           Segment "station.parts.only.end"; Silence 0.2]).
Proof.
  intros ctx codes inflect station.
  assert (Hspec : resolveStationList RAG flattened element idx
                  = stationListSpec (getStationVox RAG) ctx inflect codes).
  { unfold resolveStationList, stationListSpec.
    fold ctx. fold codes. fold inflect.
    rewrite (stationListLoop_spec ctx inflect (length codes) codes 0)
      by reflexivity.
    rewrite <- !app_assoc. do 2 f_equal.
    destruct (last codes) as [code|] eqn:Hlast; [|reflexivity].
    rewrite stationListEntry_last; [reflexivity|].
    destruct codes; [discriminate|simpl; lia]. }
  split; [exact Hspec|]. split.
  - intros a b c Hcodes. rewrite Hspec, Hcodes. reflexivity.
  - intros a Hcodes Hctx. rewrite Hspec, Hcodes, Hctx. reflexivity.
Qed.

(** C8. A time node whose context reads "14:00" resolves to
    [0.2, "number.14.begin", 0.075, "number.hundred.mid", 0.15], and one
    whose context reads "00:00" to [0.2, "number.0000.mid", 0.2]. *)
Theorem resolveTime_examples element :
  (getTime (state RAG) (data element "context") = "14:00" ->
   resolveTime RAG element
   = [Silence 0.2; Segment "number.14.begin"; Silence 0.075;
      Segment "number.hundred.mid"; Silence 0.15])
  /\ (getTime (state RAG) (data element "context") = "00:00" ->
      resolveTime RAG element
      = [Silence 0.2; Segment "number.0000.mid"; Silence 0.2]).
Proof.
  split; intros Htime; unfold resolveTime; rewrite Htime; reflexivity.
Qed.

(** C9. A service node resolves to [service.{service}.mid] and a
    silence of 0.15s, after a lead-in silence that is left out exactly
    when the last key resolved so far is a number; it is emitted when
    nothing is resolved yet. Only the last key counts, and the keys
    [resolveService] sees are those of the nodes resolved before it. *)
Theorem resolveService_lead_in element :
  let body := [Segment ("service."
                 +:+ filename RAG
                       (getService (state RAG) (data element "context"))
                 +:+ ".mid"); Silence 0.15] in
  resolveService RAG [] element = Silence 0.15 :: body
  /\ (forall resolved seconds,
        resolveService RAG (resolved ++ [Silence seconds]) element = body)
  /\ (forall resolved id,
        resolveService RAG (resolved ++ [Segment id]) element
        = Silence 0.15 :: body)
  /\ (forall resolved,
        (isNumber (last resolved) = true
         <-> resolveService RAG resolved element = body)
        /\ (isNumber (last resolved) = false
            <-> resolveService RAG resolved element = Silence 0.15 :: body))
  /\ (forall flattened before after,
        dataset element !! "type" = Some "service" ->
        nodeType element = ELEMENT_NODE ->
        resolveFrom RAG flattened 0 (before ++ element :: after) []
        = resolveFrom RAG flattened 0 before [] ≫= fun resolved =>
            resolveFrom RAG flattened (S (length before)) after
              (resolved ++ resolveService RAG resolved element)).
Proof.
  intros body.
  assert (Hcases : forall resolved,
             resolveService RAG resolved element
             = if isNumber (last resolved) then body
               else Silence 0.15 :: body).
  { intros resolved. unfold resolveService.
    by destruct (isNumber (last resolved)). }
  split; [by rewrite Hcases|]. split.
  { intros resolved seconds. by rewrite Hcases, last_snoc. }
  split.
  { intros resolved id. by rewrite Hcases, last_snoc. }
  split.
  { intros resolved. rewrite Hcases.
    destruct (isNumber (last resolved)); split; split;
      (done || (intros Heq; by apply (f_equal length) in Heq)). }
  intros flattened before after Htype Hnode.
  rewrite resolveFrom_app. simpl.
  destruct (resolveFrom RAG flattened 0 before []) as [resolved|];
    [|reflexivity].
  cbn [mbind option_bind resolveFrom].
  unfold resolve. rewrite Hnode, Htype. reflexivity.
Qed.

(** C10. For the last node of a flattened list [getInflection] returns
    "mid", so a typed element that ends the phrase is resolved at mid
    inflection; "end" arises only from a following flattened node whose
    trimmed text starts with a full stop. *)
Theorem getInflection_last_is_mid :
  (forall (before : list Node) (lastNode : Node),
      getInflection (before ++ [lastNode]) (length before) = "mid")
  /\ (forall (before : list Node) (lastNode : Node),
        resolveStation RAG (before ++ [lastNode]) lastNode (length before)
        = [Silence 0.2;
           Segment ("station."
                    +:+ getStationVox RAG
                          (getStation (state RAG)
                             (data lastNode "context"))
                    +:+ ".mid");
           Silence 0.2])
  /\ (forall (flattened : list Node) (idx : nat),
        getInflection flattened idx = "end"
        <-> exists next,
            flattened !! (idx + 1) = Some next
            /\ JS.startsWith "." (JS.trim (textContent next)) = true).
Proof.
  assert (Hlast : forall (before : list Node) (lastNode : Node),
             getInflection (before ++ [lastNode]) (length before) = "mid").
  { intros before lastNode. unfold getInflection.
    rewrite lookup_ge_None_2; [reflexivity|].
    rewrite length_app. simpl. lia. }
  split; [exact Hlast|]. split.
  - intros before lastNode. unfold resolveStation. by rewrite Hlast.
  - intros flattened idx. unfold getInflection. split.
    + destruct (flattened !! (idx + 1)) as [next|]; [|discriminate].
      destruct (JS.startsWith "." (JS.trim (textContent next))) eqn:Hdot;
        [|discriminate].
      intros _. by exists next.
    + intros (next & -> & ->). reflexivity.
Qed.

End Facts.

Lemma resolveStationList_shape_witness :
  resolveStationList sampleGlobals [] (sampleElement "stationlist" "changes") 0
  = [Silence 0.2; Segment "station.KGX.mid"; Silence 0.25;
     Segment "station.SVG.mid"; Silence 0.25;
     Segment "station.parts.and.mid"; Silence 0.25;
     Segment "station.PBO.mid"; Silence 0.2]
  /\ resolveStationList sampleGlobals []
       (sampleElement "stationlist" "calling") 0
     = [Silence 0.2; Segment "station.KGX.mid"; Silence 0.2;
        Segment "station.parts.only.end"; Silence 0.2].
Proof.
  split.
  - exact (proj1 (proj2 (resolveStationList_shape sampleGlobals []
                           (sampleElement "stationlist" "changes") 0))
             "KGX" "SVG" "PBO" eq_refl).
  - exact (proj2 (proj2 (resolveStationList_shape sampleGlobals []
                           (sampleElement "stationlist" "calling") 0))
             "KGX" eq_refl eq_refl).
Defined.

Lemma resolveTime_examples_witness :
  resolveTime sampleGlobals (sampleElement "time" "now")
  = [Silence 0.2; Segment "number.14.begin"; Silence 0.075;
     Segment "number.hundred.mid"; Silence 0.15]
  /\ resolveTime sampleGlobals (sampleElement "time" "later")
     = [Silence 0.2; Segment "number.0000.mid"; Silence 0.2].
Proof.
  split.
  - apply (proj1 (resolveTime_examples sampleGlobals
                    (sampleElement "time" "now"))).
    reflexivity.
  - apply (proj2 (resolveTime_examples sampleGlobals
                    (sampleElement "time" "later"))).
    reflexivity.
Defined.

Lemma resolveService_lead_in_witness :
  resolveFrom sampleGlobals [] 0
    ([sampleElement "time" "now"] ++ sampleElement "service" "x" :: []) []
  = Some [Silence 0.2; Segment "number.14.begin"; Silence 0.075;
          Segment "number.hundred.mid"; Silence 0.15;
          Segment "service.Thameslink.mid"; Silence 0.15].
Proof.
  rewrite (proj2 (proj2 (proj2 (proj2
             (resolveService_lead_in sampleGlobals
                (sampleElement "service" "x")))))); reflexivity.
Defined.

End ResolverProps.

(** * Properties of the vox engine *)

Module VoxEngineProps.
Import VoxEngine VoxEngineSpec.

(** ** The parts of the engine, one by one *)

Lemma playNextFrom_cases pending : forall w,
  pendingReqs (engine w) = pending ->
  (exists skipped rest,
      pending = skipped ++ rest
      /\ Forall (failed w) skipped
      /\ playNextFrom pending w
         = setEngine (setPendingReqs rest (engine w)) w)
  \/ (exists skipped r b rest,
        pending = skipped ++ r :: rest
        /\ Forall (failed w) skipped
        /\ ready w r b
        /\ currentBufNode (engine w) = None
        /\ playNextFrom pending w
           = startNode r b (setEngine (setPendingReqs rest (engine w)) w)).
Proof.
  induction pending as [|r rest IH]; intros w Hq.
  - left. exists [], []. repeat split; [constructor|].
    by world_eta w.
  - cbn [playNextFrom].
    destruct (requests w !! r) as [req|] eqn:Hreq.
    2:{ left. exists [], (r :: rest). repeat split; [constructor|].
        by world_eta w. }
    destruct (negb (isDone req)
              || bool_decide (is_Some (currentBufNode (engine w)))) eqn:Hguard.
    { left. exists [], (r :: rest). repeat split; [constructor|].
      by world_eta w. }
    apply orb_false_iff in Hguard as [Hdone Hnode].
    apply negb_false_iff in Hdone.
    apply bool_decide_eq_false in Hnode.
    assert (Hnone : currentBufNode (engine w) = None).
    { destruct (currentBufNode (engine w)); [|done]. by destruct Hnode. }
    destruct (buffer req) as [b|] eqn:Hbuf.
    + right. exists [], r, b, rest. repeat split; [constructor| |done].
      by exists req.
    + destruct (IH (setEngine (setPendingReqs rest (engine w)) w) eq_refl)
        as [(skipped & rest' & -> & Hsk & Heq)
           |(skipped & r' & b & rest' & -> & Hsk & Hr & _ & Heq)].
      * left. exists (r :: skipped), rest'. repeat split.
        -- constructor; [by exists req|exact Hsk].
        -- exact Heq.
      * right. exists (r :: skipped), r', b, rest'. repeat split; try done.
        constructor; [by exists req|exact Hsk].
Qed.

Lemma refill_refilled voice ids : forall w,
  currentIds (engine w) = Some ids ->
  exists m, m <= length ids
            /\ (m = 0 \/ length (pendingReqs (engine w)) + m <= 10)
            /\ refill voice ids w = refilled voice ids m w.
Proof.
  induction ids as [|id rest IH]; intros w Hids.
  - exists 0. repeat split; [lia|by left|].
    refilled_none w.
  - cbn [refill].
    destruct (truthy (Some id)
              && (length (pendingReqs (engine w)) <? 10)%nat) eqn:Hguard.
    2:{ exists 0. repeat split; [lia|by left|].
        refilled_none w. }
    apply andb_true_iff in Hguard as [_ Hroom].
    apply Nat.ltb_lt in Hroom.
    destruct (IH (pushRequest (pathOf voice id)
                    (setEngine (setCurrentIds (Some rest) (engine w)) w))
                eq_refl) as (m & Hm & Hwin & ->).
    exists (S m). split; [simpl; lia|]. split.
    { right. destruct Hwin as [->|Hwin]; [lia|].
      simpl in Hwin. rewrite length_app in Hwin. simpl in Hwin. lia. }
    unfold refilled, pushRequest. simpl.
    rewrite !length_app, <- !app_assoc. simpl.
    rewrite Nat.add_1_r. f_equal.
    f_equal. by destruct m.
Qed.

Lemma cancel_path req : path (cancel req) = path req.
Proof. unfold cancel. by destruct (isDone req). Qed.

Lemma settle_path result req : path (settle result req) = path req.
Proof. unfold settle. by destruct (isDone req || cancelled req). Qed.

Lemma cancel_done req : isDone req = true -> cancel req = req.
Proof. unfold cancel. by intros ->. Qed.

Lemma settle_done result req : isDone req = true -> settle result req = req.
Proof. unfold settle. by intros ->. Qed.

Lemma cancel_outcome req :
  isDone (cancel req) = true \/ cancelled (cancel req) = true.
Proof. unfold cancel. destruct (isDone req) eqn:Hd; [by left|by right]. Qed.

Lemma cancel_cancel req : cancel (cancel req) = cancel req.
Proof. unfold cancel. destruct (isDone req) eqn:Hd; [by rewrite Hd|done]. Qed.

Lemma settle_cancelled result req :
  isDone req = true \/ cancelled req = true -> settle result req = req.
Proof.
  unfold settle. intros [->| ->]; [done|]. by rewrite orb_true_r.
Qed.

Lemma cancelAll_length reqs : forall store,
  length (cancelAll reqs store) = length store.
Proof.
  induction reqs as [|r reqs IH]; intros store; [done|].
  unfold cancelAll in *. simpl. by rewrite IH, length_alter.
Qed.

Lemma cancelAll_lookup reqs : forall store r,
  cancelAll reqs store !! r
  = if bool_decide (r ∈ reqs) then cancel <$> store !! r else store !! r.
Proof.
  induction reqs as [|r' reqs IH]; intros store r.
  - by rewrite bool_decide_eq_false_2 by apply not_elem_of_nil.
  - change (cancelAll (r' :: reqs) store)
      with (cancelAll reqs (alter cancel r' store)).
    rewrite IH. destruct (decide (r = r')) as [->|Hne].
    + rewrite list_lookup_alter_eq.
      rewrite (bool_decide_eq_true_2 (r' ∈ r' :: reqs)) by apply list_elem_of_here.
      case_bool_decide; [|done].
      destruct (store !! r'); [|done]. simpl. by rewrite cancel_cancel.
    + rewrite list_lookup_alter_ne by done.
      apply (f_equal (fun b : bool =>
               if b then cancel <$> store !! r else store !! r)).
      apply bool_decide_ext. rewrite elem_of_cons.
      split; [by right|]. by intros [?|?].
Qed.

Lemma filter_timer (t : nat) (ts : list nat) :
  ts = [] \/ ts = [t] -> filter (fun t' => t' <> t) ts = [].
Proof.
  intros [->| ->]; [done|].
  rewrite filter_cons_False by (intros Hne; by apply Hne). done.
Qed.

Lemma stop_engine w : engine (stop w) = idle (pumpTimer (engine w)).
Proof. reflexivity. Qed.

Lemma Inv_init : Inv init.
Proof.
  split; simpl; try done; try lia. by left.
Qed.

Lemma Inv_stop w : Inv w -> Inv (stop w).
Proof.
  intros [Hwin Htim Hidle Hreqs Hnode Hh].
  assert (Ht : timers (stop w) = []) by (simpl; by apply filter_timer).
  split; simpl.
  - lia.
  - left. exact Ht.
  - intros _. split; [reflexivity|exact Ht].
  - constructor.
  - intros n Hn. discriminate.
  - intros n nd Hlook Hon Hend.
    destruct (currentBufNode (engine w)) as [c|] eqn:Hc.
    + destruct (decide (n = c)) as [->|Hne].
      * rewrite list_lookup_alter_eq in Hlook.
        destruct (nodes w !! c); simplify_eq/=.
      * rewrite list_lookup_alter_ne in Hlook by done.
        specialize (Hh n nd Hlook Hon Hend). congruence.
    + specialize (Hh n nd Hlook Hon Hend). congruence.
Qed.

Lemma stop_when_idle w :
  Inv w -> isSpeaking (engine w) = false -> stop w = w.
Proof.
  intros HI Hs. destruct (inv_idle w HI Hs) as [He Ht].
  destruct w as [e reqs nds ts sq]. simpl in *. subst ts.
  unfold stop. simpl. rewrite He. simpl. reflexivity.
Qed.

Lemma Inv_clearTimeout t w : Inv w -> Inv (clearTimeout t w).
Proof.
  intros [Hwin Htim Hidle Hreqs Hnode Hh].
  split; simpl; try done.
  - destruct Htim as [->| ->]; [by left|].
    destruct (decide (pumpTimer (engine w) = t)) as [Heq|Hne].
    + left. rewrite filter_cons_False; [done|]. intros Hn. by apply Hn.
    + right. by rewrite filter_cons_True.
  - intros Hs. destruct (Hidle Hs) as [He Ht]. split; [done|].
    by rewrite Ht.
Qed.

Lemma Inv_playNext w :
  Inv w -> isSpeaking (engine w) = true -> Inv (playNext w).
Proof.
  intros [Hwin Htim Hidle Hreqs Hnode Hh] Hs. unfold playNext.
  destruct (playNextFrom_cases _ w eq_refl)
    as [(skipped & rest & Hq & _ & ->)
       |(skipped & r & b & rest & Hq & _ & _ & Hnone & ->)].
  - rewrite Hq in Hwin, Hreqs. rewrite length_app in Hwin.
    apply Forall_app in Hreqs as [_ Hreqs].
    split; simpl; try done; try lia.
    intros Hs'. congruence.
  - rewrite Hq in Hwin, Hreqs. rewrite length_app in Hwin. simpl in Hwin.
    apply Forall_app in Hreqs as [_ Hreqs].
    apply Forall_cons in Hreqs as [_ Hreqs].
    split; simpl; try done; try lia.
    + intros Hs'. congruence.
    + intros n [= <-]. rewrite length_app. simpl. lia.
    + intros n nd Hlook Hon Hend.
      destruct (decide (n < length (nodes w))) as [Hlt|Hge].
      * rewrite lookup_app_l in Hlook by done.
        specialize (Hh n nd Hlook Hon Hend). congruence.
      * apply lookup_lt_Some in Hlook. rewrite length_app in Hlook.
        simpl in Hlook. f_equal. lia.
Qed.

Lemma Inv_refilled voice ids m w :
  Inv w -> isSpeaking (engine w) = true -> m <= length ids ->
  m = 0 \/ length (pendingReqs (engine w)) + m <= 10 ->
  Inv (refilled voice ids m w).
Proof.
  intros [Hwin Htim Hidle Hreqs Hnode Hh] Hs Hlen Hm.
  split; simpl; try done.
  - rewrite length_app, length_seq. lia.
  - intros Hs'. congruence.
  - rewrite length_app. apply Forall_app. split.
    + eapply Forall_impl; [exact Hreqs|]. simpl. intros; lia.
    + apply Forall_forall. intros r Hr. apply elem_of_seq in Hr.
      rewrite length_fmap, length_take. lia.
Qed.

Lemma playNext_fields w :
  let e := engine w in
  let e' := engine (playNext w) in
  isSpeaking e' = isSpeaking e /\ pumpTimer e' = pumpTimer e
  /\ currentIds e' = currentIds e /\ currentVoice e' = currentVoice e
  /\ currentSettings e' = currentSettings e
  /\ requests (playNext w) = requests w /\ timers (playNext w) = timers w
  /\ timerSeq (playNext w) = timerSeq w.
Proof.
  unfold playNext.
  destruct (playNextFrom_cases _ w eq_refl)
    as [(skipped & rest & _ & _ & ->)
       |(skipped & r & b & rest & _ & _ & _ & _ & ->)];
    by repeat split.
Qed.

Lemma afterRefill_refilled voice w ids :
  currentIds (engine w) = Some ids ->
  exists m, m <= length ids
            /\ (m = 0 \/ length (pendingReqs (engine (playNext w))) + m <= 10)
            /\ afterRefill voice w = refilled voice ids m (playNext w).
Proof.
  intros Hids. unfold afterRefill.
  destruct (playNext_fields w) as (_ & _ & Hids' & _).
  rewrite Hids', Hids. simpl.
  apply refill_refilled. by rewrite Hids'.
Qed.

Lemma pump_cases w :
  pump w = w
  \/ exists ids voice,
      isSpeaking (engine w) = true
      /\ currentIds (engine w) = Some ids
      /\ currentVoice (engine w) = Some voice
      /\ (pump w = stop (afterRefill voice w)
          \/ pump w = armPumpTimer (afterRefill voice w)).
Proof.
  unfold pump.
  destruct (currentIds (engine w)) as [ids|] eqn:Hids; [|by left].
  destruct (currentVoice (engine w)) as [voice|] eqn:Hv; [|by left].
  destruct (isSpeaking (engine w)) eqn:Hs; [|by left].
  right. exists ids, voice. repeat split. simpl.
  fold (afterRefill voice w).
  match goal with |- context [if ?c then _ else _] => destruct c end;
    [by left|by right].
Qed.

Lemma Inv_afterRefill voice w ids :
  Inv w -> isSpeaking (engine w) = true ->
  currentIds (engine w) = Some ids ->
  Inv (afterRefill voice w)
  /\ isSpeaking (engine (afterRefill voice w)) = true
  /\ timers (afterRefill voice w) = timers w.
Proof.
  intros HI Hs Hids.
  destruct (afterRefill_refilled voice w ids Hids) as (m & Hm & Hwin & ->).
  destruct (playNext_fields w) as (Hs' & _ & _ & _ & _ & _ & Ht & _).
  split; [|split].
  - apply Inv_refilled; try done.
    + by apply Inv_playNext.
    + by rewrite Hs'.
  - simpl. by rewrite Hs'.
  - simpl. exact Ht.
Qed.

Lemma Inv_armPumpTimer w :
  Inv w -> isSpeaking (engine w) = true -> timers w = [] ->
  Inv (armPumpTimer w).
Proof.
  intros [Hwin Htim Hidle Hreqs Hnode Hh] Hs Ht.
  split; simpl; try done.
  - right. by rewrite Ht.
  - intros Hs'. congruence.
Qed.

Lemma Inv_pump w : Inv w -> timers w = [] -> Inv (pump w).
Proof.
  intros HI Ht.
  destruct (pump_cases w) as [->|(ids & voice & Hs & Hids & Hv & Hp)];
    [done|].
  destruct (Inv_afterRefill voice w ids HI Hs Hids) as (HI' & Hs' & Ht').
  destruct Hp as [-> | ->].
  - by apply Inv_stop.
  - apply Inv_armPumpTimer; try done. by rewrite Ht'.
Qed.

Lemma Inv_speak ids voice settings w :
  Inv w -> Inv (speak ids voice settings w).
Proof.
  intros HI. unfold speak. apply Inv_pump.
  - assert (HI0 : Inv (if isSpeaking (engine w) then stop w else w)
                  /\ timers (if isSpeaking (engine w) then stop w else w) = []
                  /\ engine (if isSpeaking (engine w) then stop w else w)
                     = idle (pumpTimer (engine w))).
    { destruct (isSpeaking (engine w)) eqn:Hs.
      - split; [by apply Inv_stop|]. split; [|done].
        simpl. apply filter_timer, (inv_timers w HI).
      - split; [done|]. destruct (inv_idle w HI Hs) as [He Ht]. done. }
    destruct HI0 as ([Hwin Htim Hidle Hreqs Hnode Hh] & Ht & He).
    split; simpl; rewrite ?He in *; simpl in *; done.
  - simpl. destruct (isSpeaking (engine w)) eqn:Hs.
    + simpl. apply filter_timer, (inv_timers w HI).
    + by destruct (inv_idle w HI Hs).
Qed.

Lemma Inv_onendedCallback w n :
  Inv w -> currentBufNode (engine w) = Some n ->
  (forall m nd, nodes w !! m = Some nd -> onended nd = true ->
                ended nd = false -> False) ->
  Inv (onendedCallback w).
Proof.
  intros HI Hc Hnone. unfold onendedCallback.
  destruct (isSpeaking (engine w)) eqn:Hs; simpl.
  2:{ destruct (inv_idle w HI Hs) as [He _]. rewrite He in Hc. done. }
  apply Inv_playNext; [|done].
  destruct HI as [Hwin Htim Hidle Hreqs Hnode Hh].
  split; simpl; try done.
  - intros Hs'. congruence.
  - intros m nd Hlook Hon Hend. destruct (Hnone m nd Hlook Hon Hend).
Qed.

Lemma Inv_envStep ev w : Inv w -> Inv (envStep ev w).
Proof.
  intros HI. destruct ev as [t|r result|n]; simpl.
  - case_bool_decide as Hin; [|done].
    apply Inv_pump; [by apply Inv_clearTimeout|].
    simpl. destruct (inv_timers w HI) as [Ht|Ht]; rewrite Ht in *.
    + done.
    + apply list_elem_of_singleton in Hin as ->.
      rewrite filter_cons_False; [done|]. intros Hne. by apply Hne.
  - destruct HI as [Hwin Htim Hidle Hreqs Hnode Hh].
    split; simpl; try done. by rewrite length_alter.
  - destruct (nodes w !! n) as [nd|] eqn:Hnd; [|done].
    destruct (started nd && negb (ended nd)) eqn:Hplaying; [|done].
    apply andb_true_iff in Hplaying as [_ Hend].
    apply negb_true_iff in Hend.
    assert (Hmark : forall m nd',
               alter markEnded n (nodes w) !! m = Some nd' ->
               onended nd' = true -> ended nd' = false ->
               m <> n /\ nodes w !! m = Some nd').
    { intros m nd' Hlook Hon Hend'.
      destruct (decide (n = m)) as [->|Hne].
      - rewrite list_lookup_alter_eq, Hnd in Hlook. by simplify_eq/=.
      - by rewrite list_lookup_alter_ne in Hlook. }
    destruct (onended nd) eqn:Hon.
    + eapply Inv_onendedCallback.
      * destruct HI as [Hwin Htim Hidle Hreqs Hnode Hh].
        split; simpl; try done.
        -- intros m Hm. rewrite length_alter. by apply Hnode.
        -- intros m nd' Hlook Hon' Hend'.
           destruct (Hmark m nd' Hlook Hon' Hend') as [_ Hold].
           by apply (Hh m nd').
      * simpl. by apply (inv_handler w HI n nd).
      * simpl. intros m nd' Hlook Hon' Hend'.
        destruct (Hmark m nd' Hlook Hon' Hend') as [Hne Hold].
        pose proof (inv_handler w HI m nd' Hold Hon' Hend') as Hm.
        pose proof (inv_handler w HI n nd Hnd Hon Hend) as Hn.
        congruence.
    + destruct HI as [Hwin Htim Hidle Hreqs Hnode Hh].
      split; simpl; try done.
      * intros m Hm. rewrite length_alter. by apply Hnode.
      * intros m nd' Hlook Hon' Hend'.
        destruct (Hmark m nd' Hlook Hon' Hend') as [_ Hold].
        by apply (Hh m nd').
Qed.

Lemma Inv_step ev w : Inv w -> Inv (step ev w).
Proof.
  destruct ev as [ids voice settings| |ev]; simpl.
  - apply Inv_speak.
  - apply Inv_stop.
  - apply Inv_envStep.
Qed.

Lemma run_snoc evs ev w : run (evs ++ [ev]) w = step ev (run evs w).
Proof. unfold run. by rewrite foldl_snoc. Qed.

Lemma runEnv_snoc evs ev w :
  runEnv (evs ++ [ev]) w = envStep ev (runEnv evs w).
Proof. unfold runEnv. by rewrite foldl_snoc. Qed.

Lemma Inv_run evs : Inv (run evs init).
Proof.
  induction evs as [|ev evs IH] using rev_ind; [apply Inv_init|].
  rewrite run_snoc. by apply Inv_step.
Qed.

Lemma Inv_runEnv evs w : Inv w -> Inv (runEnv evs w).
Proof.
  intros HI. induction evs as [|ev evs IH] using rev_ind; [done|].
  rewrite runEnv_snoc. by apply Inv_envStep.
Qed.

Lemma refill_window voice ids : forall w,
  length (pendingReqs (engine (refill voice ids w)))
  <= Nat.max 10 (length (pendingReqs (engine w))).
Proof.
  induction ids as [|id rest IH]; intros w; cbn [refill]; [lia|].
  destruct (truthy (Some id)
            && (length (pendingReqs (engine w)) <? 10)%nat) eqn:Hguard;
    [|lia].
  apply andb_true_iff in Hguard as [_ Hroom]. apply Nat.ltb_lt in Hroom.
  etrans; [apply IH|]. simpl. rewrite length_app. simpl. lia.
Qed.

Lemma failed_no_buffer w r : failed w r -> hasBuffer w r = false.
Proof.
  intros (req & Hreq & _ & Hbuf). unfold hasBuffer. rewrite Hreq, Hbuf.
  apply bool_decide_eq_false_2. by intros [? ?].
Qed.

Lemma ready_has_buffer w r b : ready w r b -> hasBuffer w r = true.
Proof.
  intros (req & Hreq & _ & Hbuf). unfold hasBuffer. rewrite Hreq, Hbuf.
  apply bool_decide_eq_true_2. by eauto.
Qed.

Lemma filter_failed w skipped :
  Forall (failed w) skipped ->
  filter (fun r => hasBuffer w r) skipped = [].
Proof.
  induction 1 as [|r skipped Hr _ IH]; [done|].
  rewrite filter_cons_False; [exact IH|].
  rewrite (failed_no_buffer w r Hr). by intros [].
Qed.

Lemma playNext_dequeues w :
  exists dequeued,
    pendingReqs (engine w) = dequeued ++ pendingReqs (engine (playNext w))
    /\ played (length (nodes w)) (playNext w)
       = filter (fun r => hasBuffer w r) dequeued
    /\ length (played (length (nodes w)) (playNext w)) <= 1.
Proof.
  unfold playNext, played.
  destruct (playNextFrom_cases _ w eq_refl)
    as [(skipped & rest & Hq & Hsk & ->)
       |(skipped & r & b & rest & Hq & Hsk & Hr & _ & ->)].
  - exists skipped. simpl. rewrite drop_all.
    rewrite (filter_failed w skipped Hsk). repeat split; [done|simpl; lia].
  - exists (skipped ++ [r]). simpl.
    rewrite drop_app_length. rewrite <- app_assoc. simpl.
    repeat split; [done| |lia].
    rewrite filter_app, (filter_failed w skipped Hsk).
    rewrite filter_cons_True; [done|].
    by rewrite (ready_has_buffer w r b Hr).
Qed.

Lemma pump_decision w ids voice :
  isSpeaking (engine w) = true ->
  currentIds (engine w) = Some ids ->
  currentVoice (engine w) = Some voice ->
  let w' := afterRefill voice w in
  isSpeaking (engine w') = true
  /\ exists rest,
      currentIds (engine w') = Some rest
      /\ ((rest = [] /\ currentBufNode (engine w') = None
           /\ pump w = stop w')
          \/ ((rest <> [] \/ currentBufNode (engine w') <> None)
              /\ pump w = armPumpTimer w')).
Proof.
  intros Hs Hids Hv w'.
  destruct (afterRefill_refilled voice w ids Hids) as (m & Hm & _ & Hw').
  destruct (playNext_fields w) as (Hs' & _ & Hids' & _).
  assert (Hspeak : isSpeaking (engine w') = true).
  { unfold w'. rewrite Hw'. simpl. by rewrite Hs'. }
  split; [exact Hspeak|].
  assert (Hrest : exists rest, currentIds (engine w') = Some rest).
  { unfold w'. rewrite Hw'. simpl. destruct m; [|by eauto].
    rewrite Hids', Hids. by eauto. }
  destruct Hrest as [rest Hrest]. exists rest. split; [exact Hrest|].
  unfold pump. rewrite Hids, Hv, Hs. simpl. fold (afterRefill voice w).
  fold w'. rewrite Hrest. simpl.
  destruct rest as [|id rest]; simpl.
  - destruct (currentBufNode (engine w')) as [n|] eqn:Hn.
    + rewrite bool_decide_eq_true_2 by eauto. simpl.
      right. split; [by right|done].
    + rewrite bool_decide_eq_false_2 by (by intros [? ?]). simpl.
      by left.
  - right. split; [by left|done].
Qed.

Lemma quiet_envStep ev w :
  isSpeaking (engine w) = false -> timers w = [] ->
  engine (envStep ev w) = engine w
  /\ timers (envStep ev w) = []
  /\ length (nodes (envStep ev w)) = length (nodes w)
  /\ length (requests (envStep ev w)) = length (requests w).
Proof.
  intros Hs Ht. destruct ev as [t|r result|n]; simpl.
  - rewrite Ht. rewrite bool_decide_eq_false_2 by apply not_elem_of_nil.
    done.
  - by rewrite length_alter.
  - destruct (nodes w !! n) as [nd|]; [|done].
    destruct (started nd && negb (ended nd)); [|done].
    unfold onendedCallback.
    destruct (onended nd); simpl; rewrite ?Hs; simpl;
      by rewrite length_alter.
Qed.

Lemma quiet_runEnv evs w :
  isSpeaking (engine w) = false -> timers w = [] ->
  engine (runEnv evs w) = engine w
  /\ timers (runEnv evs w) = []
  /\ length (nodes (runEnv evs w)) = length (nodes w)
  /\ length (requests (runEnv evs w)) = length (requests w).
Proof.
  intros Hs Ht. induction evs as [|ev evs IH] using rev_ind; [done|].
  rewrite runEnv_snoc. destruct IH as (He & Ht' & Hn & Hr).
  destruct (quiet_envStep ev (runEnv evs w)) as (He' & Ht'' & Hn' & Hr');
    [by rewrite He|done|].
  repeat split; congruence.
Qed.

(** C3. In every world the engine reaches, whatever the sequences spoken
    and whatever the order of the events, at most 10 requests are pending:
    the refill loop pushes only below the bound, [playNext] only dequeues
    and [stop] empties the queue. *)
Theorem pending_window_bounded :
  (forall evs : list Event,
      length (pendingReqs (engine (run evs init))) <= 10)
  /\ (forall voice ids w,
        length (pendingReqs (engine (refill voice ids w)))
        <= Nat.max 10 (length (pendingReqs (engine w))))
  /\ (forall w,
        length (pendingReqs (engine (playNext w)))
        <= length (pendingReqs (engine w)))
  /\ (forall w, pendingReqs (engine (stop w)) = [])
  /\ (forall r result w,
        pendingReqs (engine (envStep (FetchSettles r result) w))
        = pendingReqs (engine w)).
Proof.
  split; [intros evs; apply (inv_window _ (Inv_run evs))|].
  split; [apply refill_window|].
  split; [|done].
  intros w. destruct (playNext_dequeues w) as (dequeued & Hq & _).
  apply (f_equal length) in Hq. rewrite length_app in Hq. lia.
Qed.

(** C5. A speaking engine whose pump runs goes back to idle exactly when,
    after [playNext] and the refill, no id is left to queue and no buffer
    node is playing; otherwise the pump re-arms its timer and the engine
    keeps speaking. No event of the event loop other than a pump tick that
    finds both conditions false makes a speaking engine idle. *)
Theorem pump_stops_only_when_drained w ids voice :
  isSpeaking (engine w) = true ->
  currentIds (engine w) = Some ids ->
  currentVoice (engine w) = Some voice ->
  let drained := fun w' : World =>
    currentIds (engine w') = Some [] /\ currentBufNode (engine w') = None in
  let w' := afterRefill voice w in
  (drained w' ->
   pump w = stop w' /\ isSpeaking (engine (pump w)) = false)
  /\ (~ drained w' ->
      pump w = armPumpTimer w'
      /\ isSpeaking (engine (pump w)) = true
      /\ pumpTimer (engine (pump w)) ∈ timers (pump w))
  /\ (forall ev, isSpeaking (engine (envStep ev w)) = false ->
        exists t, ev = TimerFires t /\ t ∈ timers w
                  /\ drained (afterRefill voice (clearTimeout t w))).
Proof.
  intros Hs Hids Hv drained w'.
  assert (Hdec : forall w0, isSpeaking (engine w0) = true ->
            currentIds (engine w0) = Some ids ->
            currentVoice (engine w0) = Some voice ->
            (drained (afterRefill voice w0) ->
             pump w0 = stop (afterRefill voice w0))
            /\ (~ drained (afterRefill voice w0) ->
                pump w0 = armPumpTimer (afterRefill voice w0)
                /\ isSpeaking (engine (pump w0)) = true)).
  { intros w0 Hs0 Hids0 Hv0.
    destruct (pump_decision w0 ids voice Hs0 Hids0 Hv0)
      as (Hspeak & rest & Hrest & [(-> & Hn & Hp)|(Hor & Hp)]).
    - split; [done|]. intros Hnot. destruct Hnot. by split.
    - split.
      + intros [Hd1 Hd2]. destruct Hor as [Hne|Hne]; [|done].
        rewrite Hrest in Hd1. by simplify_eq.
      + intros _. split; [done|]. rewrite Hp. simpl. exact Hspeak. }
  destruct (Hdec w Hs Hids Hv) as [Hstop Harm].
  split; [|split].
  - intros Hd. rewrite (Hstop Hd). done.
  - intros Hnd. destruct (Harm Hnd) as [Hp Hsp].
    repeat split; try done. rewrite Hp. simpl. apply list_elem_of_here.
  - intros ev Hidle. destruct ev as [t|r result|n]; simpl in Hidle.
    + case_bool_decide as Hin; [|congruence].
      destruct (pump_decision (clearTimeout t w) ids voice Hs Hids Hv)
        as (Hspeak & rest & Hrest & [(-> & Hn & Hp)|(Hor & Hp)]).
      * exists t. by repeat split.
      * rewrite Hp in Hidle. simpl in Hidle. congruence.
    + congruence.
    + destruct (nodes w !! n) as [nd|]; [|congruence].
      destruct (started nd && negb (ended nd)); [|congruence].
      destruct (onended nd); [|simpl in Hidle; congruence].
      unfold onendedCallback in Hidle. simpl in Hidle.
      rewrite Hs in Hidle. simpl in Hidle.
      match type of Hidle with
      | isSpeaking (engine (playNext ?x)) = _ =>
          destruct (playNext_fields x) as (Hsame & _)
      end.
      rewrite Hsame in Hidle. simpl in Hidle. congruence.
Qed.

(** C4. Whatever the state the engine has reached, [stop] leaves no timer
    armed, every request that was pending cancelled (or already complete),
    the node that was playing stopped, disconnected and without its
    completion callback, and the engine cleared; no buffer node is left
    whose callback could still fire; after that no event of the event loop
    (timer, settling request, ended node), nor any sequence of them,
    changes the engine, arms a timer or creates a node or a request, and a
    request cancelled by [stop] ignores its late result; on an engine that
    is not speaking [stop] changes nothing. *)
Theorem stop_is_total (evs : list Event) :
  let w := run evs init in
  let w' := stop w in
  timers w' = []
  /\ Forall (fun r => exists req,
                requests w' !! r = Some req
                /\ (isDone req = true \/ cancelled req = true))
       (pendingReqs (engine w))
  /\ (forall n, currentBufNode (engine w) = Some n ->
        exists nd, nodes w' !! n = Some nd
                   /\ stopped nd = true /\ connected nd = false
                   /\ onended nd = false)
  /\ engine w' = idle (pumpTimer (engine w))
  /\ (forall n nd, nodes w' !! n = Some nd -> onended nd = true ->
                   ended nd = true)
  /\ (forall envs : list EnvEvent,
        engine (runEnv envs w') = engine w'
        /\ timers (runEnv envs w') = []
        /\ length (nodes (runEnv envs w')) = length (nodes w')
        /\ length (requests (runEnv envs w')) = length (requests w'))
  /\ (forall r result, r ∈ pendingReqs (engine w) ->
        envStep (FetchSettles r result) w' = w')
  /\ (isSpeaking (engine w) = false -> w' = w).
Proof.
  intros w w'. pose proof (Inv_run evs) as HI. fold w in HI.
  pose proof (Inv_stop w HI) as HI'. fold w' in HI'.
  assert (Ht : timers w' = []).
  { unfold w'. simpl. apply filter_timer, (inv_timers w HI). }
  assert (Hcancelled : forall r, r ∈ pendingReqs (engine w) ->
            exists req, requests w' !! r = Some req
                        /\ (isDone req = true \/ cancelled req = true)).
  { intros r Hr. unfold w'. simpl. rewrite cancelAll_lookup.
    rewrite bool_decide_eq_true_2 by done.
    pose proof (inv_reqs w HI) as Hvalid.
    rewrite Forall_forall in Hvalid. specialize (Hvalid r Hr).
    destruct (lookup_lt_is_Some_2 (requests w) r Hvalid) as [req Hreq].
    rewrite Hreq. simpl. exists (cancel req). split; [done|].
    apply cancel_outcome. }
  split; [exact Ht|]. split; [by apply Forall_forall|]. split.
  { intros n Hn. unfold w'. simpl. rewrite Hn.
    rewrite list_lookup_alter_eq.
    destruct (lookup_lt_is_Some_2 (nodes w) n (inv_node w HI n Hn))
      as [nd Hnd].
    rewrite Hnd. simpl. by eexists. }
  split; [done|]. split.
  { intros n nd Hlook Hon. destruct (ended nd) eqn:Hend; [done|].
    pose proof (inv_handler w' HI' n nd Hlook Hon Hend) as Hc.
    discriminate. }
  split; [intros envs; by apply quiet_runEnv|]. split.
  { intros r result Hr. destruct (Hcancelled r Hr) as (req & Hreq & Hout).
    unfold envStep. destruct w' as [e' reqs' nds' ts' sq'] eqn:Hw'.
    simpl in *. f_equal.
    apply list_eq. intros i. destruct (decide (r = i)) as [->|Hne].
    - rewrite list_lookup_alter_eq, Hreq. simpl.
      by rewrite settle_cancelled.
    - by rewrite list_lookup_alter_ne. }
  intros Hs. by apply stop_when_idle.
Qed.

(** ** One spoken sequence *)

Lemma seq_split a m (l1 l2 : list nat) :
  seq a m = l1 ++ l2 ->
  length l1 <= m /\ l2 = seq (a + length l1) (m - length l1).
Proof.
  intros Heq.
  assert (Hlen : m = length l1 + length l2).
  { apply (f_equal length) in Heq.
    by rewrite length_seq, length_app in Heq. }
  split; [lia|].
  rewrite Hlen, seq_app in Heq.
  apply app_inj_1 in Heq as [_ Heq]; [|by rewrite length_seq].
  rewrite <- Heq. f_equal. lia.
Qed.

Lemma Session_transfer base nbase ids voice w w' :
  Session base nbase ids voice w ->
  length (requests w') = length (requests w) ->
  path <$> requests w' = path <$> requests w ->
  keepsDone (requests w) (requests w') ->
  source <$> nodes w' = source <$> nodes w ->
  nodeBuffer <$> nodes w' = nodeBuffer <$> nodes w ->
  (isSpeaking (engine w') = true ->
   isSpeaking (engine w) = true
   /\ currentIds (engine w') = currentIds (engine w)
   /\ currentVoice (engine w') = currentVoice (engine w)
   /\ pendingReqs (engine w') = pendingReqs (engine w)) ->
  Session base nbase ids voice w'.
Proof.
  intros (n & k & Hk & Hn & Hlen & Hf & Hsp & Hsort & Hbound & Hready & Hnb)
    Hlen' Hpath Hdone Hsrc Hbuf He.
  exists n, k. unfold fetched, played in *.
  rewrite !fmap_drop.
  rewrite fmap_drop in Hf. rewrite fmap_drop in Hsort.
  rewrite fmap_drop in Hbound.
  rewrite Hpath, Hsrc, Hlen'.
  split_and!; try done.
  - intros Hs. destruct (He Hs) as (Hs0 & -> & -> & ->). by apply Hsp.
  - apply Forall_lookup. intros i nd' Hi. rewrite lookup_drop in Hi.
    apply (f_equal (fun l => l !! (nbase + i))) in Hsrc.
    apply (f_equal (fun l => l !! (nbase + i))) in Hbuf.
    rewrite !list_lookup_fmap, Hi in Hsrc.
    rewrite !list_lookup_fmap, Hi in Hbuf.
    destruct (nodes w !! (nbase + i)) as [nd|] eqn:Hnd; [|done].
    simpl in Hsrc, Hbuf. injection Hsrc as ->. injection Hbuf as ->.
    rewrite Forall_lookup in Hready.
    destruct (Hready i nd) as (req & Hreq & Hd & Hb);
      [by rewrite lookup_drop|].
    exists req. split_and!; try done. by apply Hdone.
  - apply (f_equal length) in Hsrc. rewrite !length_fmap in Hsrc. lia.
Qed.

Lemma keepsDone_refl store : keepsDone store store.
Proof. by intros r req Hreq _. Qed.

Lemma keepsDone_alter f r0 (store : list VoxRequest) :
  (forall req, isDone req = true -> f req = req) ->
  keepsDone store (alter f r0 store).
Proof.
  intros Hf r req Hreq Hd. destruct (decide (r0 = r)) as [->|Hne].
  - rewrite list_lookup_alter_eq, Hreq. simpl. by rewrite Hf.
  - by rewrite list_lookup_alter_ne.
Qed.

Lemma keepsDone_cancelAll reqs store : keepsDone store (cancelAll reqs store).
Proof.
  intros r req Hreq Hd. rewrite cancelAll_lookup, Hreq.
  case_bool_decide; [|done]. simpl. by rewrite cancel_done.
Qed.

Lemma nodeBuffer_alter f n (nds : list BufferNode) :
  (forall nd, nodeBuffer (f nd) = nodeBuffer nd) ->
  nodeBuffer <$> alter f n nds = nodeBuffer <$> nds.
Proof.
  intros Hf. rewrite (list_fmap_alter nodeBuffer f id).
  - by apply list_alter_id.
  - apply Forall_forall. intros nd _. apply Hf.
Qed.

Lemma path_alter f r (store : list VoxRequest) :
  (forall req, path (f req) = path req) ->
  path <$> alter f r store = path <$> store.
Proof.
  intros Hf. rewrite (list_fmap_alter path f id).
  - by apply list_alter_id.
  - apply Forall_forall. intros req _. apply Hf.
Qed.

Lemma source_alter f n (nds : list BufferNode) :
  (forall nd, source (f nd) = source nd) ->
  source <$> alter f n nds = source <$> nds.
Proof.
  intros Hf. rewrite (list_fmap_alter source f id).
  - by apply list_alter_id.
  - apply Forall_forall. intros nd _. apply Hf.
Qed.

Lemma path_cancelAll reqs : forall store,
  path <$> cancelAll reqs store = path <$> store.
Proof.
  induction reqs as [|r reqs IH]; intros store; [done|].
  change (cancelAll (r :: reqs) store)
    with (cancelAll reqs (alter cancel r store)).
  rewrite IH. apply path_alter, cancel_path.
Qed.

Lemma Session_stop base nbase ids voice w :
  Session base nbase ids voice w -> Session base nbase ids voice (stop w).
Proof.
  intros HS. eapply Session_transfer; [exact HS|..]; simpl.
  - apply cancelAll_length.
  - apply path_cancelAll.
  - apply keepsDone_cancelAll.
  - destruct (currentBufNode (engine w)); [|done]. by apply source_alter.
  - destruct (currentBufNode (engine w)); [|done]. by apply nodeBuffer_alter.
  - discriminate.
Qed.

Lemma Session_playNext base nbase ids voice w :
  Session base nbase ids voice w -> isSpeaking (engine w) = true ->
  Session base nbase ids voice (playNext w).
Proof.
  intros (n & k & Hk & Hn & Hlen & Hf & Hsp & Hsort & Hbound & Hready & Hnb)
    Hs.
  destruct (Hsp Hs) as (Hids & Hv & Hq).
  unfold playNext.
  destruct (playNextFrom_cases _ w eq_refl)
    as [(skipped & rest & Hq' & _ & ->)
       |(skipped & r & b & rest & Hq' & _ & Hr0 & _ & ->)];
    rewrite Hq in Hq'; apply seq_split in Hq' as [Hsk Hrest].
  - exists n, (k + length skipped). unfold fetched, played in *. simpl.
    split_and!; try done; try lia.
    + intros _. split_and!; try done. rewrite Hrest. f_equal; lia.
    + eapply Forall_impl; [exact Hbound|]. simpl. intros; lia.
  - assert (Hm : n - k - length skipped <> 0).
    { intros H0. rewrite H0 in Hrest. discriminate. }
    assert (Hr : r = base + k + length skipped
                 /\ rest = seq (S (base + k + length skipped))
                             (n - k - length skipped - 1)).
    { destruct (n - k - length skipped) as [|m] eqn:Hnk; [done|].
      simpl in Hrest. injection Hrest as -> ->. split; [done|].
      f_equal. lia. }
    destruct Hr as [-> ->].
    exists n, (k + length skipped + 1). unfold fetched, played in *. simpl.
    rewrite drop_app_le by done. rewrite fmap_app. simpl.
    split_and!; try done; try lia.
    + intros _. split_and!; try done. f_equal; lia.
    + apply StronglySorted_app_2; [|done|repeat constructor].
      intros x1 x2 Hx1 Hx2. apply list_elem_of_singleton in Hx2 as ->.
      rewrite Forall_forall in Hbound. specialize (Hbound x1 Hx1). lia.
    + apply Forall_app. split.
      * eapply Forall_impl; [exact Hbound|]. simpl. intros; lia.
      * repeat constructor; lia.
    + apply Forall_app. split; [exact Hready|].
      repeat constructor. exact Hr0.
    + rewrite length_app. simpl. lia.
Qed.

Lemma Session_refilled base nbase ids voice w m :
  Session base nbase ids voice w -> isSpeaking (engine w) = true ->
  (forall rest, currentIds (engine w) = Some rest -> m <= length rest) ->
  forall rest, currentIds (engine w) = Some rest ->
  Session base nbase ids voice (refilled voice rest m w).
Proof.
  intros (n & k & Hk & Hn & Hlen & Hf & Hsp & Hsort & Hbound & Hready & Hnb)
    Hs Hm rest Hrest.
  destruct (Hsp Hs) as (Hids & Hv & Hq).
  specialize (Hm rest Hrest). rewrite Hids in Hrest.
  injection Hrest as <-. rewrite length_drop in Hm.
  exists (n + m), k. unfold fetched, played in *. simpl.
  split_and!; try done; try lia.
  - rewrite length_app, length_fmap, length_take, length_drop. lia.
  - rewrite drop_app_le by lia. rewrite fmap_app, Hf.
    rewrite <- list_fmap_compose.
    rewrite <- fmap_app, take_take_drop. done.
  - intros _. split_and!; try done.
    + destruct m; [by rewrite Nat.add_0_r|].
      by rewrite drop_drop.
    + rewrite Hq, Hlen.
      replace (n + m - k) with ((n - k) + m) by lia.
      rewrite seq_app. do 2 f_equal. lia.
  - eapply Forall_impl; [exact Hready|]. simpl.
    intros nd (req & Hreq & Hd & Hb). exists req. split_and!; try done.
    by apply lookup_app_l_Some.
Qed.

Lemma Session_pump base nbase ids voice w :
  Session base nbase ids voice w -> Session base nbase ids voice (pump w).
Proof.
  intros HS.
  destruct (pump_cases w) as [->|(rest & voice' & Hs & Hids & Hv & Hp)];
    [done|].
  assert (HS' : Session base nbase ids voice (afterRefill voice' w)).
  { destruct (afterRefill_refilled voice' w rest Hids) as (m & Hm & _ & ->).
    destruct (playNext_fields w) as (Hs' & _ & Hids' & Hv' & _).
    assert (voice' = voice) as ->.
    { destruct HS as (n & k & _ & _ & _ & _ & Hsp & _).
      destruct (Hsp Hs) as (_ & Hv0 & _). congruence. }
    apply Session_refilled.
    - by apply Session_playNext.
    - by rewrite Hs'.
    - intros rest'. rewrite Hids', Hids. by intros [= <-].
    - by rewrite Hids'. }
  destruct Hp as [-> | ->].
  - by apply Session_stop.
  - eapply Session_transfer; [exact HS'|..]; try done.
    apply keepsDone_refl.
Qed.

Lemma Session_envStep base nbase ids voice ev w :
  Session base nbase ids voice w ->
  Session base nbase ids voice (envStep ev w).
Proof.
  intros HS. destruct ev as [t|r result|n]; simpl.
  - case_bool_decide; [|done]. apply Session_pump.
    eapply Session_transfer; [exact HS|..]; try done.
    apply keepsDone_refl.
  - eapply Session_transfer; [exact HS|..]; simpl; try done.
    + apply length_alter.
    + apply path_alter. intros req. apply settle_path.
    + apply keepsDone_alter. intros req. apply settle_done.
  - destruct (nodes w !! n) as [nd|]; [|done].
    destruct (started nd && negb (ended nd)); [|done].
    assert (HS1 : Session base nbase ids voice
              (mkWorld (engine w) (requests w)
                 (alter markEnded n (nodes w)) (timers w) (timerSeq w))).
    { eapply Session_transfer; [exact HS|..]; simpl; try done.
      - apply keepsDone_refl.
      - by apply source_alter.
      - by apply nodeBuffer_alter. }
    destruct (onended nd); [|done].
    unfold onendedCallback. simpl.
    destruct (isSpeaking (engine w)) eqn:Hs; simpl; [|done].
    apply Session_playNext; [|done].
    eapply Session_transfer; [exact HS1|..]; try done.
    apply keepsDone_refl.
Qed.

Lemma Session_runEnv base nbase ids voice evs w :
  Session base nbase ids voice w ->
  Session base nbase ids voice (runEnv evs w).
Proof.
  intros HS. induction evs as [|ev evs IH] using rev_ind; [done|].
  rewrite runEnv_snoc. by apply Session_envStep.
Qed.

Lemma Session_speak ids voice settings w :
  Inv w ->
  Session (length (requests w)) (length (nodes w)) ids voice
    (speak ids voice settings w).
Proof.
  intros HI. unfold speak. apply Session_pump.
  set (w0 := if isSpeaking (engine w) then stop w else w).
  assert (H0 : length (requests w0) = length (requests w)
               /\ length (nodes w0) = length (nodes w)
               /\ pendingReqs (engine w0) = []).
  { unfold w0. destruct (isSpeaking (engine w)) eqn:Hs.
    - simpl. rewrite cancelAll_length.
      split; [done|]. split; [|done].
      destruct (currentBufNode (engine w)); [|done]. apply length_alter.
    - destruct (inv_idle w HI Hs) as [He _]. by rewrite He. }
  destruct H0 as (Hr & Hn & Hq).
  exists 0, 0. unfold fetched, played. simpl.
  rewrite <- Hr, <- Hn, !drop_all, Hq. simpl.
  split_and!; try done; try lia; constructor.
Qed.

Lemma refill_truthy voice ids : forall w,
  Forall (fun id => truthy (Some id) = true) ids ->
  currentIds (engine w) = Some ids ->
  refill voice ids w
  = refilled voice ids
      (Nat.min (10 - length (pendingReqs (engine w))) (length ids)) w.
Proof.
  induction ids as [|id rest IH]; intros w Htruthy Hids.
  - rewrite Nat.min_0_r. refilled_none w.
  - apply Forall_cons in Htruthy as [Hid Hrest].
    cbn [refill]. rewrite Hid. simpl.
    destruct (Nat.ltb_spec (length (pendingReqs (engine w))) 10)
      as [Hroom|Hfull].
    2:{ replace (10 - length (pendingReqs (engine w))) with 0 by lia.
        refilled_none w. }
    rewrite IH by done. simpl.
    rewrite length_app. simpl.
    replace (10 - length (pendingReqs (engine w)))
      with (S (10 - (length (pendingReqs (engine w)) + 1))) by lia.
    rewrite <- Nat.succ_min_distr.
    set (m := Nat.min _ _).
    unfold refilled, pushRequest. simpl.
    rewrite !length_app, <- !app_assoc. simpl.
    rewrite Nat.add_1_r. f_equal.
    f_equal. by destruct m.
Qed.

Lemma playNext_empty w : pendingReqs (engine w) = [] -> playNext w = w.
Proof. unfold playNext. by intros ->. Qed.

Lemma speak_first_window ids voice settings w :
  Inv w ->
  Forall (fun id => truthy (Some id) = true) ids ->
  afterRefill voice (speaking ids voice settings w)
  = refilled voice ids (Nat.min 10 (length ids))
      (speaking ids voice settings w)
  /\ pendingReqs (engine (speaking ids voice settings w)) = []
  /\ currentBufNode (engine (speaking ids voice settings w)) = None
  /\ length (requests (speaking ids voice settings w)) = length (requests w)
  /\ nodes (speaking ids voice settings w)
     = nodes (if isSpeaking (engine w) then stop w else w).
Proof.
  intros HI Htruthy.
  assert (Hq : pendingReqs (engine (speaking ids voice settings w)) = []
               /\ currentBufNode (engine (speaking ids voice settings w))
                  = None).
  { unfold speaking. simpl. destruct (isSpeaking (engine w)) eqn:Hs; [done|].
    destruct (inv_idle w HI Hs) as [-> _]. done. }
  destruct Hq as [Hq Hn]. split_and!; try done.
  - unfold afterRefill. rewrite (playNext_empty _ Hq).
    change (currentIds (engine (speaking ids voice settings w)))
      with (Some ids). simpl.
    rewrite refill_truthy by done. by rewrite Hq.
  - unfold speaking. simpl. destruct (isSpeaking (engine w)); [|done].
    simpl. apply cancelAll_length.
Qed.

Lemma speak_issues_first_window ids voice settings w0 :
  Inv w0 ->
  Forall (fun id => truthy (Some id) = true) ids ->
  fetched (length (requests w0)) (speak ids voice settings w0)
  = pathOf voice <$> take 10 ids.
Proof.
  intros HI Htruthy.
  destruct (speak_first_window ids voice settings w0 HI Htruthy)
    as (Href & Hq & Hn & Hlen & _).
  assert (Hfetched : forall w1,
             path <$> requests w1
             = path <$> requests (afterRefill voice
                                    (speaking ids voice settings w0)) ->
             fetched (length (requests w0)) w1
             = pathOf voice <$> take 10 ids).
  { intros w1 Hw1. unfold fetched. rewrite fmap_drop, Hw1, Href.
    assert (Htake : take (Nat.min 10 (length ids)) ids = take 10 ids).
    { destruct (Nat.min_spec 10 (length ids)) as [[_ ->]|[Hle ->]];
        [done|]. by rewrite !take_ge by lia. }
    unfold refilled. cbn [requests]. rewrite Htake.
    rewrite fmap_app, <- Hlen, <- (length_fmap path).
    by rewrite drop_app_length, <- list_fmap_compose. }
  assert (Hsp : isSpeaking (engine (speaking ids voice settings w0)) = true)
    by done.
  change (speak ids voice settings w0)
    with (pump (speaking ids voice settings w0)).
  destruct (pump_decision (speaking ids voice settings w0) ids voice
              Hsp eq_refl eq_refl)
    as (_ & rest & _ & [(_ & _ & ->)|(_ & ->)]); apply Hfetched.
  - simpl. apply path_cancelAll.
  - done.
Qed.

(** C1 (as stated, refuted). Speaking a sequence that starts with a
    silence makes the engine fetch the silence too: the requests issued
    are not those of the non-silence keys. *)
Lemma speak_fetches_silence_keys :
  let ids := [Silence 0.2; Segment "station.KGX.mid"] in
  let w := speak ids sampleVoice sampleSettings init in
  fetched 0 w = ["voices/en-GB/0.2.mp3"; "voices/en-GB/station.KGX.mid.mp3"]
  /\ fetched 0 w
     <> pathOf sampleVoice <$> filter (fun k => isSegment k) ids.
Proof. split; [by vm_compute|]. vm_compute. discriminate. Qed.

(** C1 (amended). The engine issues its fetch requests for the keys of
    the sequence in their original order, one per key, silence keys
    included: whatever the engine did before and whatever the events after
    [speak], the requests issued since [speak] are those of a prefix of
    the sequence and, while the engine speaks, the ids it still holds are
    the rest of the sequence; and when every key is truthy the call of
    [speak] itself issues the requests of the first 10 keys. *)
Theorem speak_fetches_every_key_in_order (pre : list Event)
    (ids : list VoxKey) (voice : Voice) (settings : SpeechSettings)
    (evs : list EnvEvent) :
  let w0 := run pre init in
  let w := runEnv evs (speak ids voice settings w0) in
  (exists n,
      fetched (length (requests w0)) w = pathOf voice <$> take n ids
      /\ (isSpeaking (engine w) = true ->
          currentIds (engine w) = Some (drop n ids)))
  /\ (Forall (fun id => truthy (Some id) = true) ids ->
      fetched (length (requests w0)) (speak ids voice settings w0)
      = pathOf voice <$> take 10 ids).
Proof.
  intros w0 w. pose proof (Inv_run pre) as HI. fold w0 in HI. split.
  - destruct (Session_runEnv _ _ ids voice evs _
                (Session_speak ids voice settings w0 HI))
      as (n & k & _ & _ & _ & Hf & Hsp & _).
    exists n. split; [exact Hf|]. intros Hs. by destruct (Hsp Hs).
  - by apply speak_issues_first_window.
Qed.

(** C2. Whatever the engine did before, whatever the sequence spoken and
    in whatever order its requests settle, its timers fire and its nodes
    end, the requests played since [speak] are played in increasing order
    of issue, each is the request of the key at its position in the input
    sequence, and each node plays the buffer of its request, which is
    complete; [playNext] only ever takes a prefix off the pending queue and
    plays, of the requests it takes off, the one that has a buffer. *)
Theorem playback_follows_input_order (pre : list Event)
    (ids : list VoxKey) (voice : Voice) (settings : SpeechSettings)
    (evs : list EnvEvent) :
  let w0 := run pre init in
  let w := runEnv evs (speak ids voice settings w0) in
  let base := length (requests w0) in
  let p := played (length (nodes w0)) w in
  StronglySorted lt p
  /\ Forall (fun r => exists i id req,
                r = base + i /\ ids !! i = Some id
                /\ requests w !! r = Some req
                /\ path req = pathOf voice id) p
  /\ Forall (fun nd => ready w (source nd) (nodeBuffer nd))
       (drop (length (nodes w0)) (nodes w))
  /\ (forall w1, exists dequeued,
        pendingReqs (engine w1)
        = dequeued ++ pendingReqs (engine (playNext w1))
        /\ played (length (nodes w1)) (playNext w1)
           = filter (fun r => hasBuffer w1 r) dequeued
        /\ length (played (length (nodes w1)) (playNext w1)) <= 1).
Proof.
  intros w0 w base p. pose proof (Inv_run pre) as HI. fold w0 in HI.
  destruct (Session_runEnv _ _ ids voice evs _
              (Session_speak ids voice settings w0 HI))
    as (n & k & Hk & Hn & Hlen & Hf & _ & Hsort & Hbound & Hready & _).
  fold w in Hlen, Hf, Hsort, Hbound, Hready.
  fold base in Hlen, Hf, Hbound.
  split; [exact Hsort|]. split; [|split; [exact Hready|]];
    [|apply playNext_dequeues].
  eapply Forall_impl; [exact Hbound|]. simpl. intros r [Hlo Hhi].
  assert (Hi : r - base < length ids) by lia.
  destruct (lookup_lt_is_Some_2 ids (r - base) Hi) as [id Hid].
  assert (Hlook : (pathOf voice <$> take n ids) !! (r - base)
                  = Some (pathOf voice id)).
  { rewrite list_lookup_fmap, lookup_take_lt by lia. by rewrite Hid. }
  rewrite <- Hf in Hlook. unfold fetched in Hlook.
  rewrite list_lookup_fmap, lookup_drop in Hlook.
  replace (base + (r - base)) with r in Hlook by lia.
  destruct (requests w !! r) as [req|] eqn:Hreq; [|done].
  exists (r - base), id, req. split_and!; try done; [lia|].
  by injection Hlook.
Qed.

(** C6. When the request at the head of the queue is complete without a
    buffer, [playNext] drops it and goes on with the rest of the queue in
    the same call: the outcome is that of [playNext] on the queue without
    it, no node is made for a request without a buffer, and a next request
    that is complete with a buffer starts playing at once. *)
Theorem playNext_skips_failed w r rest req :
  currentBufNode (engine w) = None ->
  pendingReqs (engine w) = r :: rest ->
  requests w !! r = Some req ->
  isDone req = true ->
  buffer req = None ->
  playNext w = playNext (setEngine (setPendingReqs rest (engine w)) w)
  /\ Forall (fun nd => hasBuffer w (source nd) = true)
       (drop (length (nodes w)) (nodes (playNext w)))
  /\ (forall r2 rest2 b, rest = r2 :: rest2 -> ready w r2 b ->
        nodes (playNext w)
        = nodes w ++ [mkBufferNode b r2 true true false true false]
        /\ currentBufNode (engine (playNext w)) = Some (length (nodes w))
        /\ pendingReqs (engine (playNext w)) = rest2).
Proof.
  intros Hn Hq Hreq Hdone Hbuf.
  assert (Hstep : playNext w
                  = playNext (setEngine (setPendingReqs rest (engine w)) w)).
  { unfold playNext. rewrite Hq. cbn [playNextFrom].
    rewrite Hreq, Hdone, Hn, Hbuf. reflexivity. }
  split; [exact Hstep|]. split.
  - unfold playNext at 1.
    destruct (playNextFrom_cases _ w eq_refl)
      as [(skipped & rest' & _ & _ & ->)
         |(skipped & r' & b & rest' & _ & _ & Hr' & _ & ->)]; simpl.
    + rewrite drop_all. constructor.
    + rewrite drop_app_length. repeat constructor. simpl.
      by apply (ready_has_buffer w r' b).
  - intros r2 rest2 b -> (req2 & Hreq2 & Hdone2 & Hbuf2).
    rewrite Hstep. unfold playNext. cbn [playNextFrom]. simpl.
    rewrite Hreq2, Hdone2, Hn, Hbuf2. done.
Qed.

Lemma speak_fetches_every_key_in_order_witness :
  fetched 0 (speak sampleIds sampleVoice sampleSettings init)
  = pathOf sampleVoice <$> take 10 sampleIds.
Proof.
  apply (proj2 (speak_fetches_every_key_in_order [] sampleIds sampleVoice
                  sampleSettings [])).
  repeat constructor.
Defined.

Lemma playback_follows_input_order_witness :
  let w := runEnv sampleOutOfOrder sampleSpeaking in
  played 0 w = [0; 1; 2]
  /\ nodeBuffer <$> nodes w = [[1]; [2]; [3]]%Z
  /\ StronglySorted lt (played 0 w).
Proof.
  split; [reflexivity|]. split; [reflexivity|].
  exact (proj1 (playback_follows_input_order [] sampleIds sampleVoice
                  sampleSettings sampleOutOfOrder)).
Defined.

Lemma stop_is_total_witness :
  exists nd, nodes (stop (run sampleMidPlayback init)) !! 0 = Some nd
             /\ stopped nd = true /\ connected nd = false
             /\ onended nd = false.
Proof.
  apply (proj1 (proj2 (proj2 (stop_is_total sampleMidPlayback)))).
  reflexivity.
Defined.

Lemma pump_stops_only_when_drained_witness :
  (pump sampleSpeaking = armPumpTimer (afterRefill sampleVoice sampleSpeaking)
   /\ isSpeaking (engine (pump sampleSpeaking)) = true
   /\ pumpTimer (engine (pump sampleSpeaking)) ∈ timers (pump sampleSpeaking))
  /\ (pump sampleDraining = stop (afterRefill sampleVoice sampleDraining)
      /\ isSpeaking (engine (pump sampleDraining)) = false).
Proof.
  split.
  - apply (pump_stops_only_when_drained sampleSpeaking
             [Segment "s11"; Segment "s12"] sampleVoice);
      [reflexivity..|].
    intros [Hids _]. vm_compute in Hids. discriminate.
  - apply (pump_stops_only_when_drained sampleDraining
             [Segment "s12"] sampleVoice);
      [reflexivity..|].
    split; reflexivity.
Defined.

Lemma playNext_skips_failed_witness :
  nodes (playNext sampleFailedHead)
  = nodes sampleFailedHead
    ++ [mkBufferNode sampleBuffer 1 true true false true false]
  /\ currentBufNode (engine (playNext sampleFailedHead)) = Some 0
  /\ pendingReqs (engine (playNext sampleFailedHead)) = [2; 3; 4; 5; 6; 7; 8; 9].
Proof.
  apply (proj2 (proj2 (playNext_skips_failed sampleFailedHead 0
                         [1; 2; 3; 4; 5; 6; 7; 8; 9]
                         (mkRequest "voices/en-GB/s01.mp3" true None false)
                         eq_refl eq_refl eq_refl eq_refl eq_refl))
           1 [2; 3; 4; 5; 6; 7; 8; 9] sampleBuffer eq_refl).
  exists (mkRequest "voices/en-GB/s02.mp3" true (Some sampleBuffer) false).
  repeat split.
Defined.



End VoxEngineProps.

(** * Further properties of the vox engine *)

Module VoxEngineExtra.
Import VoxEngine VoxEngineSpec VoxEngineMore VoxEngineProps.

Lemma nodeOk_fresh r b : nodeOk (freshNode r b).
Proof. by split. Qed.

Lemma isPlaying_fresh r b : isPlaying (freshNode r b) = true.
Proof. reflexivity. Qed.

Lemma nodeOk_killNode nd : nodeOk nd -> nodeOk (killNode nd).
Proof. intros [Hst _]. split; [exact Hst|]. simpl. discriminate. Qed.

Lemma nodeOk_markEnded nd : nodeOk nd -> nodeOk (markEnded nd).
Proof. intros [Hst Hon]. split; [exact Hst|exact Hon]. Qed.

Lemma playNext_nodes w :
  (nodes (playNext w) = nodes w
   /\ currentBufNode (engine (playNext w)) = currentBufNode (engine w))
  \/ (exists r b,
        ready w r b
        /\ currentBufNode (engine w) = None
        /\ nodes (playNext w) = nodes w ++ [freshNode r b]
        /\ currentBufNode (engine (playNext w)) = Some (length (nodes w))).
Proof.
  unfold playNext.
  destruct (playNextFrom_cases _ w eq_refl)
    as [(skipped & rest & _ & _ & ->)
       |(skipped & r & b & rest & _ & _ & Hr & Hn & ->)].
  - by left.
  - right. by exists r, b.
Qed.

Lemma afterRefill_nodes voice w ids :
  currentIds (engine w) = Some ids ->
  nodes (afterRefill voice w) = nodes (playNext w)
  /\ currentBufNode (engine (afterRefill voice w))
     = currentBufNode (engine (playNext w)).
Proof.
  intros Hids.
  by destruct (afterRefill_refilled voice w ids Hids) as (m & _ & _ & ->).
Qed.

Lemma pump_not_speaking w : isSpeaking (engine w) = false -> pump w = w.
Proof.
  intros Hs. unfold pump. rewrite Hs.
  destruct (currentIds (engine w)); [|done].
  by destruct (currentVoice (engine w)).
Qed.

(** What [pump] leaves of the nodes and of the playing node. *)
Lemma pump_nodes w :
  pump w = w
  \/ (nodes (pump w) = nodes (playNext w)
      /\ currentBufNode (engine (pump w))
         = currentBufNode (engine (playNext w)))
  \/ (currentBufNode (engine (pump w)) = None
      /\ (nodes (pump w) = nodes (playNext w)
          \/ exists n, currentBufNode (engine (playNext w)) = Some n
                       /\ nodes (pump w)
                          = alter killNode n (nodes (playNext w)))).
Proof.
  destruct (pump_cases w) as [->|(ids & voice & Hs & Hids & Hv & Hp)];
    [by left|].
  destruct (afterRefill_nodes voice w ids Hids) as [Hn Hc].
  destruct Hp as [-> | ->].
  - right. right. split; [done|]. simpl. rewrite Hc, Hn.
    destruct (currentBufNode (engine (playNext w))) as [n|]; [|by left].
    right. by exists n.
  - right. left. simpl. by rewrite Hn, Hc.
Qed.

Lemma NodeInv_stop w : NodeInv w -> NodeInv (stop w).
Proof.
  intros [HI Hok Hslot]. split.
  - by apply Inv_stop.
  - simpl. destruct (currentBufNode (engine w)); [|done].
    apply Forall_alter; [done|]. intros nd _. apply nodeOk_killNode.
  - simpl. discriminate.
Qed.

Lemma NodeInv_playNext w :
  NodeInv w -> isSpeaking (engine w) = true -> NodeInv (playNext w).
Proof.
  intros [HI Hok Hslot] Hs. split.
  - by apply Inv_playNext.
  - destruct (playNext_nodes w) as [[-> _]|(r & b & _ & _ & -> & _)];
      [done|].
    apply Forall_app. split; [done|]. repeat constructor.
  - destruct (playNext_nodes w) as [[-> ->]|(r & b & _ & _ & -> & ->)];
      [done|].
    intros n [= <-]. exists (freshNode r b). split; [|done].
    by rewrite lookup_app_r, Nat.sub_diag.
Qed.

Lemma NodeInv_afterRefill voice w ids :
  NodeInv w -> isSpeaking (engine w) = true ->
  currentIds (engine w) = Some ids ->
  NodeInv (afterRefill voice w).
Proof.
  intros HN Hs Hids.
  destruct (NodeInv_playNext w HN Hs) as [_ Hok Hslot].
  destruct (afterRefill_nodes voice w ids Hids) as [Hn Hc].
  split.
  - by apply (Inv_afterRefill voice w ids (ni_inv w HN)).
  - by rewrite Hn.
  - rewrite Hn, Hc. exact Hslot.
Qed.

Lemma NodeInv_pump w : NodeInv w -> timers w = [] -> NodeInv (pump w).
Proof.
  intros HN Ht.
  destruct (pump_cases w) as [->|(ids & voice & Hs & Hids & Hv & Hp)];
    [done|].
  pose proof (NodeInv_afterRefill voice w ids HN Hs Hids) as HN'.
  destruct (Inv_afterRefill voice w ids (ni_inv w HN) Hs Hids)
    as (_ & Hs' & Ht').
  destruct Hp as [-> | ->].
  - by apply NodeInv_stop.
  - destruct HN' as [HI' Hok' Hslot']. split; [|done..].
    apply Inv_armPumpTimer; try done. by rewrite Ht'.
Qed.

Lemma NodeInv_speak ids voice settings w :
  NodeInv w -> NodeInv (speak ids voice settings w).
Proof.
  intros HN.
  assert (HN0 : NodeInv (if isSpeaking (engine w) then stop w else w)
                /\ timers (if isSpeaking (engine w) then stop w else w) = []
                /\ engine (if isSpeaking (engine w) then stop w else w)
                   = idle (pumpTimer (engine w))).
  { destruct (isSpeaking (engine w)) eqn:Hs.
    - split; [by apply NodeInv_stop|]. split; [|done].
      simpl. apply filter_timer, (inv_timers w (ni_inv w HN)).
    - split; [done|]. by destruct (inv_idle w (ni_inv w HN) Hs). }
  destruct HN0 as ([HI0 Hok0 Hslot0] & Ht0 & He0).
  unfold speak. apply NodeInv_pump; [|exact Ht0].
  split; [|exact Hok0|].
  - destruct HI0 as [Hwin Htim Hidle Hreqs Hnode Hh].
    split; simpl; rewrite ?He0 in *; simpl in *; done.
  - simpl. rewrite He0. simpl. discriminate.
Qed.

Lemma NodeInv_envStep ev w : NodeInv w -> NodeInv (envStep ev w).
Proof.
  intros HN. pose proof HN as [HI Hok Hslot].
  destruct ev as [t|r result|n]; simpl.
  - case_bool_decide as Hin; [|done].
    apply NodeInv_pump.
    + split; [by apply Inv_clearTimeout|done..].
    + simpl. destruct (inv_timers w HI) as [Ht|Ht]; rewrite Ht in *.
      * done.
      * apply list_elem_of_singleton in Hin as ->.
        rewrite filter_cons_False; [done|]. intros Hne. by apply Hne.
  - split; [|done..].
    destruct HI as [Hwin Htim Hidle Hreqs Hnode Hh].
    split; simpl; try done. by rewrite length_alter.
  - destruct (nodes w !! n) as [nd|] eqn:Hnd; [|done].
    destruct (started nd && negb (ended nd)) eqn:Hplaying; [|done].
    pose proof (Inv_envStep (NodeEnds n) w HI) as HIstep.
    simpl in HIstep. rewrite Hnd, Hplaying in HIstep.
    assert (Hok' : Forall nodeOk (alter markEnded n (nodes w))).
    { apply Forall_alter; [done|]. intros ? _. apply nodeOk_markEnded. }
    destruct (onended nd) eqn:Hon.
    + unfold onendedCallback in *. simpl in *.
      destruct (isSpeaking (engine w)) eqn:Hs; simpl in *.
      * apply NodeInv_playNext; [|done].
        split; [|done|simpl; discriminate].
        apply andb_true_iff in Hplaying as [_ Hend].
        apply negb_true_iff in Hend.
        pose proof (inv_handler w HI n nd Hnd Hon Hend) as Hcur.
        destruct HI as [Hwin Htim Hidle Hreqs Hnode Hh].
        split; simpl; try done; [intros Hs'; congruence|].
        intros m md Hlook Hon' Hend'. exfalso.
        destruct (decide (n = m)) as [->|Hne].
        -- rewrite list_lookup_alter_eq, Hnd in Hlook. by simplify_eq/=.
        -- rewrite list_lookup_alter_ne in Hlook by done.
           pose proof (Hh m md Hlook Hon' Hend'). congruence.
      * split; [done..|]. simpl.
        destruct (inv_idle w HI Hs) as [-> _]. discriminate.
    + split; [done..|]. simpl. intros c Hc.
      destruct (Hslot c Hc) as (cd & Hcd & Hpl).
      assert (c <> n) as Hne.
      { intros ->. rewrite Hnd in Hcd. injection Hcd as <-.
        unfold isPlaying in Hpl.
        apply andb_true_iff in Hpl as [Hpl _].
        apply andb_true_iff in Hpl as [_ Hstop].
        apply negb_true_iff in Hstop.
        rewrite Forall_lookup in Hok.
        destruct (Hok n nd Hnd) as [_ Hcb]. rewrite (Hcb Hstop) in Hon.
        discriminate. }
      exists cd. split; [|done]. by rewrite list_lookup_alter_ne.
Qed.

Lemma NodeInv_run evs : NodeInv (run evs init).
Proof.
  induction evs as [|ev evs IH] using rev_ind.
  - split; [apply Inv_init|constructor|discriminate].
  - rewrite run_snoc. destruct ev as [ids voice settings| |ev]; simpl.
    + by apply NodeInv_speak.
    + by apply NodeInv_stop.
    + by apply NodeInv_envStep.
Qed.

(** X2. At any time at most one buffer node sounds, and it is the node in
    [currentBufNode]: in every world the engine reaches a node that is
    started and neither stopped nor ended is the current node, the current
    node is such a node, and while there is a current node [playNext]
    changes nothing. *)
Theorem single_playback_slot (evs : list Event) :
  let w := run evs init in
  (forall n nd, nodes w !! n = Some nd ->
     (isPlaying nd = true <-> currentBufNode (engine w) = Some n))
  /\ (forall n m nd md,
        nodes w !! n = Some nd -> nodes w !! m = Some md ->
        isPlaying nd = true -> isPlaying md = true -> n = m)
  /\ (is_Some (currentBufNode (engine w)) -> playNext w = w).
Proof.
  intros w. destruct (NodeInv_run evs) as [HI Hok Hslot]. fold w in HI, Hok, Hslot.
  assert (Hcur : forall n nd, nodes w !! n = Some nd -> isPlaying nd = true ->
                   currentBufNode (engine w) = Some n).
  { intros n nd Hnd Hpl. unfold isPlaying in Hpl.
    apply andb_true_iff in Hpl as [Hpl Hend].
    apply andb_true_iff in Hpl as [_ Hstop].
    apply negb_true_iff in Hend. apply negb_true_iff in Hstop.
    rewrite Forall_lookup in Hok. destruct (Hok n nd Hnd) as [_ Hcb].
    by apply (inv_handler w HI n nd Hnd (Hcb Hstop)). }
  split; [|split].
  - intros n nd Hnd. split; [by apply Hcur|].
    intros Hc. destruct (Hslot n Hc) as (nd' & Hnd' & Hpl). congruence.
  - intros n m nd md Hnd Hmd Hpn Hpm.
    pose proof (Hcur n nd Hnd Hpn). pose proof (Hcur m md Hmd Hpm).
    congruence.
  - intros [c Hc]. unfold playNext.
    destruct (pendingReqs (engine w)) as [|r rest]; [done|].
    cbn [playNextFrom]. destruct (requests w !! r) as [req|]; [|done].
    rewrite Hc. rewrite bool_decide_eq_true_2 by eauto.
    by rewrite orb_true_r.
Qed.

Lemma single_playback_slot_witness :
  playNext (run sampleMidPlayback init) = run sampleMidPlayback init.
Proof.
  apply (proj2 (proj2 (single_playback_slot sampleMidPlayback))).
  by exists 0.
Defined.

Lemma Ticking_pump w :
  Inv w -> timers w = [] ->
  (isSpeaking (engine w) = true ->
   is_Some (currentIds (engine w)) /\ is_Some (currentVoice (engine w))) ->
  Ticking (pump w).
Proof.
  intros HI Ht Hheld.
  destruct (isSpeaking (engine w)) eqn:Hs.
  2:{ rewrite pump_not_speaking by done. intros Hs'. congruence. }
  destruct (Hheld eq_refl) as [[ids Hids] [voice Hv]].
  destruct (pump_decision w ids voice Hs Hids Hv)
    as (Hs' & rest & Hrest & [(_ & _ & ->)|(_ & ->)]).
  - intros Hsp. discriminate.
  - destruct (Inv_afterRefill voice w ids HI Hs Hids) as (_ & _ & Ht').
    destruct (afterRefill_refilled voice w ids Hids) as (m & _ & _ & Href).
    destruct (playNext_fields w) as (_ & _ & _ & Hv' & _).
    intros _. simpl. rewrite Hrest, Ht', Ht. split_and!; try done.
    rewrite Href. simpl. rewrite Hv', Hv. by eexists.
Qed.

Lemma Ticking_envStep ev w : Inv w -> Ticking w -> Ticking (envStep ev w).
Proof.
  intros HI HT. destruct ev as [t|r result|n]; simpl.
  - case_bool_decide as Hin; [|done].
    apply Ticking_pump.
    + by apply Inv_clearTimeout.
    + simpl. destruct (inv_timers w HI) as [Ht|Ht]; rewrite Ht in *.
      * done.
      * apply list_elem_of_singleton in Hin as ->.
        rewrite filter_cons_False; [done|]. intros Hne. by apply Hne.
    + simpl. intros Hs. by destruct (HT Hs) as (? & ? & _).
  - exact HT.
  - destruct (nodes w !! n) as [nd|]; [|done].
    destruct (started nd && negb (ended nd)); [|done].
    destruct (onended nd); [|exact HT].
    unfold onendedCallback. simpl.
    destruct (isSpeaking (engine w)) eqn:Hs; simpl; [|exact HT].
    match goal with
    | |- Ticking (playNext ?x) =>
        destruct (playNext_fields x) as (Hs' & Hp & Hi & Hv & _ & _ & Ht & _)
    end.
    simpl in *. intros _. unfold Ticking in HT. rewrite Hs in HT.
    rewrite Hi, Hv, Ht, Hp. by apply HT.
Qed.

Lemma Ticking_run evs : Ticking (run evs init).
Proof.
  induction evs as [|ev evs IH] using rev_ind; [discriminate|].
  rewrite run_snoc. pose proof (Inv_run evs) as HI.
  destruct ev as [ids voice settings| |ev]; simpl.
  - unfold speak. apply Ticking_pump.
    + assert (HI0 : Inv (if isSpeaking (engine (run evs init))
                         then stop (run evs init) else run evs init)).
      { destruct (isSpeaking (engine (run evs init))); [by apply Inv_stop|done]. }
      destruct HI0 as [Hwin Htim Hidle Hreqs Hnode Hh].
      assert (He : timers (if isSpeaking (engine (run evs init))
                           then stop (run evs init) else run evs init) = []
                   /\ engine (if isSpeaking (engine (run evs init))
                              then stop (run evs init) else run evs init)
                      = idle (pumpTimer (engine (run evs init)))).
      { destruct (isSpeaking (engine (run evs init))) eqn:Hs.
        - split; [|done]. simpl. apply filter_timer, (inv_timers _ HI).
        - by destruct (inv_idle _ HI Hs). }
      destruct He as [Ht He].
      split; simpl; rewrite ?He in *; simpl in *; done.
    + simpl. destruct (isSpeaking (engine (run evs init))) eqn:Hs.
      * simpl. apply filter_timer, (inv_timers _ HI).
      * by destruct (inv_idle _ HI Hs).
    + simpl. intros _. split; by eexists.
  - intros Hs. discriminate.
  - by apply Ticking_envStep.
Qed.

(** X3. The pump never dies while the engine speaks and never outlives
    it: in every world the engine reaches, a speaking engine holds its ids
    and its voice and has exactly one timeout armed, the one in
    [pumpTimer]; an engine that is not speaking has none armed. *)
Theorem pump_timer_armed_iff_speaking (evs : list Event) :
  let w := run evs init in
  (if isSpeaking (engine w)
   then timers w = [pumpTimer (engine w)]
        /\ is_Some (currentIds (engine w))
        /\ is_Some (currentVoice (engine w))
   else timers w = [] /\ engine w = idle (pumpTimer (engine w)))
  /\ length (timers w) <= 1.
Proof.
  intros w. pose proof (Ticking_run evs) as HT. pose proof (Inv_run evs) as HI.
  fold w in HT, HI. unfold Ticking in HT.
  destruct (isSpeaking (engine w)) eqn:Hs.
  - destruct (HT eq_refl) as (Hi & Hv & Ht). rewrite Ht. by split_and!.
  - destruct (inv_idle w HI Hs) as [He Ht]. rewrite Ht. split_and!; try done.
    simpl. lia.
Qed.

Lemma refill_falsy voice id rest w :
  truthy (Some id) = false -> refill voice (id :: rest) w = w.
Proof. intros Hf. cbn [refill]. by rewrite Hf. Qed.

Lemma StuckOn_envStep id rest voice ev w :
  truthy (Some id) = false ->
  StuckOn id rest voice w ->
  StuckOn id rest voice (envStep ev w)
  /\ requests (envStep ev w) = match ev with
                               | FetchSettles r result =>
                                   alter (settle result) r (requests w)
                               | _ => requests w
                               end.
Proof.
  intros Hf (Hs & Hids & Hv).
  destruct ev as [t|r result|n]; simpl.
  - case_bool_decide as Hin; [|done].
    destruct (pump_decision (clearTimeout t w) (id :: rest) voice Hs Hids Hv)
      as (_ & rest' & Hrest & Hp).
    assert (Hsame : afterRefill voice (clearTimeout t w)
                    = playNext (clearTimeout t w)).
    { unfold afterRefill.
      destruct (playNext_fields (clearTimeout t w)) as (_ & _ & -> & _).
      simpl. rewrite Hids. simpl. by apply refill_falsy. }
    rewrite Hsame in Hrest, Hp.
    destruct (playNext_fields (clearTimeout t w))
      as (Hs' & _ & Hi' & Hv' & _ & Hr' & _).
    simpl in Hs', Hi', Hv', Hr'.
    rewrite Hi', Hids in Hrest. injection Hrest as <-.
    destruct Hp as [(Hnil & _)|(_ & ->)]; [done|].
    split; [|by simpl]. split_and!; simpl; congruence.
  - done.
  - destruct (nodes w !! n) as [nd|]; [|done].
    destruct (started nd && negb (ended nd)); [|done].
    destruct (onended nd); [|done].
    unfold onendedCallback. simpl. rewrite Hs. simpl.
    match goal with
    | |- StuckOn _ _ _ (playNext ?x) /\ _ =>
        destruct (playNext_fields x) as (Hs' & _ & Hi' & Hv' & _ & Hr' & _)
    end.
    simpl in *. split; [|done]. split_and!; congruence.
Qed.

(** X4. A falsy id blocks the engine for good: once the head of the ids
    is the empty string or zero, whatever the event loop runs, the engine
    issues no further request, keeps the same ids and never stops by
    itself. *)
Theorem falsy_id_blocks_the_queue (id : VoxKey) (rest : list VoxKey)
    (voice : Voice) (w : World) (evs : list EnvEvent) :
  truthy (Some id) = false ->
  isSpeaking (engine w) = true ->
  currentIds (engine w) = Some (id :: rest) ->
  currentVoice (engine w) = Some voice ->
  let w' := runEnv evs w in
  isSpeaking (engine w') = true
  /\ currentIds (engine w') = Some (id :: rest)
  /\ fetched 0 w' = fetched 0 w.
Proof.
  intros Hf Hs Hids Hv w'.
  assert (H : StuckOn id rest voice w'
              /\ path <$> requests w' = path <$> requests w).
  { unfold w'. induction evs as [|ev evs IH] using rev_ind; [done|].
    rewrite runEnv_snoc. destruct IH as [HS Hp].
    destruct (StuckOn_envStep id rest voice ev (runEnv evs w) Hf HS)
      as [HS' Hr].
    split; [exact HS'|]. rewrite Hr.
    destruct ev as [t|r result|n]; try done.
    rewrite <- Hp. apply path_alter. intros req. apply settle_path. }
  destruct H as [(Hs' & Hids' & _) Hp].
  unfold fetched. by rewrite !drop_0.
Qed.

Lemma falsy_id_blocks_the_queue_witness :
  let w' := runEnv [FetchSettles 0 (Some [1]%Z); TimerFires 1; NodeEnds 0;
                    TimerFires 2; TimerFires 3] sampleBlocked in
  isSpeaking (engine w') = true
  /\ currentIds (engine w') = Some [Segment ""; Segment "s03"]
  /\ fetched 0 w' = fetched 0 sampleBlocked.
Proof.
  apply (falsy_id_blocks_the_queue (Segment "") [Segment "s03"] sampleVoice
           sampleBlocked); reflexivity.
Defined.

Lemma ready_nodes_transfer w w' :
  Forall (fun nd => ready w (source nd) (nodeBuffer nd)) (nodes w) ->
  keepsDone (requests w) (requests w') ->
  source <$> nodes w' = source <$> nodes w ->
  nodeBuffer <$> nodes w' = nodeBuffer <$> nodes w ->
  Forall (fun nd => ready w' (source nd) (nodeBuffer nd)) (nodes w').
Proof.
  intros Hr Hk Hs Hb. apply Forall_lookup. intros i nd' Hi.
  assert (Hs' : (source <$> nodes w) !! i = Some (source nd')).
  { by rewrite <- Hs, list_lookup_fmap, Hi. }
  assert (Hb' : (nodeBuffer <$> nodes w) !! i = Some (nodeBuffer nd')).
  { by rewrite <- Hb, list_lookup_fmap, Hi. }
  rewrite list_lookup_fmap in Hs'. rewrite list_lookup_fmap in Hb'.
  destruct (nodes w !! i) as [nd|] eqn:Hnd; [|done].
  simpl in Hs', Hb'. injection Hs' as Hs'. injection Hb' as Hb'.
  rewrite Forall_lookup in Hr. specialize (Hr i nd Hnd).
  rewrite Hs', Hb' in Hr. destruct Hr as (req & Hreq & Hd & Hbuf).
  exists req. split_and!; try done. by apply Hk.
Qed.

Lemma History_transfer w w' :
  History w ->
  length (requests w') = length (requests w) ->
  keepsDone (requests w) (requests w') ->
  source <$> nodes w' = source <$> nodes w ->
  nodeBuffer <$> nodes w' = nodeBuffer <$> nodes w ->
  pendingReqs (engine w') = pendingReqs (engine w)
  \/ pendingReqs (engine w') = [] ->
  History w'.
Proof.
  intros (a & Ha & Hp & Hlt & Hsort & Hready) Hlen Hk Hs Hb Hpend.
  assert (Hpl : played 0 w' = played 0 w).
  { unfold played. by rewrite !drop_0. }
  pose proof (ready_nodes_transfer w w' Hready Hk Hs Hb) as Hready'.
  destruct Hpend as [Hpend|Hpend].
  - exists a. rewrite Hlen, Hpend, Hpl. by split_and!.
  - exists (length (requests w)). rewrite Hlen, Hpend, Hpl, Nat.sub_diag.
    split_and!; try done.
    eapply Forall_impl; [exact Hlt|]. simpl. intros; lia.
Qed.

Lemma History_init : History init.
Proof.
  exists 0. split_and!; try done; simpl; constructor.
Qed.

Lemma History_stop w : History w -> History (stop w).
Proof.
  intros HH. apply (History_transfer w); try done.
  - simpl. apply cancelAll_length.
  - simpl. apply keepsDone_cancelAll.
  - simpl. destruct (currentBufNode (engine w)); [|done].
    by apply source_alter.
  - simpl. destruct (currentBufNode (engine w)); [|done].
    by apply nodeBuffer_alter.
  - by right.
Qed.

Lemma History_playNext w : History w -> History (playNext w).
Proof.
  intros (a & Ha & Hp & Hlt & Hsort & Hready).
  destruct (playNextFrom_cases (pendingReqs (engine w)) w eq_refl)
    as [(skipped & rest & Hsplit & _ & Heq)
       |(skipped & r & b & rest & Hsplit & _ & Hrdy & _ & Heq)];
    unfold playNext; rewrite Heq; rewrite Hsplit in Hp; symmetry in Hp;
    apply seq_split in Hp as [Hle Hrest].
  - exists (a + length skipped). simpl. split_and!; try done.
    + lia.
    + rewrite Hrest. f_equal. lia.
    + eapply Forall_impl; [exact Hlt|]. simpl. intros; lia.
  - destruct (length (requests w) - a - length skipped) as [|k] eqn:Hk;
      [done|].
    simpl in Hrest. injection Hrest as Hr Hrest.
    assert (Hpl : played 0 (startNode r b
                    (setEngine (setPendingReqs rest (engine w)) w))
                  = played 0 w ++ [r]).
    { unfold played. rewrite !drop_0. simpl. by rewrite fmap_app. }
    exists (S r). rewrite Hpl. simpl. split_and!.
    + lia.
    + rewrite Hrest. f_equal; lia.
    + apply Forall_app. split.
      * eapply Forall_impl; [exact Hlt|]. simpl. intros; lia.
      * repeat constructor.
    + apply StronglySorted_app_2; [|done|repeat constructor].
      intros x y Hx Hy. apply list_elem_of_singleton in Hy as ->.
      rewrite Forall_forall in Hlt. specialize (Hlt x Hx). lia.
    + apply Forall_app. split; [exact Hready|]. by repeat constructor.
Qed.

Lemma History_refilled voice ids m w :
  History w -> m <= length ids -> History (refilled voice ids m w).
Proof.
  intros (a & Ha & Hp & Hlt & Hsort & Hready) Hm.
  exists a. unfold refilled. cbn [requests engine pendingReqs nodes].
  rewrite length_app, length_fmap, length_take, Nat.min_l by done.
  split_and!; try done.
  - lia.
  - rewrite Hp.
    replace (length (requests w) + m - a)
      with ((length (requests w) - a) + m) by lia.
    rewrite seq_app. do 2 f_equal. lia.
  - eapply Forall_impl; [exact Hready|]. simpl.
    intros nd (req & Hreq & Hd & Hb). exists req. split_and!; try done.
    simpl. by apply lookup_app_l_Some.
Qed.

Lemma History_afterRefill voice w ids :
  History w -> currentIds (engine w) = Some ids ->
  History (afterRefill voice w).
Proof.
  intros HH Hids.
  destruct (afterRefill_refilled voice w ids Hids) as (m & Hm & _ & ->).
  apply History_refilled; [|done]. by apply History_playNext.
Qed.

Lemma History_armPumpTimer w : History w -> History (armPumpTimer w).
Proof.
  intros HH. apply (History_transfer w); try done.
  - apply keepsDone_refl.
  - by left.
Qed.

Lemma History_pump w : History w -> History (pump w).
Proof.
  intros HH.
  destruct (pump_cases w) as [->|(ids & voice & _ & Hids & _ & [->| ->])];
    [done| |].
  - by eapply History_stop, History_afterRefill.
  - by eapply History_armPumpTimer, History_afterRefill.
Qed.

Lemma History_speak ids voice settings w :
  History w -> History (speak ids voice settings w).
Proof.
  intros HH. unfold speak. apply History_pump.
  assert (HH' : History (if isSpeaking (engine w) then stop w else w)).
  { destruct (isSpeaking (engine w)); [by apply History_stop|done]. }
  eapply History_transfer; [exact HH'|try done..].
  - apply keepsDone_refl.
  - by left.
Qed.

Lemma History_envStep ev w : History w -> History (envStep ev w).
Proof.
  intros HH. destruct ev as [t|r result|n]; simpl.
  - case_bool_decide; [|done]. apply History_pump.
    apply (History_transfer w); try done; [apply keepsDone_refl|by left].
  - apply (History_transfer w); try done; simpl.
    + by rewrite length_alter.
    + apply keepsDone_alter. intros req. apply settle_done.
    + by left.
  - destruct (nodes w !! n) as [nd|]; [|done].
    destruct (started nd && negb (ended nd)); [|done].
    assert (HH' : History (mkWorld (engine w) (requests w)
                             (alter markEnded n (nodes w)) (timers w)
                             (timerSeq w))).
    { apply (History_transfer w); try done; simpl.
      - apply keepsDone_refl.
      - by apply source_alter.
      - by apply nodeBuffer_alter.
      - by left. }
    destruct (onended nd); [|done].
    unfold onendedCallback.
    match goal with |- context [negb ?b] => destruct b end; simpl; [|done].
    apply History_playNext.
    eapply History_transfer; [exact HH'|try done..].
    + apply keepsDone_refl.
    + by left.
Qed.

Lemma History_run evs : History (run evs init).
Proof.
  induction evs as [|ev evs IH] using rev_ind; [apply History_init|].
  rewrite run_snoc. destruct ev as [ids voice settings| |ev]; simpl.
  - by apply History_speak.
  - by apply History_stop.
  - by apply History_envStep.
Qed.

(** X5. Over the whole life of the engine, across every [stop] and every
    new [speak], requests are played in the order in which they were
    issued and none is played twice; a request that was played is no
    longer in the queue, and every node ever made plays the buffer of a
    request that completed with that buffer. *)
Theorem no_request_is_played_twice (evs : list Event) :
  let w := run evs init in
  StronglySorted lt (played 0 w)
  /\ NoDup (played 0 w)
  /\ Forall (fun r => r < length (requests w)
                      /\ r ∉ pendingReqs (engine w)) (played 0 w)
  /\ Forall (fun nd => ready w (source nd) (nodeBuffer nd)) (nodes w).
Proof.
  intros w. destruct (History_run evs) as (a & Ha & Hp & Hlt & Hsort & Hrdy).
  fold w in Ha, Hp, Hlt, Hsort, Hrdy. split_and!; try done.
  - clear Hlt. induction Hsort as [|x l Hs IH Hx]; constructor; [|done].
    intros Hin. rewrite Forall_forall in Hx. specialize (Hx x Hin). lia.
  - eapply Forall_impl; [exact Hlt|]. simpl. intros r Hr. split; [lia|].
    rewrite Hp. intros Hin. apply elem_of_seq in Hin. lia.
Qed.

Lemma no_request_is_played_twice_witness :
  played 0 (run sampleTwoSessions init) = [0; 11; 12]
  /\ NoDup (played 0 (run sampleTwoSessions init)).
Proof.
  split; [reflexivity|].
  apply (proj1 (proj2 (no_request_is_played_twice sampleTwoSessions))).
Defined.

Lemma current_node_is_live w n :
  NodeInv w -> currentBufNode (engine w) = Some n ->
  isSpeaking (engine w) = true
  /\ exists nd, nodes w !! n = Some nd
                /\ started nd = true /\ ended nd = false
                /\ onended nd = true.
Proof.
  intros [HI Hok Hslot] Hcur. split.
  - destruct (isSpeaking (engine w)) eqn:Hs; [done|].
    destruct (inv_idle w HI Hs) as [He _]. rewrite He in Hcur. done.
  - destruct (Hslot n Hcur) as (nd & Hnd & Hplay).
    exists nd. unfold isPlaying in Hplay.
    apply andb_true_iff in Hplay as [Hplay Hend].
    apply andb_true_iff in Hplay as [Hst Hstop].
    apply negb_true_iff in Hend, Hstop.
    rewrite Forall_lookup in Hok. destruct (Hok n nd Hnd) as [_ Hon].
    split_and!; try done. by apply Hon.
Qed.

(** X6. The ended event of the node that plays hands over at once: if
    the head of the queue is ready, its node is started in the same event,
    without waiting for the pump; if the head is not complete, nothing
    plays and the queue waits for the pump. The ended event of any other
    node (one that [stop] killed, or one that ended before) leaves the
    engine, the requests and the timers as they are. *)
Theorem ended_node_hands_over (evs : list Event) (n : nat) :
  let w := run evs init in
  let w' := envStep (NodeEnds n) w in
  (currentBufNode (engine w) = Some n ->
   forall r rest req, pendingReqs (engine w) = r :: rest ->
     requests w !! r = Some req ->
     (forall b, isDone req = true -> buffer req = Some b ->
        nodes w' = alter markEnded n (nodes w) ++ [freshNode r b]
        /\ currentBufNode (engine w') = Some (length (nodes w))
        /\ pendingReqs (engine w') = rest)
     /\ (isDone req = false ->
         currentBufNode (engine w') = None
         /\ pendingReqs (engine w') = r :: rest
         /\ timers w' = [pumpTimer (engine w')]))
  /\ (currentBufNode (engine w) <> Some n ->
      engine w' = engine w /\ requests w' = requests w
      /\ timers w' = timers w
      /\ length (nodes w') = length (nodes w)).
Proof.
  intros w w'. pose proof (NodeInv_run evs) as HN. fold w in HN.
  pose proof (Ticking_run evs) as HT. fold w in HT.
  split.
  - intros Hcur r rest req Hpend Hreq.
    destruct (current_node_is_live w n HN Hcur)
      as (Hs & nd & Hnd & Hst & Hend & Hon).
    assert (Hw' : w' = playNextFrom (r :: rest)
                         (setEngine (setCurrentBufNode None (engine w))
                            (mkWorld (engine w) (requests w)
                               (alter markEnded n (nodes w)) (timers w)
                               (timerSeq w)))).
    { unfold w'. simpl. rewrite Hnd, Hst, Hend, Hon. simpl.
      unfold onendedCallback. simpl. rewrite Hs. simpl.
      unfold playNext. simpl. by rewrite Hpend. }
    split.
    + intros b Hd Hb. rewrite Hw'. cbn [playNextFrom].
      cbn [setEngine requests engine setCurrentBufNode currentBufNode].
      rewrite Hreq, Hd. simpl. rewrite Hb. simpl.
      by rewrite length_alter.
    + intros Hd. rewrite Hw'. cbn [playNextFrom].
      cbn [setEngine requests engine setCurrentBufNode currentBufNode].
      rewrite Hreq, Hd. simpl. split_and!; try done.
      by destruct (HT Hs) as (_ & _ & ->).
  - intros Hcur. unfold w'. simpl.
    destruct (nodes w !! n) as [nd|] eqn:Hnd; [|done].
    destruct (started nd && negb (ended nd)) eqn:Hlive; [|done].
    apply andb_true_iff in Hlive as [_ Hend]. apply negb_true_iff in Hend.
    destruct (onended nd) eqn:Hon.
    + destruct Hcur. by apply (inv_handler w (ni_inv w HN) n nd).
    + simpl. by rewrite length_alter.
Qed.

Lemma ended_node_hands_over_witness :
  let w := run sampleNextReady init in
  let w' := envStep (NodeEnds 0) w in
  nodes w' = alter markEnded 0 (nodes w) ++ [freshNode 1 [2]%Z]
  /\ currentBufNode (engine w') = Some 1
  /\ pendingReqs (engine w') = [2; 3; 4; 5; 6; 7; 8; 9; 10].
Proof.
  intros w w'.
  assert (Hcur : currentBufNode (engine w) = Some 0) by reflexivity.
  assert (Hpend : pendingReqs (engine w) = [1; 2; 3; 4; 5; 6; 7; 8; 9; 10])
    by reflexivity.
  assert (Hreq : requests w !! 1
                 = Some (mkRequest "voices/en-GB/s02.mp3" true (Some [2]%Z)
                           false)) by reflexivity.
  exact (proj1 (proj1 (ended_node_hands_over sampleNextReady 0) Hcur 1
                  [2; 3; 4; 5; 6; 7; 8; 9; 10] _ Hpend Hreq)
           [2]%Z eq_refl eq_refl).
Defined.

End VoxEngineExtra.


(** * Further properties of the resolver *)

Module ResolverExtra.
Import Resolver ResolverSpec ResolverMore ResolverProps.
Import VoxEngine VoxEngineSpec VoxEngineProps.

Section MoreFacts.
Variable RAG : Globals.
Variable hasAttribute : Node -> string -> bool.

(** The [switch] of [resolve] takes the branch of the type it is given,
    and its default on every other string. *)
Lemma resolve_element flattened resolved node idx :
  nodeType node = ELEMENT_NODE ->
  resolve RAG flattened resolved node idx
  = Some (match dataset node !! "type" with
          | Some type => resolveElement RAG flattened resolved node idx type
          | None => []
          end).
Proof.
  intros Hel. unfold resolve. rewrite Hel.
  destruct (dataset node !! "type") as [type|]; [|done].
  unfold resolveElement.
  generalize (resolveCoach RAG flattened node idx)
    (resolveExcuse RAG flattened idx) (resolveInteger RAG node)
    (resolveNamed RAG) (resolvePlatform RAG flattened idx)
    (resolveService RAG resolved node)
    (resolveStation RAG flattened node idx)
    (resolveStationList RAG flattened node idx) (resolveTime RAG node)
    (resolveVox node).
  intros k1 k2 k3 k4 k5 k6 k7 k8 k9 k10.
  repeat match goal with
         | |- context [match ?x with _ => _ end] => is_var x; destruct x
         end; reflexivity.
Qed.

Lemma append_not_empty (s : string) (c : ascii) (t : string) :
  String.eqb (s +:+ String c t) "" = false.
Proof. by destruct s. Qed.

Lemma append_assoc (a b c : string) : (a +:+ b) +:+ c = a +:+ (b +:+ c).
Proof.
  induction a as [|x a IH]; [done|]. exact (f_equal (String x) IH).
Qed.

Lemma typedParent_parent node parent :
  typedParent node = Some parent -> is_Some (parentElement node).
Proof.
  unfold typedParent. by destruct (parentElement node); [eexists|].
Qed.

Lemma resolveText_keys node parent :
  typedParent node = Some parent ->
  exists keys,
    resolveText RAG node = Some keys
    /\ Forall (fun k =>
         k = Silence 0.65
         \/ exists id,
             k = Segment (JS.template (dataset parent !! "type")
                          +:+ "." +:+ id)) keys
    /\ Forall (fun k => truthy (Some k) = true) keys
    /\ length (filter (fun k => isSegment k = true) keys) <= 1.
Proof.
  intros Htp. destruct (typedParent_parent node parent Htp) as [p0 Hp0].
  unfold resolveText. rewrite Hp0, Htp. simpl.
  destruct (String.eqb (clean RAG (textContent node)) ".").
  { eexists. split_and!; [done|repeat constructor..|simpl; lia]. }
  set (lead := if JS.startsWith "." (clean RAG (textContent node))
               then [Silence 0.65] else []).
  set (trail := if JS.endsWith "." (clean RAG (textContent node))
                then [Silence 0.65] else []).
  assert (Hlead : lead = [] \/ lead = [Silence 0.65]).
  { unfold lead. destruct (JS.startsWith _ _); [by right|by left]. }
  assert (Htrail : trail = [] \/ trail = [Silence 0.65]).
  { unfold trail. destruct (JS.endsWith _ _); [by right|by left]. }
  destruct (JS.matchAlnum (clean RAG (textContent node))); simpl.
  2:{ eexists. split; [done|].
      destruct Hlead as [-> | ->]; split_and!; repeat constructor;
        by left. }
  eexists. split; [done|].
  assert (Hid : forall a b, exists id,
             (if decide (dataset parent !! "type" = Some "phraseset")
              then (JS.template (dataset parent !! "type") +:+ "." +:+ a)
                     +:+ "." +:+ b
              else JS.template (dataset parent !! "type") +:+ "." +:+ a)
             +:+ "." +:+ pretty (nodeIndex node)
             = JS.template (dataset parent !! "type") +:+ "." +:+ id).
  { intros a b. destruct (decide _); eexists;
      rewrite ?append_assoc; reflexivity. }
  destruct (Hid (JS.template (dataset parent !! "ref"))
              (JS.template (dataset parent !! "idx"))) as [id Hid'].
  rewrite Hid'.
  assert (Htr : truthy (Some (Segment
                  (JS.template (dataset parent !! "type") +:+ "." +:+ id)))
                = true).
  { apply (f_equal negb (append_not_empty _ "." id)). }
  split_and!.
  - apply Forall_app. split.
    { destruct Hlead as [-> | ->]; repeat constructor. }
    apply Forall_cons. split; [right; by eexists|].
    destruct Htrail as [-> | ->]; repeat constructor.
  - apply Forall_app. split.
    { destruct Hlead as [-> | ->]; truthy_keys. }
    apply Forall_cons. split; [exact Htr|].
    destruct Htrail as [-> | ->]; truthy_keys.
  - destruct Hlead as [-> | ->], Htrail as [-> | ->]; simpl; lia.
Qed.





Lemma stationListLoop_truthy ctx inflect len rest : forall k parts,
  Forall (fun key => truthy (Some key) = true) parts ->
  Forall (fun key => truthy (Some key) = true)
    (stationListLoop RAG ctx inflect len k rest parts).
Proof.
  induction rest as [|code rest IH]; intros k parts Hparts; [done|].
  cbn [stationListLoop]. apply IH. apply Forall_app. split; [done|].
  unfold stationListEntry.
  destruct (negb _); [truthy_keys|].
  destruct (1 <? len)%nat, ((len =? 1)%nat && String.eqb ctx "calling");
    truthy_keys.
Qed.

Lemma resolveElement_truthy flattened resolved node idx type :
  (type = "vox" -> nonEmpty (dataset node !! "key") = true) ->
  Forall (fun key => truthy (Some key) = true)
    (resolveElement RAG flattened resolved node idx type).
Proof.
  intros Hkey. unfold resolveElement.
  destruct (String.eqb type "coach").
  { unfold resolveCoach. destruct (String.eqb _ "mid"); truthy_keys. }
  destruct (String.eqb type "excuse").
  { unfold resolveExcuse. destruct (String.eqb _ "mid"); truthy_keys. }
  destruct (String.eqb type "integer").
  { unfold resolveInteger.
    destruct (_ && _); [truthy_keys|]. destruct (_ && _); truthy_keys. }
  destruct (String.eqb type "named"); [unfold resolveNamed; truthy_keys|].
  destruct (String.eqb type "platform").
  { unfold resolvePlatform. destruct (String.eqb _ "mid"); truthy_keys. }
  destruct (String.eqb type "service").
  { unfold resolveService. destruct (negb _); truthy_keys. }
  destruct (String.eqb type "station").
  { unfold resolveStation. destruct (String.eqb _ "mid"); truthy_keys. }
  destruct (String.eqb type "stationlist").
  { unfold resolveStationList. apply Forall_app. split; [|truthy_keys].
    apply stationListLoop_truthy. truthy_keys. }
  destruct (String.eqb type "time").
  { unfold resolveTime. destruct (decide _); [truthy_keys|].
    destruct (decide _); truthy_keys. }
  destruct (String.eqb_spec type "vox") as [Hvox|]; [|done].
  specialize (Hkey Hvox). unfold resolveVox, data.
  destruct (dataset node !! "key") as [key|]; [|done]. simpl in *.
  destruct (JS.startsWith _ _), (JS.endsWith _ _); simpl;
    repeat constructor; done.
Qed.

Lemma resolveFrom_truthy flattened rest : forall i resolved keys,
  Forall keyed rest ->
  Forall (fun key => truthy (Some key) = true) resolved ->
  resolveFrom RAG flattened i rest resolved = Some keys ->
  Forall (fun key => truthy (Some key) = true) keys.
Proof.
  induction rest as [|v rest IH]; intros i resolved keys Hk Hres Heq.
  { injection Heq as <-. done. }
  apply Forall_cons in Hk as [Hv Hk]. cbn [resolveFrom] in Heq.
  destruct (resolve RAG flattened resolved v i) as [new|] eqn:Hnew; [|done].
  simpl in Heq. apply (IH _ _ _ Hk) in Heq; [done|].
  apply Forall_app. split; [done|].
  destruct (nodeType v) eqn:Hty.
  - unfold resolve in Hnew. rewrite Hty in Hnew.
    assert (Htp : is_Some (typedParent v) \/ typedParent v = None).
    { destruct (typedParent v); [left; by eexists|by right]. }
    destruct Htp as [[parent Htp]|Htp].
    + destruct (resolveText_keys v parent Htp) as (keys' & Hk' & _ & Ht & _).
      rewrite Hk' in Hnew. by injection Hnew as <-.
    + unfold resolveText in Hnew. rewrite Htp in Hnew.
      destruct (parentElement v); [|done]. simpl in Hnew.
      destruct (String.eqb _ "."); [injection Hnew as <-; truthy_keys|].
      destruct (JS.matchAlnum _); [done|]. simpl in Hnew.
      injection Hnew as <-. destruct (JS.startsWith _ _); truthy_keys.
  - rewrite resolve_element in Hnew by done. injection Hnew as <-.
    destruct (dataset v !! "type") as [type|] eqn:Htype; [|done].
    apply resolveElement_truthy. intros ->. by apply Hv.
Qed.

(** X8. No key that the resolver emits is falsy, provided every vox
    element carries a key that is not empty: so the engine never blocks on
    the keys of a phrase, and [speak] on them issues the requests of the
    first ten at once. *)
Theorem resolved_keys_never_block_the_engine (walk : list Node)
    (keys : list VoxKey) :
  Forall keyed walk ->
  toVox RAG walk = Some keys ->
  Forall (fun key => truthy (Some key) = true) keys
  /\ (forall (pre : list Event) (voice : Voice) (settings : SpeechSettings),
        let w0 := run pre init in
        fetched (length (requests w0)) (speak keys voice settings w0)
        = pathOf voice <$> take 10 keys).
Proof.
  intros Hk Heq.
  assert (Ht : Forall (fun key => truthy (Some key) = true) keys).
  { unfold toVox in Heq. eapply resolveFrom_truthy; [|done|exact Heq].
    apply Forall_forall. intros n Hn. apply list_elem_of_filter in Hn as [_ Hn].
    rewrite Forall_forall in Hk. by apply Hk. }
  split; [done|]. intros pre voice settings w0.
  apply speak_issues_first_window; [apply Inv_run|done].
Qed.

Lemma split_noColon s : noColon s = true -> JS.split ":" s = [s].
Proof.
  induction s as [|c s IH]; [done|]. cbn [noColon JS.split].
  intros [Hc Hs]%andb_true_iff. apply negb_true_iff in Hc.
  by rewrite Hc, (IH Hs).
Qed.

Lemma split_colon hh rest :
  noColon hh = true ->
  JS.split ":" (hh +:+ ":" +:+ rest) = hh :: JS.split ":" rest.
Proof.
  induction hh as [|c hh IH]; [done|]. cbn [noColon].
  intros [Hc Hs]%andb_true_iff. apply negb_true_iff in Hc.
  change (String c hh +:+ ":" +:+ rest)
    with (String c (hh +:+ ":" +:+ rest)).
  cbn [JS.split]. by rewrite Hc, (IH Hs).
Qed.

(** X9. The keys of a time, for every clock reading: midnight is the
    single segment "0000"; a full hour is the hour followed after 0.075s
    by "hundred"; any other time is the hour followed after 0.2s by the
    minutes. A reading without a colon has no minutes, and the segment of
    the minutes is then "number.undefined.mid". *)
Theorem resolveTime_by_cases (element : Node) (hh mm : string) :
  noColon hh = true -> noColon mm = true ->
  (getTime (state RAG) (data element "context") = hh +:+ ":" +:+ mm ->
   resolveTime RAG element
   = if String.eqb hh "00" && String.eqb mm "00"
     then [Silence 0.2; Segment "number.0000.mid"; Silence 0.2]
     else if String.eqb mm "00"
     then [Silence 0.2; Segment ("number." +:+ hh +:+ ".begin");
           Silence 0.075; Segment "number.hundred.mid"; Silence 0.15]
     else [Silence 0.2; Segment ("number." +:+ hh +:+ ".begin");
           Silence 0.2; Segment ("number." +:+ mm +:+ ".mid");
           Silence 0.15])
  /\ (getTime (state RAG) (data element "context") = hh ->
      resolveTime RAG element
      = [Silence 0.2; Segment ("number." +:+ hh +:+ ".begin");
         Silence 0.2; Segment "number.undefined.mid"; Silence 0.15]).
Proof.
  clear hasAttribute.
  intros Hhh Hmm. split; intros Htime; unfold resolveTime; rewrite Htime.
  - rewrite split_colon, split_noColon by done. simpl.
    destruct (String.eqb_spec hh "00") as [->|Hh],
             (String.eqb_spec mm "00") as [->|Hm]; simpl;
      repeat case_decide; simpl; try done; exfalso; intuition congruence.
  - rewrite split_noColon by done. simpl.
    repeat case_decide; simpl; try done; exfalso; intuition congruence.
Qed.

(** X10. [resolve] looks one node ahead and one key behind, and no
    further: of [this.flattened] it reads the node after [idx] only, and
    of [this.resolved] the last key only. *)
Theorem resolve_looks_one_node_ahead (flattened flattened' : list Node)
    (resolved resolved' : list VoxKey) (node : Node) (idx : nat) :
  flattened !! (idx + 1) = flattened' !! (idx + 1) ->
  last resolved = last resolved' ->
  resolve RAG flattened resolved node idx
  = resolve RAG flattened' resolved' node idx.
Proof.
  intros Hnext Hlast.
  assert (Hinf : getInflection flattened idx = getInflection flattened' idx).
  { unfold getInflection. by rewrite Hnext. }
  destruct (nodeType node) eqn:Hty.
  - unfold resolve. by rewrite Hty.
  - rewrite !resolve_element by done. f_equal.
    destruct (dataset node !! "type") as [type|]; [|done].
    unfold resolveElement, resolveCoach, resolveExcuse, resolvePlatform,
      resolveService, resolveStation, resolveStationList.
    by rewrite Hinf, Hlast.
Qed.

(** X11. A node of white space only leaves no trace: [toVox] gives the
    same keys with and without it, so white space between an element and
    a full stop does not hide the full stop from the inflection. *)
Theorem blank_nodes_leave_no_trace (before after : list Node)
    (blank : Node) :
  JS.trim (textContent blank) = "" ->
  toVox RAG (before ++ blank :: after) = toVox RAG (before ++ after).
Proof.
  intros Hblank. unfold toVox.
  rewrite !filter_app, filter_cons_False; [done|].
  intros Hne. by apply Hne.
Qed.

Lemma resolveText_leading_stop node keys :
  JS.startsWith "." (clean RAG (textContent node)) = true ->
  resolveText RAG node = Some keys ->
  exists rest, keys = Silence 0.65 :: rest.
Proof.
  intros Hstop. unfold resolveText.
  destruct (parentElement node); [|done]. simpl.
  destruct (String.eqb _ "."); [intros [= <-]; by eexists|].
  rewrite Hstop.
  destruct (JS.matchAlnum _); simpl; [|intros [= <-]; by eexists].
  destruct (typedParent node); simpl; [|done].
  intros [= <-]. by eexists.
Qed.

Lemma resolveFrom_extends flattened rest : forall i resolved keys,
  resolveFrom RAG flattened i rest resolved = Some keys ->
  exists post, keys = resolved ++ post.
Proof.
  induction rest as [|v rest IH]; intros i resolved keys Heq.
  { injection Heq as <-. exists []. by rewrite app_nil_r. }
  cbn [resolveFrom] in Heq.
  destruct (resolve RAG flattened resolved v i) as [new|]; [|done].
  simpl in Heq. destruct (IH _ _ _ Heq) as [post ->].
  exists (new ++ post). by rewrite app_assoc.
Qed.

Lemma inflected_end flattened resolved element idx type :
  nodeType element = ELEMENT_NODE ->
  dataset element !! "type" = Some type ->
  type ∈ ["coach"; "excuse"; "platform"; "station"] ->
  getInflection flattened idx = "end" ->
  exists lead stem,
    resolve RAG flattened resolved element idx
    = Some [Silence lead; Segment (stem +:+ ".end")].
Proof.
  intros Hel Htype Hin Hinf. rewrite resolve_element by done.
  rewrite Htype. rewrite !elem_of_cons, elem_of_nil in Hin.
  destruct Hin as [->|[->|[->|[->|[]]]]]; unfold resolveElement; simpl.
  - unfold resolveCoach. rewrite Hinf. simpl.
    exists 0.2%Q, ("letter." +:+ getCoach (state RAG) (data element "context")).
    by rewrite !append_assoc.
  - unfold resolveExcuse. rewrite Hinf. simpl.
    exists 0.15%Q, ("excuse." +:+ filename RAG (excuse (state RAG))).
    by rewrite !append_assoc.
  - unfold resolvePlatform. rewrite Hinf. simpl.
    exists 0.15%Q,
      ("number." +:+ fst (platform (state RAG))
       +:+ (if String.eqb (snd (platform (state RAG))) "??" then "M"
            else snd (platform (state RAG)))).
    by rewrite !append_assoc.
  - unfold resolveStation. rewrite Hinf. simpl.
    exists 0.2%Q,
      ("station."
       +:+ getStationVox RAG
             (getStation (state RAG) (data element "context"))).
    by rewrite !append_assoc.
Qed.

(** X21. An element voiced with the end inflection is followed at once
    by the silence of the full stop that gave it the inflection: for a
    coach, excuse, platform or station followed by a text that begins with
    a full stop, the keys of the phrase hold the lead silence, the segment
    ending in ".end" and a silence of 0.65s next to each other, with no
    pause of 0.2s between them. *)
Theorem end_inflection_is_followed_by_silence (before after : list Node)
    (element next : Node) (type : string) (keys : list VoxKey) :
  let flattened := before ++ element :: next :: after in
  nodeType element = ELEMENT_NODE ->
  dataset element !! "type" = Some type ->
  type ∈ ["coach"; "excuse"; "platform"; "station"] ->
  nodeType next = TEXT_NODE ->
  JS.startsWith "." (JS.trim (textContent next)) = true ->
  JS.startsWith "." (clean RAG (textContent next)) = true ->
  resolveFrom RAG flattened 0 flattened [] = Some keys ->
  exists pre post lead stem,
    keys = pre ++ [Silence lead; Segment (stem +:+ ".end"); Silence 0.65]
               ++ post.
Proof.
  intros flattened Hel Htype Hin Htext Htrim Hclean Hkeys.
  assert (Hinf : getInflection flattened (length before) = "end").
  { unfold getInflection, flattened.
    rewrite lookup_app_r by lia.
    replace (length before + 1 - length before) with 1 by lia.
    simpl. by rewrite Htrim. }
  unfold flattened in Hkeys at 2. rewrite resolveFrom_app in Hkeys.
  destruct (resolveFrom RAG flattened 0 before []) as [pre|]; [|done].
  simpl in Hkeys.
  destruct (inflected_end flattened pre element (length before) type
              Hel Htype Hin Hinf) as (lead & stem & Hres).
  rewrite Hres in Hkeys. simpl in Hkeys.
  destruct (resolve RAG flattened
              (pre ++ [Silence lead; Segment (stem +:+ ".end")]) next
              (S (length before))) as [new|] eqn:Hnew; [|done].
  simpl in Hkeys. unfold resolve in Hnew. rewrite Htext in Hnew.
  destruct (resolveText_leading_stop next new Hclean Hnew) as [rest ->].
  destruct (resolveFrom_extends _ _ _ _ _ Hkeys) as [post ->].
  exists pre, (rest ++ post), lead, stem.
  rewrite <- !app_assoc. simpl. done.
Qed.

End MoreFacts.


Lemma resolved_keys_never_block_the_engine_witness :
  toVox sampleGlobals sampleWalk
  = Some [Segment "phrase.intro.0"; Silence 0.2; Segment "station.KGX.end";
          Silence 0.65; Segment "phrase.outro.0"]
  /\ fetched 0 (speak [Segment "phrase.intro.0"; Silence 0.2;
                       Segment "station.KGX.end"; Silence 0.65;
                       Segment "phrase.outro.0"] sampleVoice sampleSettings
                  init)
     = ["voices/en-GB/phrase.intro.0.mp3"; "voices/en-GB/0.2.mp3";
        "voices/en-GB/station.KGX.end.mp3"; "voices/en-GB/0.65.mp3";
        "voices/en-GB/phrase.outro.0.mp3"].
Proof.
  split; [reflexivity|].
  apply (proj2 (resolved_keys_never_block_the_engine sampleGlobals sampleWalk
                  _ ltac:(repeat (apply Forall_cons; split;
                                  [intros _ Hvox; try reflexivity;
                                   by vm_compute in Hvox|]);
                          apply Forall_nil_2) eq_refl)
           [] sampleVoice sampleSettings).
Defined.

Lemma resolveTime_by_cases_witness :
  resolveTime (sampleClock "09:41") (sampleElement "time" "now")
  = [Silence 0.2; Segment "number.09.begin"; Silence 0.2;
     Segment "number.41.mid"; Silence 0.15]
  /\ resolveTime (sampleClock "0941") (sampleElement "time" "now")
     = [Silence 0.2; Segment "number.0941.begin"; Silence 0.2;
        Segment "number.undefined.mid"; Silence 0.15].
Proof.
  split.
  - apply (proj1 (resolveTime_by_cases (sampleClock "09:41")
                    (sampleElement "time" "now") "09" "41"
                    eq_refl eq_refl) eq_refl).
  - apply (proj2 (resolveTime_by_cases (sampleClock "0941")
                    (sampleElement "time" "now") "0941" ""
                    eq_refl eq_refl) eq_refl).
Defined.

Lemma resolve_looks_one_node_ahead_witness :
  resolve sampleGlobals sampleWalk [Segment "phrase.intro.0"]
    (sampleChild "station" "next") 1
  = resolve sampleGlobals [sampleBlank; sampleBlank; sampleText "." 2]
      [Silence 0.2; Segment "phrase.intro.0"]
      (sampleChild "station" "next") 1.
Proof.
  apply (resolve_looks_one_node_ahead sampleGlobals); reflexivity.
Defined.

Lemma blank_nodes_leave_no_trace_witness :
  toVox sampleGlobals
    ([sampleText "The next station is" 0; sampleChild "station" "next"]
       ++ sampleBlank :: [sampleText "." 2; sampleVox "phrase.outro.0"])
  = toVox sampleGlobals sampleWalk.
Proof.
  apply (blank_nodes_leave_no_trace sampleGlobals); reflexivity.
Defined.

Lemma end_inflection_is_followed_by_silence_witness :
  exists pre post lead stem,
    [Segment "phrase.intro.0"; Silence 0.2; Segment "station.KGX.end";
     Silence 0.65; Segment "phrase.outro.0"]
    = pre ++ [Silence lead; Segment (stem +:+ ".end"); Silence 0.65] ++ post.
Proof.
  apply (end_inflection_is_followed_by_silence sampleGlobals
           [sampleText "The next station is" 0]
           [sampleVox "phrase.outro.0"]
           (sampleChild "station" "next") (sampleText "." 2) "station");
    try reflexivity.
  by apply (bool_decide_unpack _).
Defined.

End ResolverExtra.


(** * Properties of the state of the generator and of its random picks *)

Module RagProps.
Import Rag.

Lemma fair_sample : fair sampleRng.
Proof.
  intros i. simpl. unfold Qle, Qlt. simpl.
  pose proof (Nat.mod_upper_bound i 10). lia.
Qed.

Lemma Math_random_fair g :
  fair g -> fair (Math_random g).2.
Proof. intros Hf i. apply Hf. Qed.

Lemma int_draws min max g :
  samples (Random.int min max g).2 = samples g
  /\ drawn (Random.int min max g).2 = S (drawn g).
Proof. done. Qed.

Lemma int_range min max g :
  fair g -> (min < max)%Z ->
  (min <= (Random.int min max g).1 < max)%Z.
Proof.
  intros Hf Hlt.
  change (Random.int min max g).1
    with (Qfloor (samples g (drawn g) * inject_Z (max - min)) + min)%Z.
  destruct (Hf (drawn g)) as [H0 H1].
  set (r := samples g (drawn g)) in *.
  set (n := (max - min)%Z).
  assert (Hn : (0 < inject_Z n)%Q).
  { change 0%Q with (inject_Z 0). rewrite <- Zlt_Qlt. unfold n. lia. }
  assert (Hlo : (0 <= Qfloor (r * inject_Z n))%Z).
  { change 0%Z with (Qfloor (inject_Z 0)).
    apply Qfloor_resp_le. apply Qmult_le_0_compat; [done|].
    by apply Qlt_le_weak. }
  assert (Hhi : (Qfloor (r * inject_Z n) < n)%Z).
  { rewrite Zlt_Qlt. eapply Qle_lt_trans; [apply Qfloor_le|].
    rewrite <- (Qmult_1_l (inject_Z n)) at 2.
    by apply Qmult_lt_compat_r. }
  unfold n in *. lia.
Qed.

Lemma int_degenerate min g : (Random.int min min g).1 = min.
Proof.
  change (Random.int min min g).1
    with (Qfloor (samples g (drawn g) * inject_Z (min - min)) + min)%Z.
  rewrite Z.sub_diag.
  rewrite (Qfloor_comp _ (inject_Z 0)); [rewrite Qfloor_Z; lia|].
  apply Qmult_0_r.
Qed.

Lemma array_draws {A} (arr : list A) g :
  samples (Random.array arr g).2 = samples g
  /\ drawn (Random.array arr g).2 = S (drawn g).
Proof. done. Qed.

Lemma array_defined {A} (arr : list A) g :
  fair g -> arr <> [] ->
  exists a, (Random.array arr g).1 = Some a /\ a ∈ arr.
Proof.
  intros Hf Hne. unfold Random.array.
  pose proof (int_range 0 (Z.of_nat (length arr)) g Hf) as Hr.
  destruct (Random.int 0 (Z.of_nat (length arr)) g) as [i g'] eqn:Hi.
  simpl in *.
  assert (Hlen : (0 < Z.of_nat (length arr))%Z).
  { destruct arr; [done|]. simpl. lia. }
  specialize (Hr Hlen).
  destruct (Z.ltb_spec i 0); [lia|].
  destruct (lookup_lt_is_Some_2 arr (Z.to_nat i)) as [a Ha]; [lia|].
  exists a. split; [done|]. by eapply list_elem_of_lookup_2.
Qed.



Lemma objectKey_draws keys g :
  samples (Random.objectKey keys g).2 = samples g
  /\ drawn (Random.objectKey keys g).2 = S (drawn g).
Proof. done. Qed.

Lemma fair_samples g g' : samples g' = samples g -> fair g -> fair g'.
Proof. intros Hs Hf i. rewrite Hs. apply Hf. Qed.

Lemma objectKey_known db g :
  fair g -> Database.stations db <> [] ->
  known db (Random.objectKey (Database.stations db) g).1.
Proof. intros Hf Hne. by apply array_defined. Qed.

Lemma pickLoop_spec db exclude len : forall fuel result tries g,
  Database.stationsCount db - tries
  + Z.to_nat (len - Z.of_nat (length result)) <= fuel ->
  exists result' g' rounds,
    Database.pickLoop db fuel len exclude result tries g
    = Some (result', g')
    /\ Z.of_nat (length result') = Z.max (Z.of_nat (length result)) len
    /\ drawn g' = drawn g + rounds
    /\ samples g' = samples g
    /\ rounds <= Database.stationsCount db - tries
                 + Z.to_nat (len - Z.of_nat (length result))
    /\ (tries + rounds <= Database.stationsCount db ->
        NoDup result -> Forall (outside exclude) result ->
        NoDup result' /\ Forall (outside exclude) result')
    /\ (fair g -> Database.stations db <> [] ->
        Forall (known db) result -> Forall (known db) result').
Proof.
  induction fuel as [|fuel IH]; intros result tries g Hfuel;
    cbn [Database.pickLoop];
    destruct (Z.ltb_spec (Z.of_nat (length result)) len) as [Hlt|Hge];
    try lia.
  1,3: exists result, g, 0; split_and!; try done; lia.
  destruct (Random.objectKey (Database.stations db) g) as [key g1] eqn:Hkey.
  pose proof (objectKey_draws (Database.stations db) g) as [Hs1 Hd1].
  rewrite Hkey in Hs1, Hd1. simpl in Hs1, Hd1.
  set (result1 :=
         if (Database.stationsCount db <=? tries)%nat then result ++ [key]
         else match exclude with
              | Some exclude0 =>
                  if negb (Database.includes exclude0 key)
                     && negb (Database.includes result key)
                  then result ++ [key] else result
              | None =>
                  if negb (Database.includes result key)
                  then result ++ [key] else result
              end).
  assert (Hlen1 : length result1 = length result
                  \/ length result1 = S (length result)).
  { unfold result1.
    repeat match goal with
           | |- context [if ?b then _ else _] => destruct b
           | |- context [match ?e with Some _ => _ | None => _ end] =>
               destruct e
           end; rewrite ?length_app; simpl; lia. }
  assert (Hpush : Database.stationsCount db <= tries ->
                  length result1 = S (length result)).
  { intros Hle. unfold result1.
    destruct (Nat.leb_spec (Database.stationsCount db) tries); [|lia].
    rewrite length_app. simpl. lia. }
  assert (Hguard : tries < Database.stationsCount db ->
                   NoDup result -> Forall (outside exclude) result ->
                   NoDup result1 /\ Forall (outside exclude) result1).
  { intros Hlt' Hnd Hout. unfold result1.
    destruct (Nat.leb_spec (Database.stationsCount db) tries); [lia|].
    unfold Database.includes.
    destruct exclude as [exclude0|]; simpl;
      repeat case_bool_decide; simpl; try done.
    - split.
      + apply NoDup_app. split_and!; [done| |apply NoDup_singleton].
        intros x Hx Hx'. apply list_elem_of_singleton in Hx' as ->. done.
      + apply Forall_app. split; [done|]. by repeat constructor.
    - split.
      + apply NoDup_app. split_and!; [done| |apply NoDup_singleton].
        intros x Hx Hx'. apply list_elem_of_singleton in Hx' as ->. done.
      + apply Forall_app. split; [done|]. by repeat constructor. }
  assert (Hknown : fair g -> Database.stations db <> [] ->
                   Forall (known db) result -> Forall (known db) result1).
  { intros Hf Hne Hk.
    pose proof (objectKey_known db g Hf Hne) as Hkn. rewrite Hkey in Hkn.
    simpl in Hkn.
    assert (Hall : Forall (known db) (result ++ [key])).
    { apply Forall_app. split; [done|]. by repeat constructor. }
    unfold result1.
    repeat match goal with
           | |- context [if ?b then _ else _] => destruct b
           | |- context [match ?e with Some _ => _ | None => _ end] =>
               destruct e
           end; done. }
  destruct (IH result1 (S tries) g1) as (result' & g' & rounds & Heq & Hlen
                                         & Hd & Hs & Hr & Hnd & Hk).
  { destruct (Nat.le_gt_cases (Database.stationsCount db) tries) as [Hle|Hgt].
    - specialize (Hpush Hle). lia.
    - destruct Hlen1; lia. }
  exists result', g', (S rounds). rewrite Heq. split_and!; try done.
  - destruct Hlen1; lia.
  - lia.
  - congruence.
  - destruct (Nat.le_gt_cases (Database.stationsCount db) tries) as [Hle|Hgt].
    + specialize (Hpush Hle). lia.
    + destruct Hlen1; lia.
  - intros Hle Hnd0 Hout0.
    destruct Hguard as [Hnd1 Hout1]; [lia|done|done|].
    apply Hnd; [lia|done|done].
  - intros Hf Hne Hk0. apply Hk; try done.
    + by apply (fair_samples g).
    + by apply Hknown.
Qed.

Lemma pickStationCodes_spec (db : Database.Database)
    (min max : Z) (exclude : option (list Code)) (g : Rng) :
  let count := Database.stationsCount db in
  let length := (Random.int min max g).1 in
  match Database.pickStationCodes db min max exclude g with
  | Throws _ => (Z.of_nat count < max - min)%Z
  | Diverges => False
  | Returns (result, g') =>
      (max - min <= Z.of_nat count)%Z
      /\ Z.of_nat (List.length result) = Z.max 0 length
      /\ drawn g < drawn g' <= drawn g + 1 + count + Z.to_nat length
      /\ (drawn g' <= drawn g + 1 + count ->
          NoDup result /\ Forall (outside exclude) result)
      /\ (fair g -> Database.stations db <> [] ->
          Forall (known db) result)
      /\ samples g' = samples g
  end.
Proof.
  intros count len. unfold Database.pickStationCodes.
  destruct (Z.ltb_spec (Z.of_nat (Database.stationsCount db)) (max - min))
    as [Hlt|Hge]; [done|].
  pose proof (int_draws min max g) as [Hs0 Hd0].
  destruct (Random.int min max g) as [len' g0] eqn:Hint.
  subst len. simpl in *.
  destruct (pickLoop_spec db exclude len'
              (Database.stationsCount db + Z.to_nat len') [] 0 g0)
    as (result & g' & rounds & -> & Hlen & Hd & Hs & Hr & Hnd & Hk).
  { simpl. rewrite Z.sub_0_r. lia. }
  simpl in *. rewrite Z.sub_0_r in Hr. fold count in Hr, Hnd.
  split_and!; try done; try lia; [| |congruence].
  - intros Hle. apply Hnd; [lia|constructor|constructor].
  - intros Hf Hne. apply Hk; [|done|constructor].
    by apply (fair_samples g).
Qed.

(** X13. [pickStationCodes] always comes to an end: it throws exactly
    when [max - min] exceeds the number of stations, and otherwise returns
    after at most [stationsCount + length] rounds of its loop, with exactly
    [length] codes ([length] the number drawn by [Random.int(min, max)],
    none when it is not positive). If it returns within [stationsCount]
    rounds its codes are pairwise distinct and none is excluded; only
    later rounds may repeat a code or pick an excluded one. With a
    database that has stations every code is the code of a station. *)
Theorem pickStationCodes_terminates (db : Database.Database)
    (min max : Z) (exclude : option (list Code)) (g : Rng) :
  let count := Database.stationsCount db in
  let length := (Random.int min max g).1 in
  match Database.pickStationCodes db min max exclude g with
  | Throws _ => (Z.of_nat count < max - min)%Z
  | Diverges => False
  | Returns (result, g') =>
      (max - min <= Z.of_nat count)%Z
      /\ Z.of_nat (List.length result) = Z.max 0 length
      /\ drawn g < drawn g' <= drawn g + 1 + count + Z.to_nat length
      /\ (drawn g' <= drawn g + 1 + count ->
          NoDup result /\ Forall (outside exclude) result)
      /\ (fair g -> Database.stations db <> [] ->
          Forall (known db) result)
  end.
Proof.
  intros count len.
  pose proof (pickStationCodes_spec db min max exclude g) as Hspec.
  cbv zeta in Hspec. fold count len in Hspec.
  destruct (Database.pickStationCodes db min max exclude g)
    as [[result g']| |]; try done.
  destruct Hspec as (H1 & H2 & H3 & H4 & H5 & _).
  exact (conj H1 (conj H2 (conj H3 (conj H4 H5)))).
Qed.

Lemma getOwnStationList_held db context list s g :
  State._stationLists s !! context = Some list ->
  State.getOwnStationList db context s g = Returns (list, s, g).
Proof. intros H. unfold State.getOwnStationList. by rewrite H. Qed.

(** X14. The station list of [calling_first] is a one-way alias of
    [calling]. Setting [calling_first] sets both lists; reading
    [calling_first] while it has no list of its own is reading [calling]
    (which picks and stores the list of [calling], not one of
    [calling_first]); but setting [calling] afterwards leaves the list of
    [calling_first] as it was, so the two differ from then on. *)
Theorem calling_first_is_a_one_way_alias (db : Database.Database)
    (s : State.State) (g : Rng) (value value' : list Code) :
  let s1 := State.setStationList "calling_first" value s in
  let s2 := State.setStationList "calling" value' s1 in
  State.getStationList db "calling_first" s1 g = Returns (value, s1, g)
  /\ State.getStationList db "calling" s1 g = Returns (value, s1, g)
  /\ (State._stationLists s !! "calling_first" = None ->
      State.getStationList db "calling_first" s g
      = State.getStationList db "calling" s g
      /\ forall list s' g',
           State.getStationList db "calling_first" s g
           = Returns (list, s', g') ->
           State._stationLists s' !! "calling" = Some list
           /\ State._stationLists s' !! "calling_first" = None)
  /\ State.getStationList db "calling_first" s2 g = Returns (value, s2, g)
  /\ State.getStationList db "calling" s2 g = Returns (value', s2, g).
Proof.
  intros s1 s2. split_and!.
  - unfold State.getStationList, s1. simpl.
    by rewrite lookup_insert_ne, lookup_insert_eq.
  - unfold State.getStationList, s1. simpl. by rewrite lookup_insert_eq.
  - intros Hnone. split.
    + unfold State.getStationList. rewrite Hnone. simpl.
      destruct (State._stationLists s !! "calling") as [list|] eqn:Hc;
        [|done].
      by rewrite (getOwnStationList_held db "calling" list).
    + intros list s' g'. unfold State.getStationList. rewrite Hnone. simpl.
      unfold State.getOwnStationList.
      destruct (State._stationLists s !! "calling") as [list0|] eqn:Hc.
      * intros [= <- <- <-]. done.
      * simpl.
        destruct (Database.pickStationCodes db 1 16 None g)
          as [[list0 g0]| |]; [|done..].
        intros [= <- <- <-]. simpl.
        by rewrite lookup_insert_eq, lookup_insert_ne.
  - unfold State.getStationList, s2, s1. simpl.
    by rewrite lookup_insert_ne, lookup_insert_ne, lookup_insert_eq.
  - unfold State.getStationList, s2. simpl. by rewrite lookup_insert_eq.
Qed.

(** X15. The getters by context draw once: what [getCoach],
    [getInteger], [getStation], [getStationList] and [getCollapsed]
    return is returned again by every later call, which draws no number
    and leaves the state as it is; and what a setter stores is what the
    getter returns. The context is not a name that every object
    inherits. *)
Theorem getters_draw_once (db : Database.Database) (context : string)
    (s : State.State) (g : Rng) :
  plainKey context ->
  (forall coach s' g', State.getCoach context s g = (Some coach, s', g') ->
     forall g2, State.getCoach context s' g2 = (Some coach, s', g2))
  /\ (forall value s' g', State.getInteger context s g = (value, s', g') ->
        forall g2, State.getInteger context s' g2 = (value, s', g2))
  /\ (forall code s' g',
        State.getStation db context s g = (Some code, s', g') ->
        forall g2, State.getStation db context s' g2 = (Some code, s', g2))
  /\ (forall list s' g',
        State.getStationList db context s g = Returns (list, s', g') ->
        forall g2,
          State.getStationList db context s' g2 = Returns (list, s', g2))
  /\ (forall chance state s' g',
        State.getCollapsed context chance s g = (state, s', g') ->
        forall chance2 g2,
          State.getCollapsed context chance2 s' g2 = (state, s', g2))
  /\ (forall coach g2,
        State.getCoach context (State.setCoach context (Some coach) s) g2
        = (Some coach, State.setCoach context (Some coach) s, g2))
  /\ (forall value g2,
        State.getInteger context (State.setInteger context value s) g2
        = (value, State.setInteger context value s, g2))
  /\ (forall code g2,
        State.getStation db context
          (State.setStation context (Some code) s) g2
        = (Some code, State.setStation context (Some code) s, g2))
  /\ (forall list g2,
        State.getStationList db context
          (State.setStationList context list s) g2
        = Returns (list, State.setStationList context list s, g2)).
Proof.
  intros _. split_and!.
  - intros coach s' g'. unfold State.getCoach.
    destruct (State._coaches s !! context) as [c|] eqn:Hc.
    + intros [= <- <- <-] g2. by rewrite Hc.
    + destruct (Random.array (chars LETTERS) g) as [c g0].
      intros [= -> <- <-] g2. simpl. by rewrite lookup_insert_eq.
  - intros value s' g'. unfold State.getInteger.
    destruct (State._integers s !! context) as [v|] eqn:Hv.
    + intros [= <- <- <-] g2. by rewrite Hv.
    + destruct (State.integerBounds context) as [min max].
      destruct (Random.int min max g) as [v g0].
      intros [= <- <- <-] g2. simpl. by rewrite lookup_insert_eq.
  - intros code s' g'. unfold State.getStation.
    destruct (State._stations s !! context) as [c|] eqn:Hc.
    + intros [= <- <- <-] g2. by rewrite Hc.
    + destruct (Database.pickStationCode db None g) as [c g0].
      intros [= -> <- <-] g2. simpl. by rewrite lookup_insert_eq.
  - intros list s' g'. unfold State.getStationList.
    destruct (State._stationLists s !! context) as [l|] eqn:Hl.
    + intros [= <- <- <-] g2. by rewrite Hl.
    + assert (Hown : forall ctx,
                 State.getOwnStationList db ctx s g = Returns (list, s', g') ->
                 State._stationLists s' !! ctx = Some list
                 /\ (forall ctx', State._stationLists s !! ctx' = None ->
                       ctx' <> ctx ->
                       State._stationLists s' !! ctx' = None)).
      { intros ctx. unfold State.getOwnStationList.
        destruct (State._stationLists s !! ctx) as [l|] eqn:Hl'.
        - intros [= <- <- <-]. done.
        - destruct (State.stationListBounds ctx) as [min max].
          destruct (Database.pickStationCodes db min max None g)
            as [[l g0]| |]; [|done..].
          intros [= <- <- <-]. simpl. rewrite lookup_insert_eq.
          split; [done|]. intros ctx' Hn Hne.
          by rewrite lookup_insert_ne. }
      destruct (String.eqb_spec context "calling_first") as [->|Hne].
      * intros Hget g2. destruct (Hown _ Hget) as [Hc Hcf].
        rewrite (Hcf "calling_first") by done.
        by rewrite (getOwnStationList_held db "calling" list).
      * intros Hget g2. destruct (Hown _ Hget) as [Hc _]. by rewrite Hc.
  - intros chance state s' g'. unfold State.getCollapsed.
    destruct (State._collapsibles s !! context) as [c|] eqn:Hc.
    + intros [= <- <- <-] chance2 g2. by rewrite Hc.
    + destruct (Random.bool chance g) as [b g0].
      intros [= <- <- <-] chance2 g2. simpl. by rewrite lookup_insert_eq.
  - intros coach g2. unfold State.getCoach. simpl.
    by rewrite lookup_insert_eq.
  - intros value g2. unfold State.getInteger. simpl.
    by rewrite lookup_insert_eq.
  - intros code g2. unfold State.getStation. simpl.
    by rewrite lookup_insert_eq.
  - intros list g2. unfold State.getStationList, State.setStationList.
    simpl. destruct (String.eqb context "calling_first").
    + destruct (decide (context = "calling")) as [->|Hne].
      * by rewrite lookup_insert_eq.
      * by rewrite lookup_insert_ne, lookup_insert_eq.
    + by rewrite lookup_insert_eq.
Qed.

Lemma plainKey_coaches : plainKey "coaches".
Proof. unfold plainKey. apply (bool_decide_unpack _). by vm_compute. Qed.

Lemma getters_draw_once_witness :
  State.getInteger "coaches"
    (State.getInteger "coaches" State.new sampleRng).1.2 sampleRng
  = ((State.getInteger "coaches" State.new sampleRng).1.1,
     (State.getInteger "coaches" State.new sampleRng).1.2, sampleRng).
Proof.
  apply (proj1 (proj2 (getters_draw_once sampleDatabase "coaches" State.new
                         sampleRng plainKey_coaches))
           _ _ (State.getInteger "coaches" State.new sampleRng).2).
  by destruct (State.getInteger "coaches" State.new sampleRng) as [[? ?] ?].
Defined.

(** X16. A number that [getInteger] draws lies within the bounds of its
    context, the upper bound left out: 1 to 9 coaches, 5 to 119 minutes
    of delay, 2 to 4 front or rear coaches; in any other context (that is
    not a name every object inherits) the number is 0. *)
Theorem getInteger_bounds (context : string) (s : State.State) (g : Rng) :
  fair g -> plainKey context ->
  State._integers s !! context = None ->
  let value := (State.getInteger context s g).1.1 in
  (context = "coaches" -> (1 <= value <= 9)%Z)
  /\ (context = "delayed" -> (5 <= value <= 119)%Z)
  /\ (context = "front_coaches" \/ context = "rear_coaches" ->
      (2 <= value <= 4)%Z)
  /\ (context ∉ ["coaches"; "delayed"; "front_coaches"; "rear_coaches"] ->
      value = 0%Z)
  /\ State._integers (State.getInteger context s g).1.2 !! context
     = Some value.
Proof.
  intros Hf _ Hnone value.
  assert (Hv : value = (Random.int (State.integerBounds context).1
                          (State.integerBounds context).2 g).1
               /\ State._integers (State.getInteger context s g).1.2
                  !! context = Some value).
  { unfold value, State.getInteger. rewrite Hnone.
    destruct (State.integerBounds context) as [min max]. cbn [fst snd].
    destruct (Random.int min max g) as [v g0]. simpl.
    by rewrite lookup_insert_eq. }
  destruct Hv as [Hv Hstored]. split_and!; try done.
  - intros ->. rewrite Hv.
    change (State.integerBounds "coaches") with (1, 10)%Z. cbn [fst snd].
    pose proof (int_range 1 10 g Hf ltac:(lia)). lia.
  - intros ->. rewrite Hv.
    change (State.integerBounds "delayed") with (5, 120)%Z. cbn [fst snd].
    pose proof (int_range 5 120 g Hf ltac:(lia)). lia.
  - pose proof (int_range 2 5 g Hf ltac:(lia)).
    intros [-> | ->]; rewrite Hv.
    + change (State.integerBounds "front_coaches") with (2, 5)%Z.
      cbn [fst snd]. lia.
    + change (State.integerBounds "rear_coaches") with (2, 5)%Z.
      cbn [fst snd]. lia.
  - intros Hother. rewrite Hv. unfold State.integerBounds.
    destruct (String.eqb_spec context "coaches") as [->|_].
    { destruct Hother. set_solver. }
    destruct (String.eqb_spec context "delayed") as [->|_].
    { destruct Hother. set_solver. }
    destruct (String.eqb_spec context "front_coaches") as [->|_].
    { destruct Hother. set_solver. }
    destruct (String.eqb_spec context "rear_coaches") as [->|_].
    { destruct Hother. set_solver. }
    apply int_degenerate.
Qed.

Lemma getInteger_bounds_witness :
  (1 <= (State.getInteger "coaches" State.new sampleRng).1.1 <= 9)%Z.
Proof.
  apply (proj1 (getInteger_bounds "coaches" State.new sampleRng fair_sample
                  plainKey_coaches eq_refl) eq_refl).
Defined.

(** X17. A string field set to the empty string is forgotten: the
    getters of [excuse], [named] and [service] test the field for
    truthiness, so after the empty string was stored they draw a new value
    as if nothing had been stored. A string that is not empty is returned
    as it was stored, and so is any platform, the pair of empty strings
    included. *)
Theorem empty_string_is_redrawn (db : Database.Database) (s : State.State)
    (g : Rng) :
  State.excuse db (State.set_excuse (Some "") s) g
  = State.excuse db (State.set_excuse None s) g
  /\ State.named db (State.set_named (Some "") s) g
     = State.named db (State.set_named None s) g
  /\ State.service db (State.set_service (Some "") s) g
     = State.service db (State.set_service None s) g
  /\ (forall value, value <> "" ->
        State.excuse db (State.set_excuse (Some value) s) g
        = (Some value, State.set_excuse (Some value) s, g)
        /\ State.named db (State.set_named (Some value) s) g
           = (Some value, State.set_named (Some value) s, g)
        /\ State.service db (State.set_service (Some value) s) g
           = (Some value, State.set_service (Some value) s, g))
  /\ (forall value,
        State.platform (State.set_platform (Some value) s) g
        = (value, State.set_platform (Some value) s, g)).
Proof.
  split_and!; try done.
  intros value Hne.
  unfold State.excuse, State.named, State.service. simpl.
  destruct (String.eqb_spec value ""); done.
Qed.

Lemma pickStationCodeFrom_samples db left exclude : forall g,
  samples (Database.pickStationCodeFrom db left exclude g).2 = samples g.
Proof.
  induction left as [|left IH]; intros g; cbn [Database.pickStationCodeFrom];
    [done|].
  pose proof (objectKey_draws (Database.stations db) g) as [Hs _].
  destruct (Random.objectKey (Database.stations db) g) as [value g1].
  simpl in Hs. destruct (negb _); [done|]. rewrite IH. done.
Qed.

Lemma pickStationCode_samples db exclude g :
  samples (Database.pickStationCode db exclude g).2 = samples g.
Proof.
  destruct exclude as [exclude|]; [|done].
  apply pickStationCodeFrom_samples.
Qed.

Lemma randSplice_spec letters g :
  fair g -> letters <> [] -> NoDup letters ->
  exists letter rest g',
    State.randSplice letters g = (Some letter, rest, g')
    /\ letter ∈ letters /\ (letter ∉ rest) /\ (rest ⊆ letters)
    /\ NoDup rest /\ length rest = length letters - 1
    /\ samples g' = samples g.
Proof.
  intros Hf Hne Hnd. unfold State.randSplice.
  assert (Hlen : (0 < Z.of_nat (length letters))%Z).
  { destruct letters; [done|]. simpl. lia. }
  pose proof (int_range 0 _ g Hf Hlen) as Hr.
  pose proof (int_draws 0 (Z.of_nat (length letters)) g) as [Hs _].
  destruct (Random.int 0 (Z.of_nat (length letters)) g) as [start g1].
  simpl in Hr, Hs. unfold splice1.
  destruct (Z.ltb_spec start 0); [lia|].
  rewrite Z.min_l by lia.
  destruct (lookup_lt_is_Some_2 letters (Z.to_nat start)) as [letter Hl];
    [lia|].
  rewrite Hl. exists letter, (delete (Z.to_nat start) letters), g1.
  pose proof (delete_Permutation letters _ _ Hl) as Hperm.
  assert (Hnd' : NoDup (letter :: delete (Z.to_nat start) letters)).
  { by rewrite <- Hperm. }
  apply NoDup_cons in Hnd' as [Hnotin Hnd'].
  split_and!; try done.
  - by eapply list_elem_of_lookup_2.
  - intros x Hx. rewrite Hperm. by right.
  - apply length_delete. by eexists.
Qed.

Lemma NoDup_letters n : NoDup (take n (chars LETTERS)).
Proof.
  eapply sublist_NoDup; [|apply sublist_take].
  apply (bool_decide_unpack _). by vm_compute.
Qed.

Lemma toInt32_small x :
  (- 2 ^ 31 <= x < 2 ^ 31)%Z -> toInt32 x = x.
Proof.
  intros Hx. unfold toInt32. rewrite Z.mod_small; lia.
Qed.

Lemma getInteger_spec context s g :
  exists value,
    State.getInteger context s g
    = (value, State.setInteger context value s,
       (State.getInteger context s g).2)
    /\ State._integers (State.getInteger context s g).1.2 !! context
       = Some value
    /\ (forall held, State._integers s !! context = Some held ->
          value = held
          /\ (State.getInteger context s g).1.2 = s
          /\ (State.getInteger context s g).2 = g)
    /\ (State._integers s !! context = None ->
        value = (Random.int (State.integerBounds context).1
                   (State.integerBounds context).2 g).1)
    /\ samples (State.getInteger context s g).2 = samples g.
Proof.
  unfold State.getInteger.
  destruct (State._integers s !! context) as [held|] eqn:Hheld.
  - exists held. split_and!; try done.
    + f_equal. f_equal. destruct s. unfold State.setInteger. simpl in *.
      f_equal. by rewrite insert_id.
    + by intros ? [= <-].
  - destruct (State.integerBounds context) as [min max]. cbn [fst snd].
    destruct (Random.int min max g) as [value g1] eqn:Hint.
    exists value. cbn [fst snd]. split_and!; try done.
    + simpl. by rewrite lookup_insert_eq.
    + pose proof (int_draws min max g) as [Hs _]. by rewrite Hint in Hs.
Qed.

Lemma lookup_assign_eq {A} (k : string) (v : option A) (m : gmap string A) :
  assign k v m !! k = v.
Proof.
  destruct v; simpl; [apply lookup_insert_eq|apply lookup_delete_eq].
Qed.

Lemma lookup_assign_ne {A} (k k' : string) (v : option A)
    (m : gmap string A) :
  k <> k' -> assign k v m !! k' = m !! k'.
Proof.
  intros Hne.
  destruct v; simpl; [by apply lookup_insert_ne|by apply lookup_delete_ne].
Qed.

(** The fields of a state after a setter. *)
Lemma coaches_setCoach k v s :
  State._coaches (State.setCoach k v s) = assign k v (State._coaches s).
Proof. done. Qed.

Lemma integers_setCoach k v s :
  State._integers (State.setCoach k v s) = State._integers s.
Proof. done. Qed.

Lemma stations_setCoach k v s :
  State._stations (State.setCoach k v s) = State._stations s.
Proof. done. Qed.

Lemma lists_setCoach k v s :
  State._stationLists (State.setCoach k v s) = State._stationLists s.
Proof. done. Qed.

Lemma coaches_setInteger k v s :
  State._coaches (State.setInteger k v s) = State._coaches s.
Proof. done. Qed.

Lemma integers_setInteger k v s :
  State._integers (State.setInteger k v s) = <[k := v]> (State._integers s).
Proof. done. Qed.

Lemma stations_setInteger k v s :
  State._stations (State.setInteger k v s) = State._stations s.
Proof. done. Qed.

Lemma lists_setInteger k v s :
  State._stationLists (State.setInteger k v s) = State._stationLists s.
Proof. done. Qed.

Lemma coaches_setStation k v s :
  State._coaches (State.setStation k v s) = State._coaches s.
Proof. done. Qed.

Lemma integers_setStation k v s :
  State._integers (State.setStation k v s) = State._integers s.
Proof. done. Qed.

Lemma stations_setStation k v s :
  State._stations (State.setStation k v s) = assign k v (State._stations s).
Proof. done. Qed.

Lemma lists_setStation k v s :
  State._stationLists (State.setStation k v s) = State._stationLists s.
Proof. done. Qed.

Lemma coaches_setStationList k v s :
  State._coaches (State.setStationList k v s) = State._coaches s.
Proof. done. Qed.

Lemma integers_setStationList k v s :
  State._integers (State.setStationList k v s) = State._integers s.
Proof. done. Qed.

Lemma stations_setStationList k v s :
  State._stations (State.setStationList k v s) = State._stations s.
Proof. done. Qed.

Lemma lists_setStationList k v s :
  k <> "calling_first" ->
  State._stationLists (State.setStationList k v s)
  = <[k := v]> (State._stationLists s).
Proof.
  intros Hne. unfold State.setStationList.
  by destruct (String.eqb_spec k "calling_first").
Qed.

Create Rewrite HintDb rag_state.

#[local] Hint Rewrite coaches_setCoach integers_setCoach stations_setCoach
  lists_setCoach coaches_setInteger integers_setInteger stations_setInteger
  lists_setInteger coaches_setStation integers_setStation stations_setStation
  lists_setStation coaches_setStationList integers_setStationList
  stations_setStationList : rag_state.

Lemma genCoaches_spec s g :
  exists coaches,
    State._integers (State.genCoaches s g).1 !! "coaches" = Some coaches
    /\ (forall held, State._integers s !! "coaches" = Some held ->
          coaches = held)
    /\ (State._integers s !! "coaches" = None -> fair g ->
        (1 <= coaches <= 9)%Z)
    /\ State._stationLists (State.genCoaches s g).1 = State._stationLists s
    /\ State._stations (State.genCoaches s g).1 = State._stations s
    /\ ((coaches < 4)%Z ->
        State._coaches (State.genCoaches s g).1 = State._coaches s
        /\ forall k, k <> "coaches" ->
             State._integers (State.genCoaches s g).1 !! k
             = State._integers s !! k)
    /\ ((4 <= coaches)%Z ->
        State._integers (State.genCoaches s g).1 !! "front_coaches"
        = Some (toInt32 (coaches ÷ 2))
        /\ State._integers (State.genCoaches s g).1 !! "rear_coaches"
           = Some (coaches - toInt32 (coaches ÷ 2))%Z)
    /\ ((4 <= coaches)%Z -> fair g ->
        exists first shop standard1 standard2,
          State._coaches (State.genCoaches s g).1 !! "first" = Some first
          /\ State._coaches (State.genCoaches s g).1 !! "shop" = Some shop
          /\ State._coaches (State.genCoaches s g).1 !! "standard1"
             = Some standard1
          /\ State._coaches (State.genCoaches s g).1 !! "standard2"
             = Some standard2
          /\ NoDup [first; shop; standard1; standard2]
          /\ Forall (fun letter =>
                       letter ∈ take (Z.to_nat coaches) (chars LETTERS))
               [first; shop; standard1; standard2])
    /\ samples (State.genCoaches s g).2 = samples g.
Proof.
  unfold State.genCoaches.
  destruct (getInteger_spec "coaches" s g)
    as (coaches & Hget & Hstored & Hheld & Hdrawn & Hsamples).
  rewrite Hget. set (g1 := (State.getInteger "coaches" s g).2) in *.
  clearbody g1. clear Hget Hstored.
  exists coaches.
  assert (Hbounds : State._integers s !! "coaches" = None -> fair g ->
                    (1 <= coaches <= 9)%Z).
  { intros Hnone Hf. rewrite (Hdrawn Hnone).
    change (State.integerBounds "coaches") with (1, 10)%Z. cbn [fst snd].
    pose proof (int_range 1 10 g Hf ltac:(lia)). lia. }
  assert (Hheld' : forall held, State._integers s !! "coaches" = Some held ->
                     coaches = held).
  { intros held Hh. by destruct (Hheld held Hh). }
  destruct (Z.leb_spec 4 coaches) as [Hge|Hlt].
  2:{ cbn [fst snd]. autorewrite with rag_state.
      split; [apply lookup_insert_eq|].
      split; [exact Hheld'|]. split; [exact Hbounds|].
      split; [reflexivity|]. split; [reflexivity|].
      split; [|split; [intros; lia|split; [intros; lia|exact Hsamples]]].
      intros _. split; [reflexivity|].
      intros k Hk. by apply lookup_insert_ne. }
  set (letters := take (Z.to_nat coaches) (chars LETTERS)).
  assert (Hlen : 4 <= length letters).
  { unfold letters. rewrite length_take.
    change (length (chars LETTERS)) with 26. lia. }
  assert (Hnd : NoDup letters) by apply NoDup_letters.
  destruct (State.randSplice letters g1) as [[first l1] g2] eqn:H1.
  destruct (State.randSplice l1 g2) as [[shop l2] g3] eqn:H2.
  destruct (State.randSplice l2 g3) as [[standard1 l3] g4] eqn:H3.
  destruct (State.randSplice l3 g4) as [[standard2 l4] g5] eqn:H4.
  assert (Hs5 : samples g5 = samples g).
  { pose proof (int_draws 0 (Z.of_nat (length letters)) g1) as [Ha _].
    pose proof (int_draws 0 (Z.of_nat (length l1)) g2) as [Hb _].
    pose proof (int_draws 0 (Z.of_nat (length l2)) g3) as [Hc _].
    pose proof (int_draws 0 (Z.of_nat (length l3)) g4) as [Hd _].
    unfold State.randSplice in H1, H2, H3, H4.
    destruct (Random.int 0 (Z.of_nat (length letters)) g1) as [? ?].
    destruct (Random.int 0 (Z.of_nat (length l1)) g2) as [? ?].
    destruct (Random.int 0 (Z.of_nat (length l2)) g3) as [? ?].
    destruct (Random.int 0 (Z.of_nat (length l3)) g4) as [? ?].
    simpl in *. simplify_eq. congruence. }
  cbn [fst snd]. autorewrite with rag_state.
  split.
  { rewrite !lookup_insert_ne by done. apply lookup_insert_eq. }
  split; [exact Hheld'|]. split; [exact Hbounds|].
  split; [reflexivity|]. split; [reflexivity|].
  split; [intros; lia|].
  split.
  { intros _. split.
    - rewrite lookup_insert_ne by done. apply lookup_insert_eq.
    - apply lookup_insert_eq. }
  split; [|exact Hs5].
  intros _ Hf.
  assert (Hf1 : fair g1) by by apply (fair_samples g).
  destruct (randSplice_spec letters g1 Hf1)
    as (a & r1 & g2' & Ha & Hin1 & Hout1 & Hsub1 & Hnd1 & Hlen1 & Hs1);
    [intros Hnil; rewrite Hnil in Hlen; simpl in Hlen; lia|done|].
  rewrite H1 in Ha. injection Ha as -> -> ->.
  assert (Hf2 : fair g2').
  { apply (fair_samples g1); done. }
  destruct (randSplice_spec r1 g2' Hf2)
    as (b & r2 & g3' & Hb & Hin2 & Hout2 & Hsub2 & Hnd2 & Hlen2 & Hs2);
    [intros Hnil; rewrite Hnil in Hlen1; simpl in Hlen1; lia|done|].
  rewrite H2 in Hb. injection Hb as -> -> ->.
  assert (Hf3 : fair g3').
  { apply (fair_samples g2'); done. }
  destruct (randSplice_spec r2 g3' Hf3)
    as (c & r3 & g4' & Hc & Hin3 & Hout3 & Hsub3 & Hnd3 & Hlen3 & Hs3);
    [intros Hnil; rewrite Hnil in Hlen2; simpl in Hlen2; lia|done|].
  rewrite H3 in Hc. injection Hc as -> -> ->.
  assert (Hf4 : fair g4').
  { apply (fair_samples g3'); done. }
  destruct (randSplice_spec r3 g4' Hf4)
    as (d & r4 & g5' & Hd & Hin4 & Hout4 & Hsub4 & Hnd4 & Hlen4 & Hs4);
    [intros Hnil; rewrite Hnil in Hlen3; simpl in Hlen3; lia|done|].
  rewrite H4 in Hd. injection Hd as -> -> ->.
  exists a, b, c, d.
  split.
  { rewrite !lookup_assign_ne by done. apply lookup_assign_eq. }
  split.
  { rewrite !lookup_assign_ne by done. apply lookup_assign_eq. }
  split.
  { rewrite !lookup_assign_ne by done. apply lookup_assign_eq. }
  split; [apply lookup_assign_eq|].
  assert (Hc1 : c ∈ r1) by by apply Hsub2.
  assert (Hd2 : d ∈ r2) by by apply Hsub3.
  assert (Hd1 : d ∈ r1) by by apply Hsub2.
  split.
  - apply NoDup_cons. split.
    { rewrite !elem_of_cons, elem_of_nil.
      intros [->|[->|[->|[]]]]; done. }
    apply NoDup_cons. split.
    { rewrite !elem_of_cons, elem_of_nil.
      intros [->|[->|[]]]; done. }
    apply NoDup_cons. split.
    { rewrite !elem_of_cons, elem_of_nil. intros [->|[]]; done. }
    apply NoDup_singleton.
  - repeat (apply Forall_cons; split); [| | | |apply Forall_nil_2].
    + done.
    + by apply Hsub1.
    + by apply Hsub1, Hsub2.
    + by apply Hsub1, Hsub2, Hsub3.
Qed.

Lemma at_last {A} (arr : list A) :
  at_ arr (Z.of_nat (length arr) - 1) = last arr.
Proof.
  unfold at_. rewrite last_lookup.
  destruct (Z.ltb_spec (Z.of_nat (length arr) - 1) 0) as [Hlt|Hge].
  - destruct arr; [done|]. simpl in Hlt. lia.
  - f_equal. lia.
Qed.

Lemma genStationLists_spec db s g :
  match State.genStationLists db s g with
  | Diverges => False
  | Throws _ => Database.stationsCount db < 15
  | Returns (slCalling, slCallSplit, slChanges, slNotStopping, slRequests,
             s', g') =>
      15 <= Database.stationsCount db
      /\ s' = State.setStationList "request" slRequests
                (State.setStationList "not_stopping" slNotStopping
                   (State.setStationList "changes" slChanges
                      (State.setStationList "calling_split" slCallSplit
                         (State.setStationList "calling" slCalling s))))
      /\ slRequests `prefix_of` slCalling
      /\ samples g' = samples g
      /\ (fair g ->
          1 <= length slCalling <= 15 /\ 2 <= length slCallSplit <= 15
          /\ 1 <= length slChanges <= 3 /\ 1 <= length slNotStopping <= 7)
      /\ (fair g -> Database.stations db <> [] ->
          Forall (known db)
            (slCalling ++ slCallSplit ++ slChanges ++ slNotStopping))
  end.
Proof.
  unfold State.genStationLists.
  pose proof (pickStationCodes_spec db 1 16 None g) as H1.
  cbv zeta in H1.
  destruct (Database.pickStationCodes db 1 16 None g) as [[c g1]| |];
    cbn [andThen]; [|lia|done].
  destruct H1 as (Hc1 & Hl1 & _ & _ & Hk1 & Hs1).
  pose proof (pickStationCodes_spec db 2 16 (Some c) g1) as H2.
  cbv zeta in H2.
  destruct (Database.pickStationCodes db 2 16 (Some c) g1) as [[sp g2]| |];
    cbn [andThen]; [|lia|done].
  destruct H2 as (Hc2 & Hl2 & _ & _ & Hk2 & Hs2).
  pose proof (pickStationCodes_spec db 1 4 (Some (c ++ sp)) g2) as H3.
  cbv zeta in H3.
  destruct (Database.pickStationCodes db 1 4 (Some (c ++ sp)) g2)
    as [[ch g3]| |]; cbn [andThen]; [|lia|done].
  destruct H3 as (Hc3 & Hl3 & _ & _ & Hk3 & Hs3).
  pose proof (pickStationCodes_spec db 1 8 (Some ((c ++ sp) ++ ch)) g3)
    as H4.
  cbv zeta in H4.
  destruct (Database.pickStationCodes db 1 8 (Some ((c ++ sp) ++ ch)) g3)
    as [[ns g4]| |]; cbn [andThen]; [|lia|done].
  destruct H4 as (Hc4 & Hl4 & _ & _ & Hk4 & Hs4).
  pose proof (int_draws 1 (Z.of_nat (length c) - 1) g4) as [Hs5 _].
  destruct (Random.int 1 (Z.of_nat (length c) - 1) g4) as [reqCount g5].
  cbn [snd] in Hs5.
  assert (Hf1 : fair g -> fair g1) by (by apply fair_samples).
  assert (Hf2 : fair g -> fair g2).
  { intros Hf. apply (fair_samples g1); auto. }
  assert (Hf3 : fair g -> fair g3).
  { intros Hf. apply (fair_samples g2); auto. }
  split_and!.
  - lia.
  - done.
  - apply prefix_take.
  - congruence.
  - intros Hf.
    pose proof (int_range 1 16 g Hf ltac:(lia)).
    pose proof (int_range 2 16 g1 (Hf1 Hf) ltac:(lia)).
    pose proof (int_range 1 4 g2 (Hf2 Hf) ltac:(lia)).
    pose proof (int_range 1 8 g3 (Hf3 Hf) ltac:(lia)).
    lia.
  - intros Hf Hne. rewrite !Forall_app. split_and!; auto.
Qed.

Lemma genStations_spec db c sp ch ns rq s g :
  State._stationLists (State.genStations db c sp ch ns rq s g).1
  = State._stationLists s
  /\ State._integers (State.genStations db c sp ch ns rq s g).1
     = State._integers s
  /\ State._coaches (State.genStations db c sp ch ns rq s g).1
     = State._coaches s
  /\ State._stations (State.genStations db c sp ch ns rq s g).1
     !! "destination" = mjoin (last c)
  /\ State._stations (State.genStations db c sp ch ns rq s g).1
     !! "destination_split" = mjoin (last sp)
  /\ samples (State.genStations db c sp ch ns rq s g).2 = samples g.
Proof.
  unfold State.genStations.
  pose proof (pickStationCode_samples db None g) as Ha.
  destruct (Database.pickStationCode db None g) as [stExcuse g1].
  cbn [snd] in Ha.
  set (pickVia := fun g0 : Rng =>
         if (1 <? length c)%nat then Random.array (slice0 (-1) c) g0
         else Random.array (slice0 (-1) sp) g0).
  assert (Hvia : forall g0, samples (pickVia g0).2 = samples g0).
  { intros g0. unfold pickVia. by destruct (1 <? length c)%nat. }
  pose proof (Hvia g1) as Hb. fold (pickVia g1).
  destruct (pickVia g1) as [stVia g2]. cbn [snd] in Hb.
  pose proof (Hvia g2) as Hc. fold (pickVia g2).
  destruct (pickVia g2) as [stCalling g3]. cbn [snd] in Hc.
  pose proof (array_draws (slice0 (-1) sp) g3) as [Hd _].
  destruct (Random.array (slice0 (-1) sp) g3) as [stViaSplit g4].
  cbn [snd] in Hd.
  match goal with
  | |- context [Database.pickStationCode db ?ex g4] =>
      pose proof (pickStationCode_samples db ex g4) as He;
      destruct (Database.pickStationCode db ex g4) as [stSource g5]
  end.
  cbn [snd fst] in *. autorewrite with rag_state.
  split; [reflexivity|]. split; [reflexivity|]. split; [reflexivity|].
  split.
  { rewrite !lookup_assign_ne by done. rewrite lookup_assign_eq.
    by rewrite at_last. }
  split.
  { rewrite !lookup_assign_ne by done. rewrite lookup_assign_eq.
    by rewrite at_last. }
  congruence.
Qed.

(** X18. [genDefaultState] comes to an end whatever numbers are drawn:
    it throws exactly when the database has fewer than fifteen stations,
    and otherwise returns a state that holds the five station lists, of
    which the request stops are a prefix of the calling list, and whose
    destinations are the last stations of the calling list and of the
    split. The lists have 1 to 15, 2 to 15, 1 to 3 and 1 to 7 stations,
    each the code of a station of the database. *)
Theorem genDefaultState_needs_fifteen_stations (db : Database.Database)
    (s : State.State) (g : Rng) :
  match State.genDefaultState db s g with
  | Diverges => False
  | Throws _ => Database.stationsCount db < 15
  | Returns (s', g') =>
      15 <= Database.stationsCount db
      /\ exists slCalling slCallSplit slChanges slNotStopping slRequests,
          State._stationLists s' !! "calling" = Some slCalling
          /\ State._stationLists s' !! "calling_split" = Some slCallSplit
          /\ State._stationLists s' !! "changes" = Some slChanges
          /\ State._stationLists s' !! "not_stopping" = Some slNotStopping
          /\ State._stationLists s' !! "request" = Some slRequests
          /\ slRequests `prefix_of` slCalling
          /\ State._stations s' !! "destination" = mjoin (last slCalling)
          /\ State._stations s' !! "destination_split"
             = mjoin (last slCallSplit)
          /\ (fair g ->
              1 <= length slCalling <= 15
              /\ 2 <= length slCallSplit <= 15
              /\ 1 <= length slChanges <= 3
              /\ 1 <= length slNotStopping <= 7)
          /\ (fair g -> Database.stations db <> [] ->
              Forall (known db)
                (slCalling ++ slCallSplit ++ slChanges ++ slNotStopping))
  end.
Proof.
  unfold State.genDefaultState.
  pose proof (genStationLists_spec db s g) as Hlists.
  destruct (State.genStationLists db s g)
    as [[[[[[[c sp] ch] ns] rq] s1] g1]| |]; cbn [andThen]; [|done..].
  destruct Hlists as (Hcount & Hs1 & Hprefix & Hsamples & Hsizes & Hknown).
  destruct (genStations_spec db c sp ch ns rq s1 g1)
    as (Hl2 & _ & _ & Hdest & Hsplit & _).
  destruct (State.genStations db c sp ch ns rq s1 g1) as [s2 g2].
  cbn [fst snd] in *.
  destruct (genCoaches_spec s2 g2) as (_ & _ & _ & _ & Hl3 & Hst3 & _).
  destruct (State.genCoaches s2 g2) as [s3 g3]. cbn [fst snd] in *.
  split; [done|]. exists c, sp, ch, ns, rq.
  rewrite Hl3, Hst3, Hl2, Hs1. rewrite !lists_setStationList by done.
  split.
  { rewrite !lookup_insert_ne by done. apply lookup_insert_eq. }
  split.
  { rewrite !lookup_insert_ne by done. apply lookup_insert_eq. }
  split.
  { rewrite !lookup_insert_ne by done. apply lookup_insert_eq. }
  split.
  { rewrite !lookup_insert_ne by done. apply lookup_insert_eq. }
  split; [apply lookup_insert_eq|].
  split; [exact Hprefix|]. split; [exact Hdest|]. split; [exact Hsplit|].
  split; [exact Hsizes|exact Hknown].
Qed.

(** X19. The coaches of a generated state. The number of coaches is the
    one the state held, or else a number from 1 to 9. With four coaches or
    more, the front coaches are half of them, rounded down, the rear
    coaches are the others, and the coaches "first", "shop", "standard1"
    and "standard2" get four different letters among the first letters of
    the alphabet, as many as there are coaches; with fewer than four
    coaches neither the split nor a letter is stored. *)
Theorem genDefaultState_coaches (db : Database.Database) (s : State.State)
    (g : Rng) (s' : State.State) (g' : Rng) :
  State.genDefaultState db s g = Returns (s', g') ->
  exists coaches,
    State._integers s' !! "coaches" = Some coaches
    /\ (forall held, State._integers s !! "coaches" = Some held ->
          coaches = held)
    /\ (State._integers s !! "coaches" = None -> fair g ->
        (1 <= coaches <= 9)%Z)
    /\ ((coaches < 4)%Z ->
        State._coaches s' = State._coaches s
        /\ forall k, k <> "coaches" ->
             State._integers s' !! k = State._integers s !! k)
    /\ ((4 <= coaches < 2 ^ 32)%Z ->
        State._integers s' !! "front_coaches" = Some (coaches / 2)%Z
        /\ State._integers s' !! "rear_coaches"
           = Some (coaches - coaches / 2)%Z)
    /\ ((4 <= coaches)%Z -> fair g ->
        exists first shop standard1 standard2,
          State._coaches s' !! "first" = Some first
          /\ State._coaches s' !! "shop" = Some shop
          /\ State._coaches s' !! "standard1" = Some standard1
          /\ State._coaches s' !! "standard2" = Some standard2
          /\ NoDup [first; shop; standard1; standard2]
          /\ Forall (fun letter =>
                       letter ∈ take (Z.to_nat coaches) (chars LETTERS))
               [first; shop; standard1; standard2]).
Proof.
  unfold State.genDefaultState. intros Hgen.
  pose proof (genStationLists_spec db s g) as Hlists.
  destruct (State.genStationLists db s g)
    as [[[[[[[c sp] ch] ns] rq] s1] g1]| |]; cbn [andThen] in Hgen;
    [|done..].
  destruct Hlists as (_ & Hs1 & _ & Hsamples1 & _).
  destruct (genStations_spec db c sp ch ns rq s1 g1)
    as (_ & Hi2 & Hc2 & _ & _ & Hsamples2).
  destruct (State.genStations db c sp ch ns rq s1 g1) as [s2 g2].
  cbn [fst snd] in *.
  destruct (genCoaches_spec s2 g2)
    as (coaches & Hstored & Hheld & Hdrawn & _ & _ & Hfew & Hsplit
        & Hletters & _).
  injection Hgen as Hgen. rewrite Hgen in *. cbn [fst snd] in *.
  assert (Hi1 : State._integers s1 = State._integers s).
  { rewrite Hs1. by autorewrite with rag_state. }
  assert (Hc1 : State._coaches s1 = State._coaches s).
  { rewrite Hs1. by autorewrite with rag_state. }
  assert (Hf2 : fair g -> fair g2).
  { intros Hf. apply (fair_samples g); [congruence|done]. }
  rewrite Hi2, Hi1 in *. rewrite Hc2, Hc1 in *.
  exists coaches. split_and!; try done.
  - auto.
  - intros [Hge Hlt]. destruct (Hsplit Hge) as [Hfront Hrear].
    assert (Hhalf : toInt32 (coaches ÷ 2) = (coaches / 2)%Z).
    { rewrite Z.quot_div_nonneg by lia. apply toInt32_small.
      pose proof (Z.div_pos coaches 2 ltac:(lia) ltac:(lia)).
      assert (coaches / 2 < 2 ^ 31)%Z; [|lia].
      apply Z.div_lt_upper_bound; lia. }
    by rewrite Hfront, Hrear, Hhalf.
  - auto.
Qed.

Lemma sample_generated :
  State.genDefaultState sampleNetwork
    (State.setInteger "coaches" 8 State.new) sampleRng
  = Returns (sampleGenerated.1, sampleGenerated.2).
Proof. by vm_compute. Qed.

Lemma genDefaultState_coaches_witness :
  State._integers sampleGenerated.1 !! "front_coaches" = Some 4%Z
  /\ State._integers sampleGenerated.1 !! "rear_coaches" = Some 4%Z.
Proof.
  destruct (genDefaultState_coaches sampleNetwork
              (State.setInteger "coaches" 8 State.new) sampleRng
              sampleGenerated.1 sampleGenerated.2 sample_generated)
    as (coaches & _ & Hheld & _ & _ & Hsplit & _).
  rewrite (Hheld 8%Z eq_refl) in Hsplit. apply Hsplit. lia.
Defined.

Lemma pickStationCodeFrom_spec db exclude : forall left g,
  let picked := Database.pickStationCodeFrom db left exclude g in
  drawn g < drawn picked.2 <= drawn g + left + 1
  /\ (picked.1 ∉ exclude \/ drawn picked.2 = drawn g + left + 1)
  /\ (fair g -> Database.stations db <> [] -> known db picked.1).
Proof.
  induction left as [|left IH]; intros g; cbn [Database.pickStationCodeFrom].
  - pose proof (objectKey_draws (Database.stations db) g) as [_ Hd].
    pose proof (objectKey_known db g) as Hk.
    destruct (Random.objectKey (Database.stations db) g) as [value g1].
    cbn [fst snd] in *. split_and!; [lia|lia|right; lia|done].
  - pose proof (objectKey_draws (Database.stations db) g) as [Hs Hd].
    pose proof (objectKey_known db g) as Hk.
    destruct (Random.objectKey (Database.stations db) g) as [value g1].
    cbn [fst snd] in *. unfold Database.includes.
    case_bool_decide as Hin; cbn [negb fst snd].
    + specialize (IH g1). cbv zeta in IH.
      destruct IH as ([Hlo Hhi] & Hor & Hkn).
      split_and!; [lia|lia| |].
      * destruct Hor as [Hout|Hlast]; [by left|right; lia].
      * intros Hf Hne. apply Hkn; [|done]. by apply (fair_samples g).
    + split_and!; [lia|lia|by left|done].
Qed.

(** X20. [pickStationCode] draws at most [stationsCount + 1] keys. With
    an array to exclude it returns a code outside the array, unless it had
    to draw all [stationsCount + 1] keys: the last one is returned as it
    is, excluded or not. Without an array it draws once. With a database
    that has stations the code is the code of a station. *)
Theorem pickStationCode_avoids_excluded (db : Database.Database)
    (exclude : option (list Code)) (g : Rng) :
  let count := Database.stationsCount db in
  let picked := Database.pickStationCode db exclude g in
  drawn g < drawn picked.2 <= drawn g + count + 1
  /\ (exclude = None -> drawn picked.2 = drawn g + 1)
  /\ (outside exclude picked.1 \/ drawn picked.2 = drawn g + count + 1)
  /\ (fair g -> Database.stations db <> [] -> known db picked.1).
Proof.
  intros count picked. unfold picked, Database.pickStationCode.
  destruct exclude as [exclude|].
  - destruct (pickStationCodeFrom_spec db exclude
                (Database.stationsCount db) g) as (Hd & Hor & Hk).
    fold count in Hd, Hor.
    split; [exact Hd|]. split; [done|]. split; [exact Hor|exact Hk].
  - pose proof (objectKey_draws (Database.stations db) g) as [_ Hd].
    pose proof (objectKey_known db g) as Hk.
    destruct (Random.objectKey (Database.stations db) g) as [value g1].
    cbn [fst snd] in *. split_and!; [lia|lia|intros _; lia|by left|done].
Qed.

Lemma getOwnStationList_spec db context s g :
  State._stationLists s !! context = None ->
  match State.getOwnStationList db context s g with
  | Diverges => False
  | Throws _ =>
      (Z.of_nat (Database.stationsCount db)
       < (State.stationListBounds context).2
         - (State.stationListBounds context).1)%Z
  | Returns (list, s', g') =>
      ((State.stationListBounds context).2
       - (State.stationListBounds context).1
       <= Z.of_nat (Database.stationsCount db))%Z
      /\ State._stationLists s' = <[context := list]> (State._stationLists s)
      /\ (fair g ->
          0 <= (State.stationListBounds context).1
          < (State.stationListBounds context).2 ->
          (State.stationListBounds context).1 <= Z.of_nat (length list)
          < (State.stationListBounds context).2)%Z
  end.
Proof.
  intros Hnone. unfold State.getOwnStationList. rewrite Hnone.
  destruct (State.stationListBounds context) as [min max]. cbn [fst snd].
  pose proof (pickStationCodes_spec db min max None g) as Hspec.
  cbv zeta in Hspec.
  destruct (Database.pickStationCodes db min max None g) as [[list g']| |];
    [|done..].
  destruct Hspec as (Hcount & Hlen & _). split; [done|]. split; [done|].
  intros Hf Hlt. pose proof (int_range min max g Hf ltac:(lia)). lia.
Qed.

(** X22. [getStationList] for a context that has no list yet (and is
    not a name every object inherits): it throws exactly when the
    database has fewer stations than the bounds of the context are apart
    (14 for calling_split, 3 for changes, 7 for not_stopping, 15 for any
    other), and otherwise returns a list that it stores under the context
    (under calling for calling_first) and whose length lies within the
    bounds, the upper bound left out. *)
Theorem getStationList_bounds (db : Database.Database) (context : string)
    (s : State.State) (g : Rng) :
  plainKey context ->
  State._stationLists s !! context = None ->
  (context = "calling_first" -> State._stationLists s !! "calling" = None) ->
  let target := if String.eqb context "calling_first" then "calling"
                else context in
  let apart :=
    if String.eqb target "calling_split" then 14
    else if String.eqb target "changes" then 3
    else if String.eqb target "not_stopping" then 7
    else 15 in
  let least := if String.eqb target "calling_split" then 2 else 1 in
  match State.getStationList db context s g with
  | Diverges => False
  | Throws _ => Database.stationsCount db < apart
  | Returns (list, s', g') =>
      apart <= Database.stationsCount db
      /\ State._stationLists s' !! target = Some list
      /\ (fair g -> least <= length list <= least + apart - 1)
  end.
Proof.
  intros _ Hnone Hcalling target apart least.
  assert (Hget : State.getStationList db context s g
                 = State.getOwnStationList db target s g).
  { unfold State.getStationList, target. rewrite Hnone.
    by destruct (String.eqb context "calling_first"). }
  assert (Htarget : State._stationLists s !! target = None).
  { unfold target.
    destruct (String.eqb_spec context "calling_first"); auto. }
  rewrite Hget.
  pose proof (getOwnStationList_spec db target s g Htarget) as Hspec.
  destruct (State.getOwnStationList db target s g)
    as [[[list s'] g']| |]; [| |done].
  - destruct Hspec as (Hcount & Hstored & Hlen).
    unfold State.stationListBounds, apart, least in *.
    destruct (String.eqb target "calling_split"),
             (String.eqb target "changes"),
             (String.eqb target "not_stopping"); cbn [fst snd] in *;
      (split; [lia|]); (split; [rewrite Hstored; apply lookup_insert_eq|]);
      intros Hf; specialize (Hlen Hf ltac:(lia)); lia.
  - unfold State.stationListBounds, apart in *.
    destruct (String.eqb target "calling_split"),
             (String.eqb target "changes"),
             (String.eqb target "not_stopping"); cbn [fst snd] in *; lia.
Qed.

Lemma plainKey_changes : plainKey "changes".
Proof. unfold plainKey. apply (bool_decide_unpack _). by vm_compute. Qed.

Lemma getStationList_bounds_witness :
  exists list s' g',
    State.getStationList sampleDatabase "changes" State.new sampleRng
    = Returns (list, s', g')
    /\ 1 <= length list <= 3.
Proof.
  pose proof (getStationList_bounds sampleDatabase "changes" State.new
                sampleRng plainKey_changes eq_refl
                ltac:(discriminate)) as Hbounds.
  cbv zeta in Hbounds.
  destruct (State.getStationList sampleDatabase "changes" State.new
              sampleRng) as [[[list s'] g']|message|].
  - exists list, s', g'. split; [done|].
    destruct Hbounds as (_ & _ & Hlen). by apply Hlen, fair_sample.
  - exfalso. cbn in Hbounds. lia.
  - done.
Defined.

End RagProps.
